(** * CompSys exam toolkit: cache and virtual-memory simulators

    A shallow embedding of [lib/bit.js], [modules/cache.js] and
    [modules/vm.js], with [normalize] of [lib/utils.js] and the module
    search of [app.js], followed by the properties of the parsers, the
    address decomposition, the LRU stores and the two simulators.

    Conventions of the embedding.
    - A JavaScript [BigInt] is a [Z]; a JavaScript [Number] that holds an
      integer is a [Z] too, which is exact for magnitudes up to 2^53 - 1
      (every configuration value and counter of the simulators; above it
      [Number.parseInt] and [n - 1] round, which [parseInt10] and
      [isPowerOfTwo] do not).  The 32-bit truncation done by the [Number]
      operators [&] and [|] is written out ([ToInt32]).  The hit rate, the
      one [Number] that is not an integer, is a binary64 float.
    - A JavaScript string is a [string] of one-byte characters, which is
      exact for ASCII text: the white space of [trim], of [parseInt] and of
      the regular-expression class [\s] is the ASCII white space (tab, line
      feed, vertical tab, form feed, carriage return, space), and the letters
      of [toLowerCase] and [toUpperCase] are the ASCII letters.  JavaScript
      also counts U+00A0, U+FEFF and the other Unicode spaces as white
      space: the statements on every text of the address parser, of the
      number parser of the mappings and of the address list are made for
      ASCII text ([Spec.asciiText]).
    - A function that may [throw new Error(msg)] returns a [completion]:
      [Normal v] or [Throw msg].
    - [compute] of the two modules returns the data from which the report
      text is printed (derived widths, per-access records, counters, final
      stores) instead of the joined text. *)

From Stdlib Require Import ZArith Ascii String Lia.
From Stdlib Require Import DecimalString HexadecimalString.
From Stdlib Require HexadecimalPos.
From Stdlib Require Floats Uint63.
From Stdlib Require Import Sorted.
From stdpp Require Import base option list gmap strings.

Local Open Scope Z_scope.

(** ** Completions: the result of code that may throw *)

Inductive completion (A : Type) : Type :=
| Normal (a : A)
| Throw (msg : string).
Arguments Normal {A} a.
Arguments Throw {A} msg.

Global Instance completion_ret : MRet completion := fun A a => Normal a.
Global Instance completion_bind : MBind completion := fun A B f c =>
  match c with
  | Normal a => f a
  | Throw msg => Throw msg
  end.

(** [if (cond) throw new Error(msg);] *)
Definition throwIf (cond : bool) (msg : string) : completion unit :=
  if cond then Throw msg else Normal tt.

(** [xs.map(f)] for an [f] that may throw: the first throw wins. *)
Fixpoint mapM {A B : Type} (f : A -> completion B) (xs : list A)
  : completion (list B) :=
  match xs with
  | [] => Normal []
  | x :: xs' => y ← f x; ys ← mapM f xs'; Normal (y :: ys)
  end.

Definition isNormal {A : Type} (c : completion A) : bool :=
  match c with Normal _ => true | Throw _ => false end.

(** ** JavaScript string primitives used by the parsers *)

Module Js.

Definition dquote : string := String "034"%char "".
Definition newline : string := String "010"%char "".

(** Equality of characters, as a test. *)
Definition charEq (a b : ascii) : bool := Ascii.eqb a b.
Global Arguments charEq : simpl never.

(** [\s] and the characters removed by [trim]. *)
Definition isSpace (c : ascii) : bool := Ascii.is_space c.

Definition inRange (lo hi : N) (c : ascii) : bool :=
  let n := N_of_ascii c in ((lo <=? n) && (n <=? hi))%N.

(** [[0-9]] *)
Definition isDigit (c : ascii) : bool := inRange 48 57 c.
(** [[a-f]] with the [i] flag *)
Definition isHexLetter (c : ascii) : bool := inRange 97 102 c || inRange 65 70 c.
(** [[0-9a-f]] with the [i] flag *)
Definition isHexDigit (c : ascii) : bool := isDigit c || isHexLetter c.

Definition lowerChar (c : ascii) : ascii :=
  if inRange 65 90 c then ascii_of_N (N_of_ascii c + 32) else c.
Definition upperChar (c : ascii) : ascii :=
  if inRange 97 122 c then ascii_of_N (N_of_ascii c - 32) else c.

Fixpoint mapChars (f : ascii -> ascii) (s : string) : string :=
  match s with
  | EmptyString => EmptyString
  | String c s' => String (f c) (mapChars f s')
  end.

Fixpoint toLowerCase (s : string) : string :=
  match s with
  | EmptyString => EmptyString
  | String c s' => String (lowerChar c) (toLowerCase s')
  end.

Fixpoint toUpperCase (s : string) : string :=
  match s with
  | EmptyString => EmptyString
  | String c s' => String (upperChar c) (toUpperCase s')
  end.

Fixpoint allChars (p : ascii -> bool) (s : string) : bool :=
  match s with
  | EmptyString => true
  | String c s' => p c && allChars p s'
  end.

Fixpoint anyChar (p : ascii -> bool) (s : string) : bool :=
  match s with
  | EmptyString => false
  | String c s' => p c || anyChar p s'
  end.

Fixpoint removeChars (p : ascii -> bool) (s : string) : string :=
  match s with
  | EmptyString => EmptyString
  | String c s' => if p c then removeChars p s' else String c (removeChars p s')
  end.

Definition isEmpty (s : string) : bool :=
  match s with EmptyString => true | String _ _ => false end.

Fixpoint trimStart (s : string) : string :=
  match s with
  | EmptyString => EmptyString
  | String c s' => if isSpace c then trimStart s' else s
  end.

Fixpoint trimEnd (s : string) : string :=
  match s with
  | EmptyString => EmptyString
  | String c s' =>
      let r := trimEnd s' in
      if isSpace c && isEmpty r then EmptyString else String c r
  end.

Definition trim (s : string) : string := trimEnd (trimStart s).

(** [s.startsWith(p)] *)
Fixpoint startsWith (p s : string) : bool :=
  match p, s with
  | EmptyString, _ => true
  | String a p', String b s' => if charEq a b then startsWith p' s' else false
  | String _ _, EmptyString => false
  end.

(** [s.slice(n)] for [0 <= n] *)
Fixpoint slice (n : nat) (s : string) : string :=
  match n, s with
  | O, _ => s
  | S n', String _ s' => slice n' s'
  | S _, EmptyString => EmptyString
  end.

(** [/^[0-9]+$/.test(s)] *)
Definition isDecimalLiteral (s : string) : bool := negb (isEmpty s) && allChars isDigit s.
(** [/^[0-9a-f]+$/i.test(s)] *)
Definition isHexLiteral (s : string) : bool := negb (isEmpty s) && allChars isHexDigit s.
(** [/^0x[0-9a-f]+$/i.test(s)] *)
Definition isPrefixedHexLiteral (s : string) : bool :=
  startsWith "0x" (toLowerCase s) && isHexLiteral (slice 2 s).

Definition digitVal (c : ascii) : Z :=
  if isDigit c then Z.of_N (N_of_ascii c) - 48
  else if inRange 97 102 c then Z.of_N (N_of_ascii c) - 87
  else if inRange 65 70 c then Z.of_N (N_of_ascii c) - 55
  else 0.

(** The value of a digit string in the given radix, most significant
    digit first. *)
Fixpoint digitsValue (radix : Z) (acc : Z) (s : string) : Z :=
  match s with
  | EmptyString => acc
  | String c s' => digitsValue radix (acc * radix + digitVal c) s'
  end.

(** [BigInt("0x" + s)] for [s] matching [/^[0-9a-f]+$/i]. *)
Definition hexValue (s : string) : Z := digitsValue 16 0 s.
(** [BigInt(s)] for [s] matching [/^[0-9]+$/]. *)
Definition decValue (s : string) : Z := digitsValue 10 0 s.

(** [`${n}`] for an integer [Number]. *)
Definition showNumber (n : Z) : string :=
  DecimalString.NilZero.string_of_int (Z.to_int n).

(** [s.padStart(n, "0")] *)
Definition padStart0 (n : Z) (s : string) : string :=
  String.concat "" (replicate (Z.to_nat (n - Z.of_nat (String.length s))) "0") +:+ s.

(** [text.split(/\r?\n/)]: [cur] holds the current piece, reversed. *)
Fixpoint splitLinesGo (cur : string) (s : string) : list string :=
  match s with
  | EmptyString => [String.rev cur]
  | String c s' =>
      if charEq c "010" then String.rev cur :: splitLinesGo "" s'
      else if charEq c "013" then
        match s' with
        | String c2 s'' =>
            if charEq c2 "010" then String.rev cur :: splitLinesGo "" s''
            else splitLinesGo (String c cur) s'
        | EmptyString => splitLinesGo (String c cur) s'
        end
      else splitLinesGo (String c cur) s'
  end.
Definition splitLines (text : string) : list string := splitLinesGo "" text.

(** [text.split(/\r?\n/).map(l => l.trim())] *)
Definition trimmedLines (text : string) : list string := trim <$> splitLines text.

Fixpoint takeDigits (s : string) : string :=
  match s with
  | EmptyString => EmptyString
  | String c s' => if isDigit c then String c (takeDigits s') else EmptyString
  end.

(** [Number.parseInt(str, 10)]; [None] stands for [NaN]. *)
Definition parseInt10 (str : string) : option Z :=
  let s := trimStart str in
  let '(neg, s) :=
    match s with
    | String c r =>
        if charEq c "-" then (true, r)
        else if charEq c "+" then (false, r)
        else (false, s)
    | EmptyString => (false, s)
    end in
  let digits := takeDigits s in
  if isEmpty digits then None
  else Some (if neg : bool then - decValue digits else decValue digits).

(** [x ?? d] for a field that may be undefined *)
Definition orDefault (x : option string) (d : string) : string := default d x.

(** The message of the [TypeError] raised when a property of [undefined]
    is read. *)
Definition typeError : string := "TypeError".

(** [s.replace(/->/g, " ")] *)
Fixpoint replaceArrows (s : string) : string :=
  match s with
  | EmptyString => EmptyString
  | String c s' =>
      match s' with
      | String c2 s'' =>
          if charEq c "-" then
            if charEq c2 ">" then String " " (replaceArrows s'')
            else String c (replaceArrows s')
          else String c (replaceArrows s')
      | EmptyString => String c EmptyString
      end
  end.

(** [s.replace(/\s+/g, " ")]; [inRun] tells that the previous character
    was white space. *)
Fixpoint collapseSpacesGo (inRun : bool) (s : string) : string :=
  match s with
  | EmptyString => EmptyString
  | String c s' =>
      if isSpace c then
        if inRun then collapseSpacesGo true s'
        else String " " (collapseSpacesGo true s')
      else String c (collapseSpacesGo false s')
  end.
Definition collapseSpaces : string -> string := collapseSpacesGo false.

(** [s.split(" ")] *)
Fixpoint splitSpacesGo (cur : string) (s : string) : list string :=
  match s with
  | EmptyString => [String.rev cur]
  | String c s' =>
      if charEq c " " then String.rev cur :: splitSpacesGo "" s'
      else splitSpacesGo (String c cur) s'
  end.
Definition splitSpaces (s : string) : list string := splitSpacesGo "" s.

(** [s.slice(0, n)] for [0 <= n] *)
Fixpoint sliceTo (n : nat) (s : string) : string :=
  match n, s with
  | O, _ => EmptyString
  | S n', String c s' => String c (sliceTo n' s')
  | S _, EmptyString => EmptyString
  end.

(** [s.slice(i, j)] for [0 <= i <= j] *)
Definition sliceRange (i j : nat) (s : string) : string := sliceTo (j - i) (slice i s).

(** The [Number] that holds the integer [z], for [0 <= z < 2^53]. *)
Definition toDouble (z : Z) : PrimFloat.float := PrimFloat.of_uint63 (Uint63.of_Z z).

(** [hay.includes(needle)] *)
Fixpoint includes (hay needle : string) : bool :=
  startsWith needle hay ||
  match hay with
  | EmptyString => false
  | String _ hay' => includes hay' needle
  end.

End Js.

(** ** [lib/bit.js] *)

Module Bit.
Import Js.

Definition parseHexToBigInt (input : string) : completion Z :=
  let s := toLowerCase (trim input) in
  if isEmpty s then Throw "Address is empty" else
  let s := removeChars isSpace (removeChars (charEq "_") s) in
  let s := if startsWith "0x" s then slice 2 s else s in
  if negb (isHexLiteral s)
  then Throw ("Invalid hex address: " +:+ dquote +:+ input +:+ dquote)
  else Normal (hexValue s).

(** The conversion applied to both operands of the [Number] operator [&]. *)
Definition ToInt32 (n : Z) : Z := (n + 2 ^ 31) mod 2 ^ 32 - 2 ^ 31.

(** [Number.isInteger(n) && n > 0 && (n & (n - 1)) === 0]; the argument is
    an integer [Number]. *)
Definition isPowerOfTwo (n : Z) : bool :=
  (0 <? n) && (Z.land (ToInt32 n) (ToInt32 (n - 1)) =? 0).

(** [Math.log2(n) | 0]: the logarithm truncated to an integer, then to 32
    bits.  [Math.log2] is exact on powers of two. *)
Definition log2IntPow2 (n : Z) : completion Z :=
  if negb (isPowerOfTwo n)
  then Throw ("Expected power of two, got " +:+ showNumber n)
  else Normal (ToInt32 (Z.log2 n)).

Definition maskBits (bits : Z) : Z :=
  if bits <=? 0 then 0 else Z.shiftl 1 bits - 1.

Definition clampBigIntToBits (x : Z) (bits : Z) : Z :=
  if bits <=? 0 then 0 else Z.land x (maskBits bits).

(** [x.toString(16).toUpperCase()], padded to [minNibbles] digits. *)
Definition toHex (x : Z) (minNibbles : Z) : string :=
  let digits := toUpperCase (HexadecimalString.NilZero.string_of_int (Z.to_hex_int x)) in
  let s := if 0 <? minNibbles then padStart0 minNibbles digits else digits in
  "0x" +:+ s.

(** [x.toString(2)] of a positive [BigInt], most significant digit first,
    put before [acc]. *)
Fixpoint binDigits (p : positive) (acc : string) : string :=
  match p with
  | xH => String "1" acc
  | xO p' => binDigits p' (String "0" acc)
  | xI p' => binDigits p' (String "1" acc)
  end.

Definition toStringBase2 (x : Z) : string :=
  match x with
  | Z0 => "0"
  | Zpos p => binDigits p ""
  | Zneg p => String "-" (binDigits p "")
  end.

(** [bits] is [None] when the second argument is left out. *)
Definition toBin (x : Z) (bits : option Z) : string :=
  let s := toStringBase2 x in
  match bits with
  | Some b => padStart0 b s
  | None => s
  end.

End Bit.

(** ** The LRU scan shared by the cache and the TLB

    [pickVictimLRU] is written twice in the sources, with the same text,
    once over cache lines and once over TLB lines; both only read the
    fields [valid] and [lastUsed]. *)

Class LruLine (L : Type) := {
  line_valid : L -> bool;
  line_tag : L -> Z;
  line_lastUsed : L -> Z
}.

Section Lru.
Context {L : Type} `{LruLine L}.

(** The body of [for (let i = 1; i < lines.length; i++)]:
    [if (lines[i].lastUsed < lines[best].lastUsed) best = i]. *)
Definition lruStep (lines : list L) (best i : nat) : nat :=
  match lines !! i, lines !! best with
  | Some x, Some b => if line_lastUsed x <? line_lastUsed b then i else best
  | _, _ => best
  end.

Definition pickVictimLRU (lines : list L) : nat :=
  match list_find (fun x => line_valid x = false) lines with
  | Some (invalidIdx, _) => invalidIdx
  | None => foldl (lruStep lines) 0%nat (seq 1 (length lines - 1))
  end.

(** The lookup loop of both simulators:
    [for (w = 0; w < setLines.length; w++)
       if (ln.valid && ln.tag === tag) { hitWay = w; break; }];
    [None] stands for [hitWay === -1]. *)
Definition findHit (tag : Z) (setLines : list L) : option nat :=
  fst <$> list_find (fun ln => line_valid ln = true /\ line_tag ln = tag) setLines.
End Lru.

(** The order in which the two [fmt...] helpers list a set: the valid
    lines, sorted by [valid.sort((a, b) => b.lastUsed - a.lastUsed)].  The
    sort of an array is stable, so the result is the one of any stable sort
    by decreasing [lastUsed]; it is written here as an insertion sort. *)
Section Mru.
Context {L : Type} `{LruLine L}.

Fixpoint insertByRecency (x : L) (sorted : list L) : list L :=
  match sorted with
  | [] => [x]
  | y :: rest =>
      if line_lastUsed x <? line_lastUsed y then y :: insertByRecency x rest
      else x :: y :: rest
  end.

Definition mruOrder (lines : list L) : list L :=
  foldr insertByRecency [] (filter (fun x => line_valid x = true) lines).
End Mru.

(** [parseIntStrict(s, name)], written once in each module. *)
Definition parseIntStrict (s : string) (name : string) : completion Z :=
  match Js.parseInt10 (Js.trim s) with
  | None => Throw ("Invalid " +:+ name)
  | Some n => Normal n
  end.

(** ** [modules/cache.js] *)

Module Cache.
Import Js Bit.

Record line := Line { valid : bool; tag : Z; lastUsed : Z }.

Global Instance line_lru : LruLine line :=
  {| line_valid := valid; line_tag := tag; line_lastUsed := lastUsed |}.

Definition pickVictimLRU (lines : list line) : nat := pickVictimLRU lines.

(** [text.split(/\r?\n/).map(l => l.trim()).filter(l => l.length > 0)] *)
Definition addrLines (text : string) : list string :=
  filter (fun l => isEmpty l = false) (trimmedLines text).

Definition parseAddresses (text : string) : completion (list Z) :=
  mapM parseHexToBigInt (addrLines text).

Definition initCache (numSets assoc : Z) : list (list line) :=
  replicate (Z.to_nat numSets) (replicate (Z.to_nat assoc) (Line false 0 0)).

(** [ctx.state]: the fields read by [compute]; a field may be undefined. *)
Record state := State {
  s_addrBits : option string;
  s_cacheSize : option string;
  s_blockSize : option string;
  s_assoc : option string;
  s_addresses : option string
}.

Record config := Config {
  addrBits : Z; cacheSize : Z; blockSize : Z; assoc : Z
}.

Record derived := Derived {
  numBlocks : Z; numSets : Z; offsetBits : Z; indexBits : Z; tagBits : Z
}.

Inductive outcome := HIT | MISS.

(** What one line of the [Accesses:] report is printed from. *)
Record access := Access {
  a_addr : Z; a_tag : Z; a_index : Z; a_offset : Z;
  a_result : outcome; a_set : nat; a_way : nat;
  a_evicted : option Z
}.

(** The variables of the simulation loop. *)
Record sim := Sim {
  sets : list (list line); time : Z; hits : Z; misses : Z;
  lines : list access
}.

Record output := Output {
  o_config : config; o_derived : derived;
  o_lines : list access; o_hits : Z; o_misses : Z; o_hitRate : PrimFloat.float;
  o_sets : list (list line)
}.

Definition readConfig (s : state) : completion config :=
  addrBits ← parseIntStrict (orDefault (s_addrBits s) "32") "addrBits";
  cacheSize ← parseIntStrict (orDefault (s_cacheSize s) "1024") "cacheSize";
  blockSize ← parseIntStrict (orDefault (s_blockSize s) "16") "blockSize";
  assoc ← parseIntStrict (orDefault (s_assoc s) "1") "associativity";
  Normal (Config addrBits cacheSize blockSize assoc).

(** The validation and the derived widths, in the order of [compute].
    The two [Number] divisions are exact, by the remainder tests before
    them. *)
Definition derive (c : config) : completion derived :=
  _ ← throwIf ((addrBits c <=? 0) || (addrBits c >? 64)) "addrBits must be between 1 and 64.";
  _ ← throwIf (cacheSize c <=? 0) "cacheSize must be > 0";
  _ ← throwIf (blockSize c <=? 0) "blockSize must be > 0";
  _ ← throwIf (assoc c <=? 0) "associativity must be > 0";
  _ ← throwIf (negb (isPowerOfTwo (blockSize c))) "blockSize must be a power of two";
  _ ← throwIf (negb (Z.rem (cacheSize c) (blockSize c) =? 0)) "cacheSize must be divisible by blockSize";
  let numBlocks := cacheSize c / blockSize c in
  _ ← throwIf (negb (Z.rem numBlocks (assoc c) =? 0)) "blocks must be divisible by associativity";
  let numSets := numBlocks / assoc c in
  _ ← throwIf (negb (isPowerOfTwo numSets))
        ("Number of sets (" +:+ showNumber numSets +:+ ") is not a power of two. Check your parameters.");
  offsetBits ← log2IntPow2 (blockSize c);
  indexBits ← (if numSets =? 1 then Normal 0 else log2IntPow2 numSets);
  let tagBits := addrBits c - offsetBits - indexBits in
  _ ← throwIf (tagBits <? 0) "Invalid bit split: tagBits became negative.";
  Normal (Derived numBlocks numSets offsetBits indexBits tagBits).

(** The three fields of the clamped address [a], as the loop extracts
    them. *)
Definition offsetOf (offsetBits : Z) (a : Z) : Z := Z.land a (maskBits offsetBits).
Definition indexOf (offsetBits indexBits : Z) (a : Z) : Z :=
  if indexBits =? 0 then 0
  else Z.land (Z.shiftr a offsetBits) (maskBits indexBits).
Definition tagOf (offsetBits indexBits : Z) (a : Z) : Z :=
  Z.shiftr a (offsetBits + indexBits).

(** One iteration of the simulation loop on the clamped address [a]. *)
Definition step (d : derived) (st : sim) (a : Z) : completion sim :=
  let time := time st + 1 in
  let offset := offsetOf (offsetBits d) a in
  let index := indexOf (offsetBits d) (indexBits d) a in
  let tag := tagOf (offsetBits d) (indexBits d) a in
  let setIdx := Z.to_nat index in
  match sets st !! setIdx with
  | None => Throw typeError
  | Some setLines =>
      match findHit tag setLines with
      | Some hitWay =>
          match setLines !! hitWay with
          | None => Throw typeError
          | Some ln =>
              let setLines' := <[hitWay := Line (valid ln) (Cache.tag ln) time]> setLines in
              Normal (Sim (<[setIdx := setLines']> (sets st)) time (hits st + 1) (misses st)
                        (lines st ++ [Access a tag index offset HIT setIdx hitWay None]))
          end
      | None =>
          let victim := pickVictimLRU setLines in
          match setLines !! victim with
          | None => Throw typeError
          | Some v =>
              let evicted := if valid v then Some (Cache.tag v) else None in
              let setLines' := <[victim := Line true tag time]> setLines in
              Normal (Sim (<[setIdx := setLines']> (sets st)) time (hits st) (misses st + 1)
                        (lines st ++ [Access a tag index offset MISS setIdx victim evicted]))
          end
      end
  end.

(** [for (let i = 0; i < clampedAddrs.length; i++) { ... }] *)
Fixpoint simulate (d : derived) (st : sim) (addrs : list Z) : completion sim :=
  match addrs with
  | [] => Normal st
  | a :: rest => st' ← step d st a; simulate d st' rest
  end.

(** [total === 0 ? 0 : (hits / total) * 100], a percentage: the division
    and the product are those of binary64 floating point. *)
Definition hitRate (hits misses : Z) : PrimFloat.float :=
  let total := hits + misses in
  if total =? 0 then toDouble 0
  else PrimFloat.mul (PrimFloat.div (toDouble hits) (toDouble total)) (toDouble 100).

Definition run (c : config) (addressText : string) : completion output :=
  d ← derive c;
  addrs ← parseAddresses addressText;
  _ ← throwIf (length addrs =? 0)%nat "Provide at least one address.";
  let clampedAddrs := (fun a => clampBigIntToBits a (addrBits c)) <$> addrs in
  st ← simulate d (Sim (initCache (numSets d) (assoc c)) 0 0 0 []) clampedAddrs;
  Normal (Output c d (lines st) (hits st) (misses st)
            (hitRate (hits st) (misses st)) (sets st)).

Definition compute (s : state) : completion output :=
  c ← readConfig s;
  run c (orDefault (s_addresses s) "").

(** The masks printed under [Masks:]. *)
Definition tagMask (d : derived) : Z :=
  Z.shiftl (maskBits (tagBits d)) (indexBits d + offsetBits d).
Definition indexMask (d : derived) : Z :=
  Z.shiftl (maskBits (indexBits d)) (offsetBits d).
Definition offsetMask (d : derived) : Z := maskBits (offsetBits d).

(** The three parts of the line [bin: tag | index | offset] printed for
    the address [a] when [showBinary] is set. *)
Definition binFields (addrBits tagBits indexBits offsetBits : Z) (a : Z)
  : string * string * string :=
  let bin := toBin a (Some addrBits) in
  let t := if 0 <? tagBits then sliceRange 0 (Z.to_nat tagBits) bin else "" in
  let ix := if 0 <? indexBits
            then sliceRange (Z.to_nat tagBits) (Z.to_nat (tagBits + indexBits)) bin else "" in
  let off := if 0 <? offsetBits then slice (Z.to_nat (tagBits + indexBits)) bin else "" in
  (t, ix, off).

(** [fmtSetStateLRU(setIdx)], on the store [sets] of the run. *)
Definition fmtSetStateLRU (sets : list (list line)) (setIdx : nat) : completion string :=
  match sets !! setIdx with
  | None => Throw typeError
  | Some setLines =>
      Normal (String.concat ", " ((fun ln => toHex (tag ln) 0) <$> mruOrder setLines))
  end.

End Cache.

(** ** [modules/vm.js] *)

Module Vm.
Import Js Bit.

(** A page-table value [{ ppn, flags }]. *)
Record entry := Entry { e_ppn : Z; e_flags : string }.

Record line := Line {
  valid : bool; tag : Z; ppn : Z; flags : string; lastUsed : Z
}.

Global Instance line_lru : LruLine line :=
  {| line_valid := valid; line_tag := tag; line_lastUsed := lastUsed |}.

Definition pickVictimLRU (lines : list line) : nat := pickVictimLRU lines.

Definition parseNumToBigInt (s : string) (name : string) : completion Z :=
  let t := trim s in
  if isEmpty t then Throw ("Missing " +:+ name) else
  let hexShape := isPrefixedHexLiteral t || isHexLiteral t in
  let isHex := startsWith "0x" (toLowerCase t) || anyChar isHexLetter t in
  if hexShape && isHex then parseHexToBigInt t
  else if negb (isDecimalLiteral t)
  then Throw ("Invalid " +:+ name +:+ ": " +:+ dquote +:+ s +:+ dquote)
  else Normal (decValue t).

(** [None] stands for [null]. *)
Definition parseOptionalNumToBigInt (s : string) : completion (option Z) :=
  let t := trim s in
  if isEmpty t then Normal None
  else n ← parseNumToBigInt t "number"; Normal (Some n).

(** The body of the loop of [parseMappings] on one line. *)
Definition parseMappingLine (map : gmap Z entry) (line : string)
  : completion (gmap Z entry) :=
  let cleaned := collapseSpaces (replaceArrows
                   (mapChars (fun c => if charEq c "," then " "%char else c) line)) in
  let parts := filter (fun x => isEmpty x = false) (splitSpaces cleaned) in
  match parts with
  | p0 :: p1 :: rest =>
      vpn ← parseNumToBigInt p0 "VPN";
      ppn ← parseNumToBigInt p1 "PPN";
      let flags := toUpperCase (String.concat "" rest) in
      Normal (<[vpn := Entry ppn flags]> map)
  | _ => Normal map
  end.

Fixpoint foldM {A B : Type} (f : A -> B -> completion A) (a : A) (xs : list B)
  : completion A :=
  match xs with
  | [] => Normal a
  | x :: xs' => a' ← f a x; foldM f a' xs'
  end.

Definition parseMappings (text : string) : completion (gmap Z entry) :=
  let lines := filter (fun l => isEmpty l = false /\ startsWith "#" l = false)
                 (trimmedLines text) in
  foldM parseMappingLine ∅ lines.

(** A row of the initial page-table form; an undefined field is [""]. *)
Record ptRow := PtRow { r_vpn : string; r_ppn : string; r_flags : string }.

(** A row of the initial TLB form; an undefined field is [""]. *)
Record tlbRow := TlbRow {
  t_set : string; t_way : string; t_tag : string; t_ppn : string;
  t_flags : string; t_lastUsed : string
}.

Definition applyPtInitRow (pageTableMap : gmap Z entry) (r : ptRow)
  : completion (gmap Z entry) :=
  vpn ← parseOptionalNumToBigInt (r_vpn r);
  ppn ← parseOptionalNumToBigInt (r_ppn r);
  match vpn, ppn with
  | Some vpn, Some ppn =>
      let flags := toUpperCase (trim (r_flags r)) in
      Normal (<[vpn := Entry ppn flags]> pageTableMap)
  | _, _ => Normal pageTableMap
  end.

Definition applyPtInitRows (pageTableMap : gmap Z entry) (rows : list ptRow)
  : completion (gmap Z entry) :=
  foldM applyPtInitRow pageTableMap rows.

Definition initTLB (numSets assoc : Z) : list (list line) :=
  replicate (Z.to_nat numSets) (replicate (Z.to_nat assoc) (Line false 0 0 "" 0)).

(** The body of the loop of [applyTlbInitRows]; the state is the seeded
    table and the counter [t]. *)
Definition applyTlbInitRow (acc : list (list line) * Z) (r : tlbRow)
  : completion (list (list line) * Z) :=
  let '(tlbSets, t) := acc in
  let setStr := trim (t_set r) in
  let wayStr := trim (t_way r) in
  tag ← parseOptionalNumToBigInt (t_tag r);
  ppn ← parseOptionalNumToBigInt (t_ppn r);
  match tag, ppn with
  | Some tag, Some ppn =>
      if isEmpty setStr || isEmpty wayStr then Normal acc else
      match parseInt10 setStr, parseInt10 wayStr with
      | Some setIdx, Some wayIdx =>
          if (setIdx <? 0) || (Z.of_nat (length tlbSets) <=? setIdx) then Normal acc else
          match tlbSets !! Z.to_nat setIdx with
          | None => Normal acc
          | Some setLines =>
              if (wayIdx <? 0) || (Z.of_nat (length setLines) <=? wayIdx) then Normal acc else
              let flags := toUpperCase (trim (t_flags r)) in
              let '(lastUsed, t) :=
                match parseInt10 (trim (t_lastUsed r)) with
                | Some n => (n, t)
                | None => (t + 1, t + 1)
                end in
              Normal (<[Z.to_nat setIdx :=
                         <[Z.to_nat wayIdx := Line true tag ppn flags lastUsed]> setLines]> tlbSets,
                      t)
          end
      | _, _ => Normal acc
      end
  | _, _ => Normal acc
  end.

Definition applyTlbInitRows (tlbSets : list (list line)) (rows : list tlbRow)
    (timeBase : Z) : completion (list (list line)) :=
  r ← foldM applyTlbInitRow (tlbSets, timeBase) rows; Normal r.1.

(** [ctx.state]: the fields read by [compute]. *)
Record state := State {
  s_vaBits : option string;
  s_paBits : option string;
  s_pageSize : option string;
  s_addresses : option string;
  s_mappings : option string;
  s_enableTLB : bool;
  s_tlbEntries : option string;
  s_tlbAssoc : option string;
  s_ptInitRows : list ptRow;
  s_tlbInitRows : list tlbRow
}.

(** The constants of the simulation loop. *)
Record params := Params {
  vaBits : Z; paBits : Z; pageSize : Z; offsetBits : Z; vpnBits : Z;
  enableTLB : bool;
  tlbEntries : Z; tlbAssoc : Z; tlbIndexBits : Z; tlbTagBits : Z
}.

(** The TLB columns of a report line: index, tag, hit or miss. *)
Record tlbInfo := TlbInfo { i_idx : Z; i_tag : Z; i_hit : bool }.

(** What one line of the [Accesses:] report is printed from; [r_pa = None]
    is the text of a page fault. *)
Record access := Access {
  r_va : Z; r_vpnOf : Z; r_offset : Z;
  r_tlb : option tlbInfo;
  r_ppnOf : option Z; r_flagsOf : string;
  r_pa : option Z
}.

(** The variables of the simulation loop, with the page table and the
    TLB it reads and writes; [tlbSets] is [[]] for [null]. *)
Record sim := Sim {
  pageTable : gmap Z entry;
  tlbSets : list (list line);
  time : Z;
  tlbHits : Z; tlbMisses : Z; ptHits : Z; ptMisses : Z;
  outLines : list access
}.

Record output := Output {
  o_params : params;
  o_lines : list access;
  o_tlbHits : Z; o_tlbMisses : Z; o_ptHits : Z; o_ptMisses : Z;
  o_pageTable : gmap Z entry;
  o_tlbSets : list (list line)
}.

(** The local variables after the [if (enableTLB) { ... }] block of an
    iteration. *)
Record lookup := Lookup {
  l_tlbHit : bool; l_tlbSetIdx : nat; l_tlbTag : Z;
  l_ppn : option Z; l_flags : string;
  l_tlbSets : list (list line); l_tlbHits : Z; l_tlbMisses : Z
}.

Definition tlbIndexOf (p : params) (vpn : Z) : Z :=
  if tlbIndexBits p =? 0 then 0 else Z.land vpn (maskBits (tlbIndexBits p)).

Definition tlbLookup (p : params) (st : sim) (time : Z) (vpn : Z) : completion lookup :=
  if enableTLB p then
    let tlbSetIdx := Z.to_nat (tlbIndexOf p vpn) in
    let tlbTag := Z.shiftr vpn (tlbIndexBits p) in
    match tlbSets st !! tlbSetIdx with
    | None => Throw typeError
    | Some setLines =>
        match findHit tlbTag setLines with
        | Some hitWay =>
            match setLines !! hitWay with
            | None => Throw typeError
            | Some ln =>
                let ln' := Line (valid ln) (tag ln) (ppn ln) (flags ln) time in
                Normal (Lookup true tlbSetIdx tlbTag (Some (ppn ln)) (flags ln)
                          (<[tlbSetIdx := <[hitWay := ln']> setLines]> (tlbSets st))
                          (tlbHits st + 1) (tlbMisses st))
            end
        | None =>
            Normal (Lookup false tlbSetIdx tlbTag None "" (tlbSets st)
                      (tlbHits st) (tlbMisses st + 1))
        end
    end
  else Normal (Lookup false 0 0 None "" (tlbSets st) (tlbHits st) (tlbMisses st)).

(** [(ppn << offsetBits) | offset], clamped to [paBits]. *)
Definition physicalAddress (p : params) (ppn offset : Z) : Z :=
  clampBigIntToBits (Z.lor (Z.shiftl ppn (offsetBits p)) offset) (paBits p).

(** One iteration of the simulation loop on the clamped address [va]. *)
Definition step (p : params) (st : sim) (va : Z) : completion sim :=
  let time := time st + 1 in
  let offset := Z.land va (maskBits (offsetBits p)) in
  let vpn := Z.shiftr va (offsetBits p) in
  l ← tlbLookup p st time vpn;
  let info := if enableTLB p
              then Some (TlbInfo (tlbIndexOf p vpn) (l_tlbTag l) (l_tlbHit l)) else None in
  let finish (ppn : option Z) (flags : string) (tlbSets : list (list line))
             (ptHits ptMisses : Z) : sim :=
    let pa := (fun ppn => physicalAddress p ppn offset) <$> ppn in
    Sim (pageTable st) tlbSets time (l_tlbHits l) (l_tlbMisses l) ptHits ptMisses
        (outLines st ++ [Access va vpn offset info ppn flags pa]) in
  if l_tlbHit l then
    Normal (finish (l_ppn l) (l_flags l) (l_tlbSets l) (ptHits st) (ptMisses st))
  else
    match pageTable st !! vpn with
    | None =>
        Normal (finish (l_ppn l) (l_flags l) (l_tlbSets l) (ptHits st) (ptMisses st + 1))
    | Some entry =>
        let ppn := e_ppn entry in
        let flags := e_flags entry in
        if enableTLB p then
          match l_tlbSets l !! l_tlbSetIdx l with
          | None => Throw typeError
          | Some setLines =>
              let victim := pickVictimLRU setLines in
              if (victim <? length setLines)%nat then
                let setLines' := <[victim := Line true (l_tlbTag l) ppn flags time]> setLines in
                Normal (finish (Some ppn) flags
                          (<[l_tlbSetIdx l := setLines']> (l_tlbSets l))
                          (ptHits st + 1) (ptMisses st))
              else Throw typeError
          end
        else Normal (finish (Some ppn) flags (l_tlbSets l) (ptHits st + 1) (ptMisses st))
    end.

(** [for (let i = 0; i < addrs.length; i++) { ... }] *)
Fixpoint simulate (p : params) (st : sim) (addrs : list Z) : completion sim :=
  match addrs with
  | [] => Normal st
  | va :: rest => st' ← step p st va; simulate p st' rest
  end.

(** The first validation block of [compute]. *)
Definition split (vaBits paBits pageSize : Z) : completion (Z * Z) :=
  _ ← throwIf ((vaBits <=? 0) || (vaBits >? 64)) "vaBits must be between 1 and 64.";
  _ ← throwIf ((paBits <=? 0) || (paBits >? 64)) "paBits must be between 1 and 64.";
  _ ← throwIf (negb (isPowerOfTwo pageSize)) "pageSize must be a power of two.";
  offsetBits ← log2IntPow2 pageSize;
  let vpnBits := vaBits - offsetBits in
  _ ← throwIf (vpnBits <=? 0) "Invalid split: vpnBits <= 0 (pageSize too large for VA).";
  Normal (offsetBits, vpnBits).

(** The [if (enableTLB) { ... }] block that sizes and seeds the TLB; the
    [Number] division is exact, by the remainder test before it. *)
Definition setupTLB (s : state) (vpnBits : Z)
  : completion (Z * Z * Z * Z * list (list line)) :=
  tlbEntries ← parseIntStrict (orDefault (s_tlbEntries s) "16") "tlbEntries";
  tlbAssoc ← parseIntStrict (orDefault (s_tlbAssoc s) "4") "tlbAssoc";
  _ ← throwIf (tlbEntries <=? 0) "tlbEntries must be > 0";
  _ ← throwIf (tlbAssoc <=? 0) "tlbAssoc must be > 0";
  _ ← throwIf (negb (Z.rem tlbEntries tlbAssoc =? 0)) "TLB entries must be divisible by associativity";
  let numSets := tlbEntries / tlbAssoc in
  _ ← throwIf (negb (isPowerOfTwo numSets)) "TLB number of sets must be a power of two";
  tlbIndexBits ← (if numSets =? 1 then Normal 0 else log2IntPow2 numSets);
  let tlbTagBits := vpnBits - tlbIndexBits in
  _ ← throwIf (tlbTagBits <? 0) "Invalid TLB split: tlbTagBits < 0";
  tlbSets ← applyTlbInitRows (initTLB numSets tlbAssoc) (s_tlbInitRows s) 0;
  Normal (tlbEntries, tlbAssoc, tlbIndexBits, tlbTagBits, tlbSets).

Record config := Config { c_vaBits : Z; c_paBits : Z; c_pageSize : Z }.

Definition readConfig (s : state) : completion config :=
  vaBits ← parseIntStrict (orDefault (s_vaBits s) "32") "vaBits";
  paBits ← parseIntStrict (orDefault (s_paBits s) "32") "paBits";
  pageSize ← parseIntStrict (orDefault (s_pageSize s) "4096") "pageSize";
  Normal (Config vaBits paBits pageSize).

(** [s.addresses.split(/\r?\n/).map(x => x.trim()).filter(x => x.length > 0)] *)
Definition addrLines (text : string) : list string :=
  filter (fun x => isEmpty x = false) (trimmedLines text).

(** [compute] after the three configuration numbers are read. *)
Definition run (c : config) (s : state) : completion output :=
  '(offsetBits, vpnBits) ← split (c_vaBits c) (c_paBits c) (c_pageSize c);
  let addrLines := addrLines (orDefault (s_addresses s) "") in
  _ ← throwIf (length addrLines =? 0)%nat "Provide at least one virtual address.";
  parsed ← mapM parseHexToBigInt addrLines;
  let addrs := (fun a => clampBigIntToBits a (c_vaBits c)) <$> parsed in
  pageTable ← parseMappings (orDefault (s_mappings s) "");
  pageTable ← applyPtInitRows pageTable (s_ptInitRows s);
  '(tlbEntries, tlbAssoc, tlbIndexBits, tlbTagBits, tlbSets) ←
     (if s_enableTLB s then setupTLB s vpnBits else Normal (0, 1, 0, 0, []));
  let p := Params (c_vaBits c) (c_paBits c) (c_pageSize c) offsetBits vpnBits (s_enableTLB s)
             tlbEntries tlbAssoc tlbIndexBits tlbTagBits in
  st ← simulate p (Sim pageTable tlbSets 0 0 0 0 0 []) addrs;
  Normal (Output p (outLines st) (tlbHits st) (tlbMisses st) (ptHits st) (ptMisses st)
            (Vm.pageTable st) (Vm.tlbSets st)).

Definition compute (s : state) : completion output :=
  c ← readConfig s;
  run c s.

(** The two parts of the line [VA bin: vpn | offset] printed for the
    address [va] when [showBinary] is set, and the two parts of the line
    [VPN bin: tag | index] printed for its page [vpn]. *)
Definition binFields (vaBits vpnBits : Z) (va : Z) : string * string :=
  let binVA := toBin va (Some vaBits) in
  (sliceRange 0 (Z.to_nat vpnBits) binVA, slice (Z.to_nat vpnBits) binVA).

Definition binTlbFields (vpnBits tlbTagBits : Z) (vpn : Z) : string * string :=
  let vpnBinFull := toBin vpn (Some vpnBits) in
  (sliceRange 0 (Z.to_nat tlbTagBits) vpnBinFull, slice (Z.to_nat tlbTagBits) vpnBinFull).

(** [fmtTlbTagsMRU(setLines)] *)
Definition fmtTlbTagsMRU (setLines : list line) : string :=
  String.concat ", " ((fun x => toHex (tag x) 0) <$> mruOrder setLines).

(** The number of rows of the two initial tables in [render]:
    [Number.parseInt((s.initRowsN ?? "12").toString(), 10)], 12 when that is
    not a number, else [Math.max(12, Math.min(16, n))]. *)
Definition initRowsN (stored : option string) : Z :=
  match parseInt10 (orDefault stored "12") with
  | None => 12
  | Some n => Z.max 12 (Z.min 16 n)
  end.

End Vm.

(** ** [lib/utils.js] and the module search of [app.js] *)

Module Utils.
Import Js.

(** [(str ?? "").toString().trim().toLowerCase()]; [None] stands for an
    undefined argument. *)
Definition normalize (str : option string) : string :=
  toLowerCase (trim (orDefault str "")).

End Utils.

Module App.
Import Js Utils.

(** The fields of a module that the navigation reads; [tags] may be
    undefined. *)
Record navModule := NavModule { m_title : string; m_tags : option (list string) }.

(** The test of [modules.filter(m => ...)] in [renderNav]:
    [if (!q) return true;
     const hay = [m.title, ...(m.tags || [])].map(normalize).join(" ");
     return hay.includes(q);] *)
Definition navMatches (q : string) (m : navModule) : bool :=
  if isEmpty q then true else
  let hay := String.concat " "
               ((fun x => normalize (Some x)) <$> (m_title m :: default [] (m_tags m))) in
  includes hay q.

(** The modules listed by [renderNav(filterText)]. *)
Definition renderNav (modules : list navModule) (filterText : string) : list navModule :=
  let q := normalize (Some filterText) in
  filter (fun m => navMatches q m = true) modules.

End App.

(** ** Vocabulary of the statements *)

Module Spec.
Import Js Bit.

(** The string on which [parseHexToBigInt] runs its test of the digits,
    with the strippings in the order of the code: trimmed and lower-cased,
    underscores and white space removed, then a leading [0x] removed. *)
Definition hexBody (input : string) : string :=
  let s := toLowerCase (trim input) in
  let s := removeChars isSpace
             (removeChars (charEq "_") s) in
  if startsWith "0x" s then slice 2 s else s.



(** A text of ASCII characters only. *)
Definition asciiText (s : string) : bool := allChars (inRange 0 127) s.

(** The message of the error raised on the literal [tok]. *)
Definition invalidHex (tok : string) : string :=
  "Invalid hex address: " +:+ dquote +:+ tok +:+ dquote.

(** The victim is the first invalid line. *)
Definition firstInvalid {L} `{LruLine L} (lines : list L) (r : nat) : Prop :=
  exists x, lines !! r = Some x /\ line_valid x = false /\
    forall j y, (j < r)%nat -> lines !! j = Some y -> line_valid y = true.

(** The victim has the least [lastUsed], and is the first line that has
    it. *)
Definition firstLeastRecent {L} `{LruLine L} (lines : list L) (r : nat) : Prop :=
  exists x, lines !! r = Some x /\
    (forall j y, lines !! j = Some y -> line_lastUsed x <= line_lastUsed y) /\
    (forall j y, (j < r)%nat -> lines !! j = Some y -> line_lastUsed x < line_lastUsed y).

(** The least recently used line among the first [k + 1] lines. *)
Definition leastRecentUpTo {L} `{LruLine L} (lines : list L) (k r : nat) : Prop :=
  exists x, lines !! r = Some x /\ (r <= k)%nat /\
    (forall j y, (j <= k)%nat -> lines !! j = Some y -> line_lastUsed x <= line_lastUsed y) /\
    (forall j y, (j < r)%nat -> lines !! j = Some y -> line_lastUsed x < line_lastUsed y).

Definition victimSpec {L} `{LruLine L} (lines : list L) (r : nat) : Prop :=
  (Exists (fun x => line_valid x = false) lines -> firstInvalid lines r) /\
  (Forall (fun x => line_valid x = true) lines -> firstLeastRecent lines r).

(** No two valid lines of a cache set hold the same tag. *)
Definition uniqueTags (setLines : list Cache.line) : Prop :=
  forall i j x y,
    setLines !! i = Some x -> setLines !! j = Some y ->
    Cache.valid x = true -> Cache.valid y = true ->
    Cache.tag x = Cache.tag y -> i = j.

(** A store of [n] sets, none of them empty. *)
Definition wellFormed {L : Type} (n : Z) (sets : list (list L)) : Prop :=
  Z.of_nat (length sets) = n /\ Forall (fun s => s <> []) sets.

Definition isHit (r : Cache.access) : bool :=
  match Cache.a_result r with Cache.HIT => true | Cache.MISS => false end.

Definition countHits (lines : list Cache.access) : Z :=
  Z.of_nat (length (filter (fun r => isHit r = true) lines)).
Definition countMisses (lines : list Cache.access) : Z :=
  Z.of_nat (length (filter (fun r => isHit r = false) lines)).

(** The counters of the cache loop agree with the records written so
    far. *)
Definition countersAgree (st : Cache.sim) : Prop :=
  Cache.hits st = countHits (Cache.lines st) /\
  Cache.misses st = countMisses (Cache.lines st).

(** The physical address of a record is the one of its page number:
    [clampBigIntToBits((ppn << offsetBits) | offset, paBits)] when the
    access has a page number, none when it has not. *)
Definition paMatches (p : Vm.params) (r : Vm.access) : Prop :=
  Vm.r_pa r =
  (fun ppn => clampBigIntToBits (Z.lor (Z.shiftl ppn (Vm.offsetBits p)) (Vm.r_offset r))
                (Vm.paBits p)) <$> Vm.r_ppnOf r.

(** The access to page [vpn] does not hit in the TLB: the TLB is off, or
    the lookup loop finds no valid line with the tag in the set. *)
Definition tlbMissOn (p : Vm.params) (st : Vm.sim) (vpn : Z) : Prop :=
  Vm.enableTLB p = false \/
  exists setLines,
    Vm.tlbSets st !! Z.to_nat (Vm.tlbIndexOf p vpn) = Some setLines /\
    findHit (Z.shiftr vpn (Vm.tlbIndexBits p)) setLines = None.

(** Every valid TLB line holds the tag of a page of the page table that
    maps to the set of the line. *)
Definition tlbBacked (p : Vm.params) (pt : gmap Z Vm.entry) (tlb : list (list Vm.line)) : Prop :=
  forall i setLines w ln,
    tlb !! i = Some setLines -> setLines !! w = Some ln -> Vm.valid ln = true ->
    exists vpn e,
      pt !! vpn = Some e /\
      Z.to_nat (Vm.tlbIndexOf p vpn) = i /\
      Z.shiftr vpn (Vm.tlbIndexBits p) = Vm.tag ln.

(** A record of a page fault: no page number, no physical address. *)
Definition isFault (r : Vm.access) : Prop :=
  Vm.r_ppnOf r = None /\ Vm.r_pa r = None.

Definition countFaults (lines : list Vm.access) : Z :=
  Z.of_nat (length (filter (fun r => Vm.r_ppnOf r = None) lines)).

(** No line of the cache has a time stamp later than the clock. *)
Definition stampsBounded (st : Cache.sim) : Prop :=
  Forall (Forall (fun l => Cache.lastUsed l <= Cache.time st)) (Cache.sets st).

(** A list of lines in order of decreasing [lastUsed]. *)
Definition byRecency {L : Type} `{LruLine L} (lines : list L) : Prop :=
  forall i j x y, (i < j)%nat -> lines !! i = Some x -> lines !! j = Some y ->
    line_lastUsed y <= line_lastUsed x.

(** A record of an access that hit in the TLB. *)
Definition isTlbHit (r : Vm.access) : bool :=
  match Vm.r_tlb r with Some i => Vm.i_hit i | None => false end.

Definition countTlbHits (lines : list Vm.access) : Z :=
  Z.of_nat (length (filter (fun r => isTlbHit r = true) lines)).

(** The counters of the translation loop after [n] accesses: with the TLB
    on, every access is a TLB hit or a TLB miss and the page table is read
    on the misses only; with the TLB off, the page table is read on every
    access. *)
Definition vmCounters (enabled : bool) (n tlbHits tlbMisses ptHits ptMisses : Z) : Prop :=
  0 <= tlbHits /\ 0 <= tlbMisses /\ 0 <= ptHits /\ 0 <= ptMisses /\
  if enabled
  then tlbHits + tlbMisses = n /\ ptHits + ptMisses = tlbMisses
  else tlbHits = 0 /\ tlbMisses = 0 /\ ptHits + ptMisses = n.

(** Every valid TLB line holds the page number and the flags that the
    page table gives to a page of its set and tag. *)
Definition tlbCoherent (p : Vm.params) (pt : gmap Z Vm.entry) (tlb : list (list Vm.line)) : Prop :=
  forall i setLines w ln,
    tlb !! i = Some setLines -> setLines !! w = Some ln -> Vm.valid ln = true ->
    exists vpn e,
      pt !! vpn = Some e /\
      Z.to_nat (Vm.tlbIndexOf p vpn) = i /\
      Z.shiftr vpn (Vm.tlbIndexBits p) = Vm.tag ln /\
      Vm.ppn ln = Vm.e_ppn e /\ Vm.flags ln = Vm.e_flags e.

(** The record reports what the page table holds for its page. *)
Definition agreesWithTable (pt : gmap Z Vm.entry) (r : Vm.access) : Prop :=
  Vm.r_ppnOf r = Vm.e_ppn <$> pt !! Vm.r_vpnOf r /\
  Vm.r_flagsOf r = default EmptyString (Vm.e_flags <$> pt !! Vm.r_vpnOf r).

(** The item [x] of a source of the page table (a line of the mappings
    text, a row of the initial table) writes the entry [e] of page [v]:
    whatever the table is, the body of the loop returns it with [v] set to
    [e]. *)
Definition writes {B : Type} (f : gmap Z Vm.entry -> B -> completion (gmap Z Vm.entry))
    (x : B) (v : Z) (e : Vm.entry) : Prop :=
  forall m, f m x = Normal (<[v := e]> m).

(** No item of [xs] writes page [v]. *)
Definition noWrite {B : Type} (f : gmap Z Vm.entry -> B -> completion (gmap Z Vm.entry))
    (xs : list B) (v : Z) : Prop :=
  forall x e, x ∈ xs -> ~ writes f x v e.

(** The last item of [xs] that writes page [v] writes the entry [e]. *)
Definition lastWrite {B : Type} (f : gmap Z Vm.entry -> B -> completion (gmap Z Vm.entry))
    (xs : list B) (v : Z) (e : Vm.entry) : Prop :=
  exists pre x post, xs = pre ++ x :: post /\ writes f x v e /\ noWrite f post v.

(** The lines that [parseMappings] reads: trimmed, neither blank nor a
    comment. *)
Definition mappingLines (text : string) : list string :=
  filter (fun l => isEmpty l = false /\ startsWith "#" l = false) (trimmedLines text).

(** The line at way [w] of set [i]. *)
Definition lineAt {L : Type} (sets : list (list L)) (i w : nat) : option L :=
  sets !! i ≫= fun setLines => setLines !! w.

(** The seed row leaves the time stamp to the counter: its [lastUsed]
    field is not a number. *)
Definition autoStamped (r : Vm.tlbRow) : Prop :=
  parseInt10 (trim (Vm.t_lastUsed r)) = None.

(** The invariant of the seeding loop when every row is stamped by the
    counter: the valid lines carry distinct stamps, all after the base and
    none after the counter. *)
Definition stampsDistinct (t0 : Z) (acc : list (list Vm.line) * Z) : Prop :=
  t0 <= acc.2 /\
  (forall i w ln, lineAt acc.1 i w = Some ln -> Vm.valid ln = true ->
                  t0 < Vm.lastUsed ln <= acc.2) /\
  (forall i w i' w' ln ln',
     lineAt acc.1 i w = Some ln -> lineAt acc.1 i' w' = Some ln' ->
     Vm.valid ln = true -> Vm.valid ln' = true -> Vm.lastUsed ln = Vm.lastUsed ln' ->
     i = i' /\ w = w').

(** The grammar of a mapping line.  A word is made of printable ASCII
    characters other than the comma and the head [>] of an arrow. *)
Definition isWordChar (c : ascii) : bool :=
  inRange 33 126 c && negb (charEq c ",") && negb (charEq c ">").
Definition isWord (w : string) : bool := negb (isEmpty w) && allChars isWordChar w.

(** A separator is a run of white space, commas and arrows [->]. *)
Fixpoint isSepBody (s : string) : bool :=
  match s with
  | EmptyString => true
  | String c s' =>
      if isSpace c || charEq c "," then isSepBody s'
      else if charEq c "-" then
        match s' with
        | String c2 s'' => charEq c2 ">" && isSepBody s''
        | EmptyString => false
        end
      else false
  end.
Definition isSeparator (s : string) : bool := negb (isEmpty s) && isSepBody s.

(** The line [w sep1 w1 sep2 w2 ...]. *)
Fixpoint mappingLine (w : string) (rest : list (string * string)) : string :=
  match rest with
  | [] => w
  | (sep, w') :: rest' => w +:+ sep +:+ mappingLine w' rest'
  end.

(** A line of a text holds no line feed. *)
Definition isLine (l : string) : bool := allChars (fun c => negb (charEq c "010")) l.

(** The two line ends that [split(/\r?\n/)] reads: LF and CR LF. *)
Definition isLineEnd (eol : string) : Prop :=
  eol = newline \/ eol = String "013" newline.

(** The text of the lines [first :: (snd <$> rest)], each line of [rest]
    after its line end. *)
Fixpoint textOfLines (first : string) (rest : list (string * string)) : string :=
  match rest with
  | [] => first
  | (eol, l) :: rest' => first +:+ eol +:+ textOfLines l rest'
  end.

End Spec.

(** * Properties *)

(** ** The embedding on small inputs *)

Example parseHex_plain_10 : Bit.parseHexToBigInt "10" = Normal 16.
Proof. reflexivity. Qed.

Example parseHex_separators : Bit.parseHexToBigInt " 0X00_1a " = Normal 26.
Proof. reflexivity. Qed.

Example parseHex_bad_digit :
  Bit.parseHexToBigInt "0x1g" = Throw ("Invalid hex address: " +:+ Js.dquote +:+ "0x1g" +:+ Js.dquote).
Proof. reflexivity. Qed.

Example parseHex_blank : Bit.parseHexToBigInt "   " = Throw "Address is empty".
Proof. reflexivity. Qed.

Example toHex_padded : Bit.toHex 40964 8 = "0x0000A004".
Proof. reflexivity. Qed.

Example toHex_zero : Bit.toHex 0 0 = "0x0".
Proof. reflexivity. Qed.

Example maskBits_12 : Bit.maskBits 12 = 0xFFF.
Proof. reflexivity. Qed.

Example isPowerOfTwo_small :
  (Bit.isPowerOfTwo <$> [0; 1; 2; 3; 4; 6; 4096; 2 ^ 40]) =
  [false; true; true; false; true; false; true; true].
Proof. reflexivity. Qed.

Example log2IntPow2_six : Bit.log2IntPow2 6 = Throw "Expected power of two, got 6".
Proof. reflexivity. Qed.

Example parseInt10_prefix : Js.parseInt10 " -12ab" = Some (-12).
Proof. reflexivity. Qed.

Example parseInt10_nan : Js.parseInt10 "x1" = None.
Proof. reflexivity. Qed.

Example splitLines_crlf :
  Js.splitLines ("a" +:+ String "013" (String "010" "b") +:+ Js.newline) = ["a"; "b"; ""].
Proof. reflexivity. Qed.

Example parseMappings_forms :
  Vm.parseMappings ("# VPN PPN" +:+ Js.newline +:+ "0x1 -> 0xA, r w" +:+ Js.newline +:+ "291 69")
  = Normal (<[291 := Vm.Entry 69 ""]> {[ 0x1 := Vm.Entry 0xA "RW" ]}).
Proof. vm_compute. reflexivity. Qed.

Example pickVictim_tie :
  Cache.pickVictimLRU [Cache.Line true 1 7; Cache.Line true 2 3; Cache.Line true 3 3] = 1%nat.
Proof. reflexivity. Qed.

(** Two blocks of the same set of a direct-mapped cache: the second
    evicts the first. *)
Example direct_mapped_eviction :
  exists out,
    Cache.run (Cache.Config 32 1024 16 1) ("0x0000" +:+ Js.newline +:+ "0x0400") = Normal out /\
    Cache.a_result <$> Cache.o_lines out = [Cache.MISS; Cache.MISS] /\
    Cache.a_evicted <$> Cache.o_lines out = [None; Some 0].
Proof. eexists. split; [vm_compute; reflexivity|]. split; reflexivity. Qed.

(** ** Bit fields *)

Section BitFacts.
Import Bit.

Lemma maskBits_ones (b : Z) : 0 <= b -> maskBits b = Z.ones b.
Proof.
  intros Hb. unfold maskBits.
  destruct (Z.leb_spec b 0) as [Hle|Hlt].
  - replace b with 0 by lia. reflexivity.
  - rewrite Z.shiftl_1_l, Z.ones_equiv. lia.
Qed.

Lemma maskBits_nonpos (b : Z) : b <= 0 -> maskBits b = 0.
Proof. intros Hb. unfold maskBits. destruct (Z.leb_spec b 0); [reflexivity|lia]. Qed.

Lemma testbit_maskBits (b n : Z) :
  0 <= b -> 0 <= n -> Z.testbit (maskBits b) n = (n <? b).
Proof.
  intros Hb Hn. rewrite maskBits_ones by assumption.
  destruct (Z.ltb_spec n b).
  - apply Z.ones_spec_low. lia.
  - apply Z.ones_spec_high. lia.
Qed.

Lemma land_maskBits_range (x b : Z) : 0 <= b -> 0 <= Z.land x (maskBits b) < 2 ^ b.
Proof.
  intros Hb. rewrite maskBits_ones, Z.land_ones by assumption.
  apply Z.mod_pos_bound. apply Z.pow_pos_nonneg; lia.
Qed.

Lemma clamp_mod (x bits : Z) : 0 < bits -> clampBigIntToBits x bits = x mod 2 ^ bits.
Proof.
  intros Hb. unfold clampBigIntToBits.
  destruct (Z.leb_spec bits 0); [lia|].
  rewrite maskBits_ones by lia. apply Z.land_ones. lia.
Qed.

Lemma ToInt32_small (n : Z) : - 2 ^ 31 <= n < 2 ^ 31 -> ToInt32 n = n.
Proof. intros Hn. unfold ToInt32. rewrite Z.mod_small; lia. Qed.

Lemma ToInt32_le (n : Z) : 0 <= n -> ToInt32 n <= n.
Proof.
  intros Hn. unfold ToInt32.
  pose proof (Z.mod_pos_bound (n + 2 ^ 31) (2 ^ 32) ltac:(lia)) as Hm.
  destruct (Z.lt_ge_cases n (2 ^ 31)).
  - rewrite Z.mod_small; lia.
  - lia.
Qed.

Lemma isPowerOfTwo_pos (n : Z) : isPowerOfTwo n = true -> 0 < n.
Proof. unfold isPowerOfTwo. intros [H _]%andb_true_iff. lia. Qed.

Lemma not_a_power_of_two : forall k : Z, 4294967297 <> 2 ^ k.
Proof.
  intros k Hk. destruct (Z.lt_trichotomy k 0) as [Hneg|[->|Hpos]].
  - rewrite Z.pow_neg_r in Hk by assumption. discriminate.
  - discriminate.
  - replace k with (Z.succ (k - 1)) in Hk by lia.
    rewrite Z.pow_succ_r in Hk by lia. lia.
Qed.
End BitFacts.

(** C2. Decomposition round trip: for a split into non-negative widths
    [tagBits + indexBits + offsetBits = addrBits] and an address clamped to
    [addrBits], the offset, index and tag extracted by the cache loop
    reassemble, by shifts and bitwise or, to the clamped address. *)
Theorem decomposition_roundtrip (addrBits tagBits indexBits offsetBits x : Z) :
  0 <= tagBits -> 0 <= indexBits -> 0 <= offsetBits ->
  tagBits + indexBits + offsetBits = addrBits ->
  let a := Bit.clampBigIntToBits x addrBits in
  let offset := Cache.offsetOf offsetBits a in
  let index := Cache.indexOf offsetBits indexBits a in
  let tag := Cache.tagOf offsetBits indexBits a in
  offset = Z.land a (Bit.maskBits offsetBits) /\
  index = Z.land (Z.shiftr a offsetBits) (Bit.maskBits indexBits) /\
  tag = Z.shiftr a (offsetBits + indexBits) /\
  Z.lor (Z.lor (Z.shiftl tag (indexBits + offsetBits)) (Z.shiftl index offsetBits)) offset = a.
Proof.
  intros Ht Hi Ho Hsum a offset index tag.
  assert (Hindex : index = Z.land (Z.shiftr a offsetBits) (Bit.maskBits indexBits)).
  { subst index. unfold Cache.indexOf. destruct (Z.eqb_spec indexBits 0) as [->|]; [|reflexivity].
    rewrite maskBits_nonpos by lia. now rewrite Z.land_0_r. }
  repeat split; try assumption.
  rewrite Hindex. subst offset tag. unfold Cache.offsetOf, Cache.tagOf.
  apply Z.bits_inj'. intros n Hn.
  rewrite !Z.lor_spec, !Z.shiftl_spec by assumption.
  assert (Hoff : Z.testbit (Z.land a (Bit.maskBits offsetBits)) n
                 = Z.testbit a n && (n <? offsetBits)).
  { now rewrite Z.land_spec, testbit_maskBits by assumption. }
  rewrite Hoff. clear Hoff.
  destruct (Z.ltb_spec n offsetBits) as [Hlo|Hhi].
  - rewrite (Z.testbit_neg_r _ (n - (indexBits + offsetBits))) by lia.
    rewrite (Z.testbit_neg_r _ (n - offsetBits)) by lia.
    simpl. now rewrite andb_true_r.
  - rewrite andb_false_r, orb_false_r.
    assert (Hidx : Z.testbit (Z.land (Z.shiftr a offsetBits) (Bit.maskBits indexBits))
                     (n - offsetBits) = Z.testbit a n && (n - offsetBits <? indexBits)).
    { rewrite Z.land_spec, (Z.shiftr_spec a offsetBits (n - offsetBits)),
        testbit_maskBits by lia.
      do 2 f_equal. lia. }
    rewrite Hidx. clear Hidx.
    destruct (Z.ltb_spec (n - offsetBits) indexBits) as [Hmid|Htop].
    + rewrite (Z.testbit_neg_r _ (n - (indexBits + offsetBits))) by lia.
      simpl. now rewrite andb_true_r.
    + rewrite andb_false_r, orb_false_r.
      rewrite Z.shiftr_spec by lia. f_equal. lia.
Qed.

Lemma decomposition_roundtrip_witness :
  let a := Bit.clampBigIntToBits 305419896 32 in
  Z.lor (Z.lor (Z.shiftl (Cache.tagOf 4 6 a) (6 + 4)) (Z.shiftl (Cache.indexOf 4 6 a) 4))
        (Cache.offsetOf 4 a) = a.
Proof.
  apply (decomposition_roundtrip 32 22 6 4 305419896); lia.
Defined.

(** ** Literals *)

Section ParserFacts.
Import Js Bit Spec.

Local Ltac by_cases_on_char c :=
  destruct c as [[] [] [] [] [] [] [] []]; vm_compute; try reflexivity; try discriminate; auto.

Lemma hexDigit_not_space c : isHexDigit c = true -> isSpace c = false.
Proof. by_cases_on_char c. Qed.

Lemma hexDigit_not_underscore c : isHexDigit c = true -> charEq "_" c = false.
Proof. by_cases_on_char c. Qed.

Lemma charEq_true a b : charEq a b = true <-> a = b.
Proof. unfold charEq. apply Ascii.eqb_eq. Qed.

Lemma hexDigit_not_x c : isHexDigit c = true -> c <> "x"%char.
Proof. intros H ->. vm_compute in H. discriminate. Qed.

Lemma isHexDigit_lowerChar c : isHexDigit (lowerChar c) = isHexDigit c.
Proof. by_cases_on_char c. Qed.

Lemma digitVal_lowerChar c : digitVal (lowerChar c) = digitVal c.
Proof. by_cases_on_char c. Qed.

Lemma digit_is_hexDigit c : isDigit c = true -> isHexDigit c = true.
Proof. unfold isHexDigit. now intros ->. Qed.

Lemma digit_not_hexLetter c : isDigit c = true -> isHexLetter c = false.
Proof. by_cases_on_char c. Qed.

Lemma allChars_impl (p q : ascii -> bool) s :
  (forall c, p c = true -> q c = true) -> allChars p s = true -> allChars q s = true.
Proof.
  intros Hpq. induction s as [|c s IH]; simpl; [reflexivity|].
  intros [Hc Hs]%andb_true_iff. rewrite (Hpq c Hc). simpl. auto.
Qed.

Lemma trimStart_hex s : allChars isHexDigit s = true -> trimStart s = s.
Proof.
  destruct s as [|c s]; simpl; [reflexivity|].
  intros [Hc _]%andb_true_iff. now rewrite hexDigit_not_space.
Qed.

Lemma trimEnd_hex s : allChars isHexDigit s = true -> trimEnd s = s.
Proof.
  induction s as [|c s IH]; simpl; [reflexivity|].
  intros [Hc Hs]%andb_true_iff. rewrite hexDigit_not_space by assumption.
  simpl. now rewrite IH.
Qed.

Lemma trim_hex s : allChars isHexDigit s = true -> trim s = s.
Proof. intros H. unfold trim. rewrite trimStart_hex by assumption. now apply trimEnd_hex. Qed.

Lemma allChars_hex_lower s :
  allChars isHexDigit (toLowerCase s) = allChars isHexDigit s.
Proof.
  induction s as [|c s IH]; simpl; [reflexivity|].
  now rewrite isHexDigit_lowerChar, IH.
Qed.

Lemma isEmpty_lower s : isEmpty (toLowerCase s) = isEmpty s.
Proof. now destruct s. Qed.

Lemma removeChars_none (p : ascii -> bool) s :
  (forall c, isHexDigit c = true -> p c = false) ->
  allChars isHexDigit s = true -> removeChars p s = s.
Proof.
  intros Hp. induction s as [|c s IH]; simpl; [reflexivity|].
  intros [Hc Hs]%andb_true_iff. rewrite (Hp c Hc). now rewrite IH.
Qed.

Lemma startsWith_0x_hex s : allChars isHexDigit s = true -> startsWith "0x" s = false.
Proof.
  destruct s as [|a [|b r]]; simpl; try reflexivity.
  - intros _. now destruct (charEq "0" a).
  - intros [_ [Hb _]%andb_true_iff]%andb_true_iff.
    destruct (charEq "0" a); [|reflexivity].
    destruct (charEq "x" b) eqn:E; [|reflexivity].
    apply charEq_true in E. subst b. discriminate.
Qed.

Lemma digitsValue_lower radix acc s :
  digitsValue radix acc (toLowerCase s) = digitsValue radix acc s.
Proof.
  revert acc.
  induction s as [|c s IH]; intros acc; simpl; [reflexivity|].
  now rewrite digitVal_lowerChar, IH.
Qed.

Lemma parseHexToBigInt_unfold input :
  parseHexToBigInt input =
  if isEmpty (toLowerCase (trim input)) then Throw "Address is empty"
  else if negb (isHexLiteral (hexBody input))
       then Throw (invalidHex input)
       else Normal (hexValue (hexBody input)).
Proof. reflexivity. Qed.

Lemma hexBody_plain h : allChars isHexDigit h = true -> hexBody h = toLowerCase h.
Proof.
  intros H. unfold hexBody. rewrite trim_hex by assumption.
  assert (Hl : allChars isHexDigit (toLowerCase h) = true) by now rewrite allChars_hex_lower.
  rewrite (removeChars_none _ _ hexDigit_not_underscore Hl).
  rewrite (removeChars_none _ _ hexDigit_not_space Hl).
  now rewrite startsWith_0x_hex.
Qed.

Lemma hexBody_prefixed (x : ascii) h :
  lowerChar x = "x"%char -> allChars isHexDigit h = true ->
  hexBody (String "0" (String x h)) = toLowerCase h.
Proof.
  intros Hx H. unfold hexBody.
  assert (Hl : allChars isHexDigit (toLowerCase h) = true) by now rewrite allChars_hex_lower.
  assert (Hsp : isSpace x = false).
  { destruct (isSpace x) eqn:E; [|reflexivity]. exfalso. revert Hx E. by_cases_on_char x. }
  assert (Htrim : trim (String "0" (String x h)) = String "0" (String x h)).
  { unfold trim. simpl. rewrite Hsp. simpl. now rewrite trimEnd_hex. }
  rewrite Htrim. simpl. rewrite Hx. simpl.
  rewrite (removeChars_none _ _ hexDigit_not_underscore Hl).
  now rewrite (removeChars_none _ _ hexDigit_not_space Hl).
Qed.

Lemma parseHex_plain h :
  isHexLiteral h = true -> parseHexToBigInt h = Normal (hexValue h).
Proof.
  intros [Hne Hall]%andb_true_iff. rewrite parseHexToBigInt_unfold.
  rewrite trim_hex, isEmpty_lower by assumption.
  rewrite hexBody_plain by assumption.
  destruct (isEmpty h) eqn:E; [discriminate|].
  unfold isHexLiteral. rewrite isEmpty_lower, allChars_hex_lower, Hall, E. simpl.
  unfold hexValue. now rewrite digitsValue_lower.
Qed.

Lemma parseHex_prefixed (x : ascii) h :
  lowerChar x = "x"%char -> isHexLiteral h = true ->
  parseHexToBigInt (String "0" (String x h)) = Normal (hexValue h).
Proof.
  intros Hx [Hne Hall]%andb_true_iff. rewrite parseHexToBigInt_unfold.
  rewrite hexBody_prefixed by assumption.
  assert (Hsp : isSpace x = false).
  { destruct (isSpace x) eqn:E; [|reflexivity]. exfalso. revert Hx E. by_cases_on_char x. }
  assert (Htrim : trim (String "0" (String x h)) = String "0" (String x h)).
  { unfold trim. simpl. rewrite Hsp. simpl. now rewrite trimEnd_hex. }
  rewrite Htrim. simpl isEmpty. cbv iota.
  unfold isHexLiteral. rewrite isEmpty_lower, allChars_hex_lower, Hall, Hne. simpl.
  unfold hexValue. now rewrite digitsValue_lower.
Qed.
End ParserFacts.

Section RadixFacts.
Import Js Bit Spec.

Lemma charEq_refl a : charEq a a = true.
Proof. now apply charEq_true. Qed.

Lemma anyChar_hexLetter_digits t :
  allChars isDigit t = true -> anyChar isHexLetter t = false.
Proof.
  induction t as [|c t IH]; simpl; [reflexivity|].
  intros [Hc Ht]%andb_true_iff. now rewrite digit_not_hexLetter, IH.
Qed.

Lemma decimal_is_hexLiteral t : isDecimalLiteral t = true -> isHexLiteral t = true.
Proof.
  unfold isDecimalLiteral, isHexLiteral. intros [-> Ht]%andb_true_iff. simpl.
  revert Ht. apply allChars_impl, digit_is_hexDigit.
Qed.

Lemma prefix_x_not_space (x : ascii) : lowerChar x = "x"%char -> isSpace x = false.
Proof.
  intros Hx. destruct (isSpace x) eqn:E; [|reflexivity]. exfalso. revert Hx E.
  destruct x as [[] [] [] [] [] [] [] []]; vm_compute; congruence.
Qed.

Lemma trim_prefixed (x : ascii) h :
  lowerChar x = "x"%char -> allChars isHexDigit h = true ->
  trim (String "0" (String x h)) = String "0" (String x h).
Proof.
  intros Hx H. unfold trim. simpl. rewrite (prefix_x_not_space x Hx). simpl.
  now rewrite trimEnd_hex.
Qed.

Lemma parseNum_decimal t name :
  isDecimalLiteral t = true -> Vm.parseNumToBigInt t name = Normal (decValue t).
Proof.
  intros Hdec. pose proof (decimal_is_hexLiteral t Hdec) as [Hne Hhex]%andb_true_iff.
  unfold Vm.parseNumToBigInt. rewrite trim_hex by assumption.
  destruct (isEmpty t) eqn:E; [discriminate|].
  rewrite startsWith_0x_hex by now rewrite allChars_hex_lower.
  apply andb_true_iff in Hdec as [_ Hdig].
  rewrite anyChar_hexLetter_digits by assumption.
  rewrite andb_false_r. unfold isDecimalLiteral. now rewrite E, Hdig.
Qed.

Lemma parseNum_prefixed (x : ascii) h name :
  lowerChar x = "x"%char -> isHexLiteral h = true ->
  Vm.parseNumToBigInt (String "0" (String x h)) name = Normal (hexValue h).
Proof.
  intros Hx Hh. pose proof Hh as [Hne Hall]%andb_true_iff.
  unfold Vm.parseNumToBigInt. rewrite trim_prefixed by assumption.
  unfold isPrefixedHexLiteral. simpl. rewrite Hx. simpl.
  rewrite Hh. simpl. now apply parseHex_prefixed.
Qed.

Lemma parseNum_hexLetters h name :
  isHexLiteral h = true -> anyChar isHexLetter h = true ->
  Vm.parseNumToBigInt h name = Normal (hexValue h).
Proof.
  intros Hh Hletter. pose proof Hh as [Hne Hall]%andb_true_iff.
  unfold Vm.parseNumToBigInt. rewrite trim_hex by assumption.
  destruct (isEmpty h) eqn:E; [discriminate|].
  rewrite Hh, Hletter, !orb_true_r. simpl. now apply parseHex_plain.
Qed.
End RadixFacts.

(** C10. In the parser of the mapping list and of the seed rows a token
    of digits 0-9 only is read in base 10, and a token of hexadecimal
    digits with a [0x] prefix, or holding a letter a-f, is read in base 16;
    the parser of the address list reads every token in base 16, with or
    without the prefix.  The token [10] is ten in the mapping list and
    sixteen in the address list. *)
Theorem radix_depends_on_parser (t h name : string) :
  Js.isDecimalLiteral t = true ->
  Js.isHexLiteral h = true ->
  Vm.parseNumToBigInt t name = Normal (Js.decValue t) /\
  Vm.parseOptionalNumToBigInt t = Normal (Some (Js.decValue t)) /\
  Vm.parseNumToBigInt ("0x" +:+ h) name = Normal (Js.hexValue h) /\
  Vm.parseNumToBigInt ("0X" +:+ h) name = Normal (Js.hexValue h) /\
  (Js.anyChar Js.isHexLetter h = true ->
   Vm.parseNumToBigInt h name = Normal (Js.hexValue h)) /\
  Bit.parseHexToBigInt t = Normal (Js.hexValue t) /\
  Bit.parseHexToBigInt h = Normal (Js.hexValue h) /\
  Bit.parseHexToBigInt ("0x" +:+ h) = Normal (Js.hexValue h) /\
  Bit.parseHexToBigInt ("0X" +:+ h) = Normal (Js.hexValue h) /\
  Vm.parseNumToBigInt "10" name = Normal 10 /\
  Bit.parseHexToBigInt "10" = Normal 16 /\
  Vm.parseMappings "10 10" = Normal {[ 10 := Vm.Entry 10 "" ]} /\
  Vm.applyPtInitRows ∅ [Vm.PtRow "10" "10" ""] = Normal {[ 10 := Vm.Entry 10 "" ]} /\
  Cache.parseAddresses "10" = Normal [16].
Proof.
  intros Ht Hh.
  change ("0x" +:+ h) with (String "0" (String "x" h)).
  change ("0X" +:+ h) with (String "0" (String "X" h)).
  pose proof (decimal_is_hexLiteral t Ht) as Hth.
  repeat split.
  - now apply parseNum_decimal.
  - unfold Vm.parseOptionalNumToBigInt.
    apply andb_true_iff in Hth as [Hne Hall].
    rewrite trim_hex by assumption.
    destruct (Js.isEmpty t); [discriminate|].
    now rewrite parseNum_decimal.
  - now apply parseNum_prefixed.
  - now apply parseNum_prefixed.
  - intros Hletter. now apply parseNum_hexLetters.
  - now apply parseHex_plain.
  - now apply parseHex_plain.
  - now apply parseHex_prefixed.
  - now apply parseHex_prefixed.
Qed.

Lemma radix_depends_on_parser_witness :
  Vm.parseNumToBigInt "291" "VPN" = Normal 291 /\
  Vm.parseNumToBigInt "0x1F" "VPN" = Normal 31 /\
  Bit.parseHexToBigInt "291" = Normal 657.
Proof.
  destruct (radix_depends_on_parser "291" "1F" "VPN" eq_refl eq_refl)
    as (Hdec & _ & Hpre & _ & _ & Hhex & _).
  repeat split; assumption.
Defined.

(** ** Power-of-two validation *)

Lemma land_pred_zero_iff_pow2 (n : Z) :
  0 < n -> Z.land n (n - 1) = 0 <-> exists k, 0 <= k /\ n = 2 ^ k.
Proof.
  intros Hn. split.
  - intros Hland. exists (Z.log2 n). split; [apply Z.log2_nonneg|].
    pose proof (Z.log2_spec n Hn) as [Hlo Hhi].
    destruct (Z.eq_dec n (2 ^ Z.log2 n)) as [Heq|Hne]; [assumption|exfalso].
    assert (Hlog : Z.log2 (n - 1) = Z.log2 n).
    { apply Z.log2_unique; [apply Z.log2_nonneg|lia]. }
    assert (Hbit : Z.testbit (Z.land n (n - 1)) (Z.log2 n) = true).
    { rewrite Z.land_spec, Z.bit_log2 by assumption.
      rewrite <- Hlog. rewrite Z.bit_log2; [reflexivity|].
      pose proof (Z.pow_pos_nonneg 2 (Z.log2 n) ltac:(lia) (Z.log2_nonneg n)). lia. }
    rewrite Hland, Z.bits_0 in Hbit. discriminate.
  - intros (k & Hk & ->).
    replace (2 ^ k - 1) with (Z.ones k) by (rewrite Z.ones_equiv; lia).
    rewrite Z.land_ones by assumption. apply Z_mod_same_full.
Qed.

(** Below 2^31 the operands of [&] are not truncated and the test is
    exact. *)
Lemma isPowerOfTwo_exact_below_2_31 (n : Z) :
  n < 2 ^ 31 ->
  Bit.isPowerOfTwo n = true <-> exists k, 0 <= k /\ n = 2 ^ k.
Proof.
  intros Hn. unfold Bit.isPowerOfTwo.
  rewrite andb_true_iff, Z.ltb_lt, Z.eqb_eq. split.
  - intros [Hpos Hland]. rewrite !ToInt32_small in Hland by lia.
    now apply land_pred_zero_iff_pow2.
  - intros (k & Hk & ->).
    pose proof (Z.pow_pos_nonneg 2 k ltac:(lia) Hk) as Hpos.
    split; [assumption|]. rewrite !ToInt32_small by lia.
    apply land_pred_zero_iff_pow2; [assumption|]. now exists k.
Qed.

(** C1. The power-of-two test works on the low 32 bits of its argument:
    [2^32 + 1] is not a power of two, yet [isPowerOfTwo] accepts it,
    [log2IntPow2] returns 32 for it, and both configuration validations
    go on to a bit split with [offsetBits = 32] instead of raising. *)
Theorem isPowerOfTwo_accepts_2_32_plus_1 :
  (forall k : Z, 4294967297 <> 2 ^ k) /\
  Bit.isPowerOfTwo 4294967297 = true /\
  Bit.log2IntPow2 4294967297 = Normal 32 /\
  Vm.split 64 64 4294967297 = Normal (32, 32) /\
  Cache.derive (Cache.Config 64 4294967297 4294967297 1)
    = Normal (Cache.Derived 1 1 32 0 32) /\
  exists out,
    Vm.compute (Vm.State (Some "64") (Some "64") (Some "4294967297") (Some "0x0")
                  None false None None [] []) = Normal out /\
    Vm.offsetBits (Vm.o_params out) = 32 /\
    Vm.vpnBits (Vm.o_params out) = 32.
Proof.
  split; [exact not_a_power_of_two|].
  repeat split; try (vm_compute; reflexivity).
  eexists. split; [vm_compute; reflexivity|]. split; reflexivity.
Qed.

(** ** The direct-mapped scenario *)

(** C3. With [addrBits = 32], [cacheSize = 1024], [blockSize = 16] and
    associativity 1 the split is [offsetBits = 4], [numSets = 64],
    [indexBits = 6], [tagBits = 22]; the addresses 0x00000000, 0x00000004,
    0x00000010, 0x00000000 give MISS, HIT, MISS, HIT and no miss evicts
    a valid line. *)
Theorem direct_mapped_scenario :
  let text := "0x00000000" +:+ Js.newline +:+ "0x00000004" +:+ Js.newline +:+
              "0x00000010" +:+ Js.newline +:+ "0x00000000" in
  exists out,
    Cache.compute (Cache.State (Some "32") (Some "1024") (Some "16") (Some "1") (Some text))
      = Normal out /\
    Cache.o_derived out = Cache.Derived 64 64 4 6 22 /\
    Cache.a_addr <$> Cache.o_lines out = [0; 4; 16; 0] /\
    Cache.a_result <$> Cache.o_lines out = [Cache.MISS; Cache.HIT; Cache.MISS; Cache.HIT] /\
    Cache.a_set <$> Cache.o_lines out = [0; 0; 1; 0]%nat /\
    Cache.a_evicted <$> Cache.o_lines out = [None; None; None; None] /\
    Cache.o_hits out = 2 /\ Cache.o_misses out = 2.
Proof.
  eexists. split; [vm_compute; reflexivity|].
  repeat split; reflexivity.
Qed.

(** ** Victim selection *)

Section LruFacts.
Context {L : Type} `{LruLine L}.
Import Spec.

Lemma lruScan_least (lines : list L) (k : nat) :
  (S k <= length lines)%nat ->
  leastRecentUpTo lines k (foldl (lruStep lines) 0%nat (seq 1 k)).
Proof.
  induction k as [|k IH]; intros Hlen.
  - destruct (lookup_lt_is_Some_2 lines 0%nat ltac:(lia)) as [x Hx].
    exists x. simpl. repeat split; [assumption|lia| |].
    + intros j y Hj Hy. replace j with 0%nat in Hy by lia. rewrite Hx in Hy.
      injection Hy as ->. lia.
    + intros j y Hj. lia.
  - rewrite seq_S, foldl_app. simpl.
    destruct (IH ltac:(lia)) as (b & Hb & Hbk & Hmin & Hfirst).
    set (best := foldl (lruStep lines) 0%nat (seq 1 k)) in *.
    destruct (lookup_lt_is_Some_2 lines (S k) ltac:(lia)) as [x Hx].
    unfold lruStep. rewrite Hx, Hb.
    destruct (Z.ltb_spec (line_lastUsed x) (line_lastUsed b)) as [Hlt|Hge].
    + exists x. repeat split; [assumption|lia| |].
      * intros j y Hj Hy. destruct (decide (j = S k)) as [->|Hne].
        -- rewrite Hx in Hy. injection Hy as ->. lia.
        -- specialize (Hmin j y ltac:(lia) Hy). lia.
      * intros j y Hj Hy. specialize (Hmin j y ltac:(lia) Hy). lia.
    + exists b. repeat split; [assumption|lia| |assumption].
      intros j y Hj Hy. destruct (decide (j = S k)) as [->|Hne].
      * rewrite Hx in Hy. injection Hy as ->. lia.
      * apply (Hmin j y); [lia|assumption].
Qed.

Lemma pickVictimLRU_firstInvalid (lines : list L) :
  Exists (fun x => line_valid x = false) lines ->
  firstInvalid lines (pickVictimLRU lines).
Proof.
  intros Hex. unfold pickVictimLRU.
  destruct (list_find _ lines) as [[i x]|] eqn:Hfind.
  - apply list_find_Some in Hfind as (Hx & Hinv & Hbefore).
    exists x. repeat split; [assumption..|].
    intros j y Hj Hy. specialize (Hbefore j y Hy Hj).
    destruct (line_valid y); [reflexivity|contradiction].
  - apply list_find_None in Hfind. exfalso.
    apply Exists_exists in Hex as (x & Hin & Hx).
    rewrite Forall_forall in Hfind. exact (Hfind x Hin Hx).
Qed.

Lemma pickVictimLRU_leastRecent (lines : list L) :
  lines <> [] ->
  Forall (fun x => line_valid x = true) lines ->
  firstLeastRecent lines (pickVictimLRU lines).
Proof.
  intros Hne Hall. unfold pickVictimLRU.
  destruct (list_find _ lines) as [[i x]|] eqn:Hfind.
  - apply list_find_Some in Hfind as (Hx & Hinv & _). exfalso.
    rewrite Forall_forall in Hall.
    apply list_elem_of_lookup_2 in Hx. rewrite (Hall x Hx) in Hinv. discriminate.
  - assert (Hlen : (S (length lines - 1) <= length lines)%nat).
    { destruct lines; [contradiction|]. simpl. lia. }
    destruct (lruScan_least lines _ Hlen) as (x & Hx & _ & Hmin & Hfirst).
    exists x. repeat split; [assumption| |assumption].
    intros j y Hy. apply (Hmin j y); [|assumption].
    apply lookup_lt_Some in Hy. lia.
Qed.

Lemma pickVictimLRU_spec (lines : list L) :
  lines <> [] -> victimSpec lines (pickVictimLRU lines).
Proof.
  intros Hne. split.
  - apply pickVictimLRU_firstInvalid.
  - now apply pickVictimLRU_leastRecent.
Qed.

Lemma pickVictimLRU_in_range (lines : list L) :
  lines <> [] -> (pickVictimLRU lines < length lines)%nat.
Proof.
  intros Hne.
  destruct (decide (Forall (fun x => line_valid x = true) lines)) as [Hall|Hsome].
  - destruct (pickVictimLRU_leastRecent lines Hne Hall) as (x & Hx & _).
    now apply lookup_lt_Some in Hx.
  - apply not_Forall_Exists in Hsome; [|apply _].
    assert (Hex : Exists (fun x => line_valid x = false) lines).
    { eapply Exists_impl; [exact Hsome|]. simpl. intros x Hx.
      destruct (line_valid x); [contradiction|reflexivity]. }
    destruct (pickVictimLRU_firstInvalid lines Hex) as (x & Hx & _).
    now apply lookup_lt_Some in Hx.
Qed.
End LruFacts.

(** C5. Victim selection, for the lines of a cache set and for the lines
    of a TLB set: when some line is invalid the victim is the first invalid
    line; when all lines are valid the victim has the least [lastUsed] and
    every line before it has a strictly greater one, so that among equal
    minima the lowest index is chosen. *)
Theorem pickVictimLRU_first_invalid_else_lru
    (cacheLines : list Cache.line) (tlbLines : list Vm.line) :
  cacheLines <> [] -> tlbLines <> [] ->
  Spec.victimSpec cacheLines (Cache.pickVictimLRU cacheLines) /\
  Spec.victimSpec tlbLines (Vm.pickVictimLRU tlbLines).
Proof.
  intros Hc Ht. split; now apply pickVictimLRU_spec.
Qed.

Lemma pickVictimLRU_first_invalid_else_lru_witness :
  let cacheLines := [Cache.Line true 7 5; Cache.Line true 8 3; Cache.Line true 9 3] in
  let tlbLines := [Vm.Line true 1 10 "R" 4; Vm.Line false 0 0 "" 0; Vm.Line false 0 0 "" 0] in
  (Cache.pickVictimLRU cacheLines = 1%nat /\ Vm.pickVictimLRU tlbLines = 1%nat) /\
  Spec.victimSpec cacheLines (Cache.pickVictimLRU cacheLines) /\
  Spec.victimSpec tlbLines (Vm.pickVictimLRU tlbLines).
Proof.
  split; [split; reflexivity|].
  apply pickVictimLRU_first_invalid_else_lru; discriminate.
Defined.

(** ** The cache simulation *)

Section CacheFacts.
Import Js Bit Spec Cache.

Local Ltac split_checks H :=
  repeat match type of H with
         | context [if ?b then _ else _] =>
             let E := fresh "E" in destruct b eqn:E; simpl in H; try discriminate H
         end.

Lemma derive_inv (c : config) (d : derived) :
  derive c = Normal d ->
  0 < assoc c /\ 0 < numSets d /\ 1 <= addrBits c <= 64 /\ 0 <= tagBits d /\
  tagBits d = addrBits c - offsetBits d - indexBits d /\
  indexBits d = (if numSets d =? 1 then 0 else ToInt32 (Z.log2 (numSets d))).
Proof.
  unfold derive, throwIf, log2IntPow2. intros H. simpl in H.
  split_checks H.
  all: injection H as <-; simpl.
  all: repeat match goal with
              | E : negb _ = false |- _ => apply negb_false_iff in E
              | E : (_ || _) = false |- _ => apply orb_false_iff in E as [? ?]
              end.
  all: match goal with
       | E : isPowerOfTwo (_ / _ / _) = true |- _ => pose proof (isPowerOfTwo_pos _ E)
       end.
  all: repeat split; try lia; try reflexivity.
  all: match goal with
       | E : (_ =? 1) = _ |- _ => now rewrite E
       end.
Qed.

Lemma index_in_range (c : config) (d : derived) (a : Z) :
  derive c = Normal d ->
  0 <= indexOf (offsetBits d) (indexBits d) a < numSets d.
Proof.
  intros (_ & Hsets & _ & _ & _ & Hib)%derive_inv. unfold indexOf.
  destruct (Z.eqb_spec (indexBits d) 0) as [_|Hnz]; [lia|].
  destruct (Z.le_gt_cases (indexBits d) 0) as [Hneg|Hpos].
  - rewrite maskBits_nonpos, Z.land_0_r by assumption. lia.
  - pose proof (land_maskBits_range (Z.shiftr a (offsetBits d)) (indexBits d) ltac:(lia)).
    destruct (numSets d =? 1); [lia|].
    pose proof (Z.log2_nonneg (numSets d)).
    pose proof (ToInt32_le (Z.log2 (numSets d)) ltac:(lia)).
    pose proof (Z.log2_spec (numSets d) Hsets).
    assert (2 ^ indexBits d <= 2 ^ Z.log2 (numSets d)).
    { apply Z.pow_le_mono_r; lia. }
    lia.
Qed.

Lemma initCache_wellFormed (n assoc : Z) :
  0 < n -> 0 < assoc -> wellFormed n (initCache n assoc).
Proof.
  intros Hn Ha. unfold wellFormed, initCache. split.
  - rewrite length_replicate. lia.
  - apply Forall_replicate. intros Hnil.
    apply (f_equal length) in Hnil. rewrite length_replicate in Hnil. simpl in Hnil. lia.
Qed.

Lemma initCache_uniqueTags (n assoc : Z) : Forall uniqueTags (initCache n assoc).
Proof.
  apply Forall_replicate. intros i j x y Hx _ Hvalid.
  apply lookup_replicate in Hx as [-> _]. discriminate.
Qed.

Lemma insert_same_key (setLines : list line) (w : nat) (ln ln' : line) (i : nat) (x : line) :
  setLines !! w = Some ln -> valid ln' = valid ln -> tag ln' = tag ln ->
  <[w := ln']> setLines !! i = Some x ->
  exists x0, setLines !! i = Some x0 /\ valid x0 = valid x /\ tag x0 = tag x.
Proof.
  intros Hw Hv Ht [(-> & <- & _)|(_ & Hi)]%list_lookup_insert_Some.
  - exists ln. auto.
  - exists x. auto.
Qed.

Lemma uniqueTags_touch (setLines : list line) (w : nat) (ln : line) (t : Z) :
  setLines !! w = Some ln -> uniqueTags setLines ->
  uniqueTags (<[w := Line (valid ln) (tag ln) t]> setLines).
Proof.
  intros Hw Huniq i j x y Hx Hy Hvx Hvy Htag.
  destruct (insert_same_key setLines w ln (Line (valid ln) (tag ln) t) i x
              Hw eq_refl eq_refl Hx) as (x0 & Hx0 & Hv0 & Ht0).
  destruct (insert_same_key setLines w ln (Line (valid ln) (tag ln) t) j y
              Hw eq_refl eq_refl Hy) as (y0 & Hy0 & Hv1 & Ht1).
  apply (Huniq i j x0 y0); congruence.
Qed.

Lemma uniqueTags_fill (setLines : list line) (v : nat) (t time : Z) :
  uniqueTags setLines ->
  Forall (fun x => ~ (valid x = true /\ tag x = t)) setLines ->
  uniqueTags (<[v := Line true t time]> setLines).
Proof.
  intros Huniq Hmiss i j x y Hx Hy Hvx Hvy Htag.
  rewrite Forall_lookup in Hmiss.
  apply list_lookup_insert_Some in Hx as [(-> & <- & _)|(Hiv & Hx)];
    apply list_lookup_insert_Some in Hy as [(-> & <- & _)|(Hjv & Hy)].
  - reflexivity.
  - exfalso. apply (Hmiss j y Hy). simpl in Htag. auto.
  - exfalso. apply (Hmiss i x Hx). simpl in Htag. auto.
  - now apply (Huniq i j x y).
Qed.

Lemma wellFormed_insert (n : Z) (sets : list (list line)) (i : nat) (s : list line) :
  wellFormed n sets -> s <> [] -> wellFormed n (<[i := s]> sets).
Proof.
  intros [Hlen Hne] Hs. split.
  - now rewrite length_insert.
  - now apply Forall_insert.
Qed.

Lemma insert_nonempty (setLines : list line) (i : nat) (x : line) :
  setLines <> [] -> <[i := x]> setLines <> [].
Proof.
  intros Hne Hnil. apply (f_equal length) in Hnil.
  rewrite length_insert in Hnil. destruct setLines; [contradiction|discriminate].
Qed.

Lemma findHit_Some (t : Z) (setLines : list line) (w : nat) :
  findHit t setLines = Some w ->
  exists ln, setLines !! w = Some ln /\ valid ln = true /\ tag ln = t.
Proof.
  unfold findHit. intros Hf.
  apply fmap_Some in Hf as ([i ln] & Hfind & ->).
  apply list_find_Some in Hfind as (Hln & [Hv Ht] & _).
  exists ln. auto.
Qed.

Lemma findHit_None (t : Z) (setLines : list line) :
  findHit t setLines = None ->
  Forall (fun x => ~ (valid x = true /\ tag x = t)) setLines.
Proof.
  unfold findHit. intros Hf. apply fmap_None in Hf.
  now apply list_find_None in Hf.
Qed.

(** One access: the step returns, keeps the shape of the store and the
    uniqueness of tags, writes one record and moves one counter. *)
Lemma step_ok (d : derived) (n : Z) (st : sim) (a : Z) :
  wellFormed n (sets st) ->
  0 <= indexOf (offsetBits d) (indexBits d) a < n ->
  exists st' r,
    step d st a = Normal st' /\
    wellFormed n (sets st') /\
    (Forall uniqueTags (sets st) -> Forall uniqueTags (sets st')) /\
    lines st' = lines st ++ [r] /\
    a_addr r = a /\
    ((a_result r = HIT /\ hits st' = hits st + 1 /\ misses st' = misses st) \/
     (a_result r = MISS /\ hits st' = hits st /\ misses st' = misses st + 1)).
Proof.
  intros Hwf Hidx. unfold step.
  set (index := indexOf (offsetBits d) (indexBits d) a) in *.
  set (t := tagOf (offsetBits d) (indexBits d) a).
  destruct Hwf as [Hlen Hne].
  destruct (lookup_lt_is_Some_2 (sets st) (Z.to_nat index) ltac:(lia)) as [setLines Hset].
  rewrite Hset.
  pose proof (Forall_lookup_1 _ _ _ _ Hne Hset) as HsetNe.
  destruct (findHit t setLines) as [hitWay|] eqn:Hfind.
  - destruct (findHit_Some _ _ _ Hfind) as (ln & Hln & Hv & Ht).
    rewrite Hln. eexists _, _. split; [reflexivity|]. simpl.
    split; [apply wellFormed_insert; [now split|now apply insert_nonempty]|].
    split.
    { intros Huniq. apply Forall_insert; [assumption|].
      apply uniqueTags_touch; [assumption|].
      exact (Forall_lookup_1 _ _ _ _ Huniq Hset). }
    repeat split. left. auto.
  - pose proof (pickVictimLRU_in_range setLines HsetNe) as Hvictim.
    fold (Cache.pickVictimLRU setLines) in Hvictim.
    destruct (lookup_lt_is_Some_2 setLines _ Hvictim) as [v Hv].
    rewrite Hv. eexists _, _. split; [reflexivity|]. simpl.
    split; [apply wellFormed_insert; [now split|now apply insert_nonempty]|].
    split.
    { intros Huniq. apply Forall_insert; [assumption|].
      apply uniqueTags_fill; [|now apply findHit_None].
      exact (Forall_lookup_1 _ _ _ _ Huniq Hset). }
    repeat split. right. auto.
Qed.

Lemma countHits_snoc (l : list access) (r : access) :
  countHits (l ++ [r]) = countHits l + (if isHit r then 1 else 0) /\
  countMisses (l ++ [r]) = countMisses l + (if isHit r then 0 else 1).
Proof.
  unfold countHits, countMisses. rewrite !filter_app, !length_app.
  rewrite !filter_cons, !filter_nil.
  destruct (isHit r); repeat case_decide; try congruence; simpl; lia.
Qed.

Lemma simulate_ok (d : derived) (n : Z) (addrs : list Z) :
  (forall a, 0 <= indexOf (offsetBits d) (indexBits d) a < n) ->
  forall st, wellFormed n (sets st) ->
  exists st',
    simulate d st addrs = Normal st' /\
    wellFormed n (sets st') /\
    (Forall uniqueTags (sets st) -> Forall uniqueTags (sets st')) /\
    (countersAgree st -> countersAgree st') /\
    a_addr <$> lines st' = (a_addr <$> lines st) ++ addrs.
Proof.
  intros Hidx. induction addrs as [|a rest IH]; intros st Hwf.
  - exists st. simpl. rewrite app_nil_r. auto.
  - destruct (step_ok d n st a Hwf (Hidx a))
      as (st1 & r & Hstep & Hwf1 & Huniq1 & Hlines & Haddr & Hcount).
    destruct (IH st1 Hwf1) as (st' & Hsim & Hwf' & Huniq' & Hagree' & Htrace).
    exists st'. simpl. rewrite Hstep. simpl.
    split; [assumption|]. split; [assumption|]. split; [auto|]. split.
    + intros [Hh Hm]. apply Hagree'. unfold countersAgree. rewrite Hlines.
      destruct (countHits_snoc (lines st) r) as [-> ->].
      unfold isHit.
      destruct Hcount as [(-> & -> & ->)|(-> & -> & ->)]; lia.
    + rewrite Htrace, Hlines, fmap_app. simpl. rewrite Haddr, <- app_assoc. reflexivity.
Qed.
End CacheFacts.

Section CacheRuns.
Import Js Bit Spec Cache.



Lemma run_unfold (c : config) (text : string) (d : derived) (addrs : list Z) :
  derive c = Normal d -> parseAddresses text = Normal addrs -> addrs <> [] ->
  run c text =
  st ← simulate d (Sim (initCache (numSets d) (assoc c)) 0 0 0 [])
         ((fun a => clampBigIntToBits a (addrBits c)) <$> addrs);
  Normal (Output c d (lines st) (hits st) (misses st)
            (hitRate (hits st) (misses st)) (sets st)).
Proof.
  intros Hd Hp Hne. unfold run. rewrite Hd, Hp. simpl.
  destruct addrs; [contradiction|reflexivity].
Qed.

Lemma run_inv (c : config) (text : string) (out : output) :
  run c text = Normal out ->
  exists d addrs,
    derive c = Normal d /\ parseAddresses text = Normal addrs /\ addrs <> [].
Proof.
  unfold run. intros H.
  destruct (derive c) as [d|] eqn:Hd; [|discriminate].
  destruct (parseAddresses text) as [addrs|] eqn:Hp; [|discriminate].
  exists d, addrs. repeat split. intros ->. discriminate.
Qed.

Lemma simulate_from_empty (c : config) (d : derived) (addrs : list Z) :
  derive c = Normal d ->
  exists st,
    simulate d (Sim (initCache (numSets d) (assoc c)) 0 0 0 []) addrs = Normal st /\
    Forall uniqueTags (sets st) /\ countersAgree st /\
    a_addr <$> lines st = addrs.
Proof.
  intros Hd. pose proof (derive_inv c d Hd) as (Hassoc & Hsets & _).
  destruct (simulate_ok d (numSets d) addrs (fun a => index_in_range c d a Hd)
              (Sim (initCache (numSets d) (assoc c)) 0 0 0 [])
              (initCache_wellFormed _ _ Hsets Hassoc))
    as (st & Hsim & _ & Huniq & Hagree & Htrace).
  exists st. split; [assumption|]. split; [|split].
  - apply Huniq, initCache_uniqueTags.
  - apply Hagree. split; reflexivity.
  - exact Htrace.
Qed.
End CacheRuns.




(** C9. From the all-invalid store built by [initCache], after any
    sequence of accesses the simulation has returned and no set holds two
    valid lines with the same tag; so it is for the store at the end of
    every run. *)
Theorem unseeded_cache_keeps_tags_unique
    (c : Cache.config) (d : Cache.derived) (addrs : list Z) :
  Cache.derive c = Normal d ->
  (exists st,
     Cache.simulate d (Cache.Sim (Cache.initCache (Cache.numSets d) (Cache.assoc c)) 0 0 0 [])
       addrs = Normal st /\
     Forall Spec.uniqueTags (Cache.sets st)) /\
  (forall text out,
     Cache.run c text = Normal out -> Forall Spec.uniqueTags (Cache.o_sets out)).
Proof.
  intros Hd. split.
  - destruct (simulate_from_empty c d addrs Hd) as (st & Hsim & Huniq & _).
    now exists st.
  - intros text out Hrun.
    destruct (run_inv c text out Hrun) as (d' & parsed & Hd' & Hp & Hne).
    rewrite Hd in Hd'. injection Hd' as <-.
    rewrite (run_unfold c text d parsed Hd Hp Hne) in Hrun.
    destruct (simulate_from_empty c d
                ((fun a => Bit.clampBigIntToBits a (Cache.addrBits c)) <$> parsed) Hd)
      as (st & Hsim & Huniq & _).
    rewrite Hsim in Hrun. simpl in Hrun. injection Hrun as <-. exact Huniq.
Qed.

Lemma unseeded_cache_keeps_tags_unique_witness :
  exists st,
    Cache.simulate (Cache.Derived 4 2 4 1 27)
      (Cache.Sim (Cache.initCache 2 2) 0 0 0 []) [0; 32; 64; 0; 96] = Normal st /\
    Forall Spec.uniqueTags (Cache.sets st).
Proof.
  exact (proj1 (unseeded_cache_keeps_tags_unique (Cache.Config 32 64 16 2)
                  (Cache.Derived 4 2 4 1 27) [0; 32; 64; 0; 96] eq_refl)).
Defined.

(** ** Malformed address literals *)

Section AddressFacts.
Import Js Bit Spec.




Lemma trimStart_head s c r : trimStart s = String c r -> isSpace c = false.
Proof.
  induction s as [|a s IH]; simpl; [discriminate|].
  destruct (isSpace a) eqn:E; [assumption|].
  intros [= -> _]. exact E.
Qed.






End AddressFacts.




(** ** The virtual-memory simulation *)

Section VmFacts.
Import Js Bit Spec Vm.

Local Ltac split_matches H :=
  repeat match type of H with
         | context [match ?x with _ => _ end] =>
             destruct x eqn:?; simpl in H; try discriminate H
         end.

(** One access writes one record, whose physical address is the one of
    its page number, and leaves the page table as it is. *)
Lemma vm_step_record (p : params) (st st' : sim) (va : Z) :
  step p st va = Normal st' ->
  exists r,
    outLines st' = outLines st ++ [r] /\
    r_va r = va /\
    r_vpnOf r = Z.shiftr va (offsetBits p) /\
    r_offset r = Z.land va (maskBits (offsetBits p)) /\
    paMatches p r /\
    pageTable st' = pageTable st.
Proof.
  unfold step. intros H.
  destruct (tlbLookup p st (time st + 1) (Z.shiftr va (offsetBits p))) as [l|];
    simpl in H; [|discriminate].
  split_matches H.
  all: injection H as <-; simpl.
  all: eexists; split; [reflexivity|]; simpl.
  all: repeat split.
  all: unfold paMatches; simpl; destruct (l_ppn l); reflexivity.
Qed.

Lemma vm_simulate_records (p : params) (addrs : list Z) :
  forall st st',
    simulate p st addrs = Normal st' ->
    Forall (paMatches p) (outLines st) ->
    Forall (paMatches p) (outLines st') /\
    r_va <$> outLines st' = (r_va <$> outLines st) ++ addrs /\
    pageTable st' = pageTable st.
Proof.
  induction addrs as [|va rest IH]; intros st st' Hsim Hall; simpl in Hsim.
  - injection Hsim as <-. rewrite app_nil_r. auto.
  - destruct (step p st va) as [st1|] eqn:Hstep; simpl in Hsim; [|discriminate].
    destruct (vm_step_record p st st1 va Hstep) as (r & Hlines & Hva & _ & _ & Hpa & Hpt).
    destruct (IH st1 st' Hsim) as (Hall' & Htrace & Hpt').
    { rewrite Hlines. apply Forall_app. split; [assumption|]. now constructor. }
    split; [assumption|]. split.
    + rewrite Htrace, Hlines, fmap_app. simpl. rewrite Hva, <- app_assoc. reflexivity.
    + congruence.
Qed.

Lemma vm_simulate_pageTable (p : params) (addrs : list Z) :
  forall st st', simulate p st addrs = Normal st' -> pageTable st' = pageTable st.
Proof.
  induction addrs as [|va rest IH]; intros st st' Hsim; simpl in Hsim.
  - now injection Hsim as <-.
  - destruct (step p st va) as [st1|] eqn:Hstep; simpl in Hsim; [|discriminate].
    destruct (vm_step_record p st st1 va Hstep) as (r & _ & _ & _ & _ & _ & Hpt).
    rewrite (IH st1 st' Hsim). exact Hpt.
Qed.

Lemma setupTLB_unseeded (s : state) (vb : Z) te ta tib ttb (tlb : list (list line)) :
  setupTLB s vb = Normal (te, ta, tib, ttb, tlb) ->
  s_tlbInitRows s = [] ->
  exists n a, tlb = initTLB n a.
Proof.
  unfold setupTLB. intros H Hrows. rewrite Hrows in H.
  destruct (parseIntStrict _ "tlbEntries") as [e|]; simpl in H; [|discriminate].
  destruct (parseIntStrict _ "tlbAssoc") as [a|]; simpl in H; [|discriminate].
  unfold throwIf in H. split_matches H.
  - injection H as <- <- <- <- <-; eauto.
  - destruct (log2IntPow2 _); simpl in H; [|discriminate].
    split_matches H. injection H as <- <- <- <- <-; eauto.
Qed.

Lemma initTLB_invalid (n a : Z) (i w : nat) (setLines : list line) (ln : line) :
  initTLB n a !! i = Some setLines -> setLines !! w = Some ln -> valid ln = false.
Proof.
  unfold initTLB. intros [-> _]%lookup_replicate [-> _]%lookup_replicate. reflexivity.
Qed.

Lemma vm_run_inv (c : config) (s : state) (out : output) :
  run c s = Normal out ->
  exists pt tlb addrs st,
    simulate (o_params out) (Sim pt tlb 0 0 0 0 0 []) addrs = Normal st /\
    o_lines out = outLines st /\
    o_ptHits out = ptHits st /\ o_ptMisses out = ptMisses st /\
    o_pageTable out = pageTable st /\ o_tlbSets out = tlbSets st /\
    vaBits (o_params out) = c_vaBits c /\ paBits (o_params out) = c_paBits c /\
    (s_tlbInitRows s = [] ->
     forall i setLines w ln,
       tlb !! i = Some setLines -> setLines !! w = Some ln -> valid ln = false).
Proof.
  unfold run. intros H.
  destruct (split _ _ _) as [[ob vb]|]; simpl in H; [|discriminate].
  destruct (throwIf _ _); simpl in H; [|discriminate].
  destruct (mapM _ _) as [parsed|]; simpl in H; [|discriminate].
  destruct (parseMappings _) as [pt0|]; simpl in H; [|discriminate].
  destruct (applyPtInitRows _ _) as [pt|]; simpl in H; [|discriminate].
  destruct (if s_enableTLB s then _ else _) as [[[[[te ta] tib] ttb] tlb]|] eqn:Hsetup;
    simpl in H; [|discriminate].
  destruct (simulate _ _ _) as [st|] eqn:Hsim; simpl in H; [|discriminate].
  injection H as <-. simpl.
  exists pt, tlb, ((fun a => clampBigIntToBits a (c_vaBits c)) <$> parsed), st.
  repeat split; try assumption.
  intros Hrows i setLines w ln Hset Hln.
  destruct (s_enableTLB s).
  - destruct (setupTLB_unseeded _ _ _ _ _ _ _ Hsetup Hrows) as (nSets & nWays & ->).
    exact (initTLB_invalid _ _ _ _ _ _ Hset Hln).
  - injection Hsetup as <- <- <- <- <-. discriminate.
Qed.

(** A run that returns has passed the test of [paBits]. *)
Lemma vm_run_paBits (c : config) (s : state) (out : output) :
  run c s = Normal out -> 1 <= paBits (o_params out) <= 64.
Proof.
  intros H. destruct (vm_run_inv c s out H) as (pt & tlb & addrs & st & _ & _ & _ & _ & _ & _ & _ & -> & _).
  unfold run in H.
  destruct (split (c_vaBits c) (c_paBits c) (c_pageSize c)) as [sp|] eqn:Hsp; [|discriminate].
  unfold split, throwIf in Hsp.
  destruct ((c_vaBits c <=? 0) || (c_vaBits c >? 64)); simpl in Hsp; [discriminate|].
  destruct ((c_paBits c <=? 0) || (c_paBits c >? 64)) eqn:E; simpl in Hsp; [discriminate|].
  apply orb_false_iff in E. lia.
Qed.
End VmFacts.

(** C4. In every run, a record that has a page number [ppn] reports the
    physical address [((ppn << offsetBits) | offset) mod 2^paBits], the
    low [paBits] bits of the concatenation, with [1 <= paBits <= 64]; this
    is [clampBigIntToBits((ppn << offsetBits) | offset, paBits)].
    With 32-bit addresses, 4096-byte pages, the TLB off and the page table
    [0x1 -> 0xA], address 0x00001004 has page 0x1 and offset 0x004, is found
    in the page table and resolves to 0x0000A004.  With 16-bit physical
    addresses and the page table [0x1 -> 0xABC] the same address resolves
    to 0xC004: the bits of the page number above bit 15 are cut. *)
Theorem physical_address_of_resolved_access :
  (forall (c : Vm.config) (s : Vm.state) (out : Vm.output) (r : Vm.access) (ppn : Z),
     Vm.run c s = Normal out ->
     r ∈ Vm.o_lines out ->
     Vm.r_ppnOf r = Some ppn ->
     1 <= Vm.paBits (Vm.o_params out) <= 64 /\
     Vm.r_pa r =
       Some (Z.lor (Z.shiftl ppn (Vm.offsetBits (Vm.o_params out))) (Vm.r_offset r)
               mod 2 ^ Vm.paBits (Vm.o_params out)) /\
     Vm.r_pa r =
       Some (Bit.clampBigIntToBits
               (Z.lor (Z.shiftl ppn (Vm.offsetBits (Vm.o_params out))) (Vm.r_offset r))
               (Vm.paBits (Vm.o_params out)))) /\
  (exists out,
     Vm.compute (Vm.State (Some "32") (Some "32") (Some "4096") (Some "0x00001004")
                   (Some "0x1 0xA RWX") false None None [] []) = Normal out /\
     Vm.offsetBits (Vm.o_params out) = 12 /\
     Vm.vpnBits (Vm.o_params out) = 20 /\
     Vm.o_pageTable out = {[ 0x1 := Vm.Entry 0xA "RWX" ]} /\
     Vm.o_lines out = [Vm.Access 0x00001004 0x1 0x004 None (Some 0xA) "RWX" (Some 0x0000A004)] /\
     Vm.o_ptHits out = 1 /\ Vm.o_ptMisses out = 0 /\
     Bit.toHex 0x0000A004 8 = "0x0000A004") /\
  (exists out,
     Vm.compute (Vm.State (Some "32") (Some "16") (Some "4096") (Some "0x00001004")
                   (Some "0x1 0xABC RWX") false None None [] []) = Normal out /\
     Vm.o_lines out = [Vm.Access 0x00001004 0x1 0x004 None (Some 0xABC) "RWX" (Some 0xC004)]).
Proof.
  split; [|split].
  - intros c s out r ppn Hrun Hin Hppn.
    pose proof (vm_run_paBits c s out Hrun) as Hpa.
    destruct (vm_run_inv c s out Hrun) as (pt & tlb & addrs & st & Hsim & Hlines & _).
    destruct (vm_simulate_records _ _ _ _ Hsim) as (Hall & _); [constructor|].
    rewrite Hlines in Hin. rewrite Forall_forall in Hall.
    specialize (Hall r Hin). unfold Spec.paMatches in Hall.
    rewrite Hall, Hppn. simpl.
    split; [exact Hpa|]. split; [|reflexivity].
    rewrite clamp_mod by lia. reflexivity.
  - eexists. split; [vm_compute; reflexivity|].
    repeat split; reflexivity.
  - eexists. split; [vm_compute; reflexivity|]. reflexivity.
Qed.

Lemma physical_address_of_resolved_access_witness :
  let s := Vm.State (Some "32") (Some "32") (Some "4096") (Some "0x00001004")
             (Some "0x1 0xA RWX") true (Some "4") (Some "2") [] [] in
  let r := Vm.Access 0x1004 0x1 0x004 (Some (Vm.TlbInfo 1 0 false)) (Some 0xA) "RWX"
             (Some 0xA004) in
  Vm.r_pa r = Some (Z.lor (Z.shiftl 0xA 12) 0x004 mod 2 ^ 32).
Proof.
  intros s r.
  refine (proj1 (proj2 (proj1 physical_address_of_resolved_access (Vm.Config 32 32 4096) s
            (Vm.Output (Vm.Params 32 32 4096 12 20 true 4 2 1 19) [r] 0 1 1 0
               {[ 0x1 := Vm.Entry 0xA "RWX" ]}
               [[Vm.Line false 0 0 "" 0; Vm.Line false 0 0 "" 0];
                [Vm.Line true 0 0xA "RWX" 1; Vm.Line false 0 0 "" 0]])
            r 0xA _ _ _))).
  - vm_compute. reflexivity.
  - left.
  - reflexivity.
Defined.

(** ** Page faults *)

Section FaultFacts.
Import Js Bit Spec Vm.

Lemma tlbLookup_miss (p : params) (st : sim) (t vpn : Z) :
  tlbMissOn p st vpn ->
  exists l,
    tlbLookup p st t vpn = Normal l /\
    l_tlbHit l = false /\ l_ppn l = None /\ l_tlbSets l = tlbSets st /\
    l_tlbHits l = tlbHits st.
Proof.
  unfold tlbLookup. intros [Hoff|(setLines & Hset & Hfind)].
  - rewrite Hoff. eexists. split; [reflexivity|]. auto.
  - destruct (enableTLB p).
    + rewrite Hset, Hfind. eexists. split; [reflexivity|]. auto.
    + eexists. split; [reflexivity|]. auto.
Qed.

Lemma step_fault (p : params) (st : sim) (va : Z) :
  pageTable st !! Z.shiftr va (offsetBits p) = None ->
  tlbMissOn p st (Z.shiftr va (offsetBits p)) ->
  exists st' r,
    step p st va = Normal st' /\
    outLines st' = outLines st ++ [r] /\
    r_vpnOf r = Z.shiftr va (offsetBits p) /\
    r_ppnOf r = None /\ r_pa r = None /\
    ptMisses st' = ptMisses st + 1 /\ ptHits st' = ptHits st /\
    tlbHits st' = tlbHits st /\
    tlbSets st' = tlbSets st /\
    pageTable st' = pageTable st.
Proof.
  intros Hpt Hmiss. unfold step.
  destruct (tlbLookup_miss p st (time st + 1) _ Hmiss)
    as (l & -> & Hhit & Hppn & Hsets & Hhits).
  simpl. rewrite Hhit, Hpt, Hppn, Hsets, Hhits.
  eexists _, _. split; [reflexivity|]. simpl. repeat split.
Qed.

Lemma tlbIndexOf_nonneg (p : params) (vpn : Z) : 0 <= tlbIndexOf p vpn.
Proof.
  unfold tlbIndexOf. destruct (Z.eqb_spec (tlbIndexBits p) 0); [lia|].
  destruct (Z.le_gt_cases (tlbIndexBits p) 0).
  - rewrite maskBits_nonpos, Z.land_0_r by assumption. lia.
  - apply land_maskBits_range. lia.
Qed.

(** The set index and the tag of a page determine the page. *)
Lemma tlb_key_inj (p : params) (vpn vpn' : Z) :
  Z.to_nat (tlbIndexOf p vpn) = Z.to_nat (tlbIndexOf p vpn') ->
  Z.shiftr vpn (tlbIndexBits p) = Z.shiftr vpn' (tlbIndexBits p) ->
  vpn = vpn'.
Proof.
  intros Hidx Htag.
  pose proof (tlbIndexOf_nonneg p vpn). pose proof (tlbIndexOf_nonneg p vpn').
  assert (Hidx' : tlbIndexOf p vpn = tlbIndexOf p vpn') by lia. clear Hidx.
  unfold tlbIndexOf in Hidx'.
  destruct (Z.lt_trichotomy (tlbIndexBits p) 0) as [Hneg|[Hz|Hpos]].
  - replace (tlbIndexBits p) with (- (- tlbIndexBits p)) in Htag by lia.
    rewrite !Z.shiftr_opp_r, !Z.shiftl_mul_pow2 in Htag by lia.
    apply Z.mul_cancel_r in Htag; [assumption|].
    apply Z.pow_nonzero; lia.
  - rewrite Hz in Htag. now rewrite !Z.shiftr_0_r in Htag.
  - destruct (Z.eqb_spec (tlbIndexBits p) 0) as [Hz|_]; [lia|].
    apply Z.bits_inj'. intros k Hk.
    destruct (Z.lt_ge_cases k (tlbIndexBits p)) as [Hlow|Hhigh].
    + apply (f_equal (fun x => Z.testbit x k)) in Hidx'.
      rewrite !Z.land_spec, testbit_maskBits in Hidx' by lia.
      destruct (Z.ltb_spec k (tlbIndexBits p)); [|lia].
      now rewrite !andb_true_r in Hidx'.
    + apply (f_equal (fun x => Z.testbit x (k - tlbIndexBits p))) in Htag.
      rewrite !Z.shiftr_spec in Htag by lia.
      now replace (k - tlbIndexBits p + tlbIndexBits p) with k in Htag by lia.
Qed.

Lemma tlbBacked_insert (p : params) (pt : gmap Z entry) (tlb : list (list line))
    (i w : nat) (setLines : list line) (ln' : line) :
  tlbBacked p pt tlb ->
  tlb !! i = Some setLines ->
  (valid ln' = true ->
   exists vpn e, pt !! vpn = Some e /\ Z.to_nat (tlbIndexOf p vpn) = i /\
                 Z.shiftr vpn (tlbIndexBits p) = tag ln') ->
  tlbBacked p pt (<[i := <[w := ln']> setLines]> tlb).
Proof.
  intros Hback Hset Hnew j setLines' w' ln Hj Hw Hvalid.
  apply list_lookup_insert_Some in Hj as [(<- & <- & _)|(Hne & Hj)].
  - apply list_lookup_insert_Some in Hw as [(<- & <- & _)|(Hne & Hw)].
    + now apply Hnew.
    + now apply (Hback i setLines w' ln).
  - now apply (Hback j setLines' w' ln).
Qed.

Lemma vm_findHit_Some (t : Z) (setLines : list line) (w : nat) :
  findHit t setLines = Some w ->
  exists ln, setLines !! w = Some ln /\ valid ln = true /\ tag ln = t.
Proof.
  unfold findHit. intros Hf.
  apply fmap_Some in Hf as ([i ln] & Hfind & ->).
  apply list_find_Some in Hfind as (Hln & [Hv Ht] & _).
  exists ln. auto.
Qed.

(** With a backed TLB, a page absent from the page table cannot hit. *)
Lemma unmapped_misses_backed_tlb (p : params) (st st' : sim) (va : Z) :
  step p st va = Normal st' ->
  tlbBacked p (pageTable st) (tlbSets st) ->
  pageTable st !! Z.shiftr va (offsetBits p) = None ->
  tlbMissOn p st (Z.shiftr va (offsetBits p)).
Proof.
  intros Hstep Hback Hpt. unfold tlbMissOn.
  destruct (enableTLB p) eqn:Hon; [right|now left].
  unfold step, tlbLookup in Hstep. rewrite Hon in Hstep.
  set (vpn := Z.shiftr va (offsetBits p)) in *.
  destruct (tlbSets st !! Z.to_nat (tlbIndexOf p vpn)) as [setLines|] eqn:Hset;
    [|discriminate].
  exists setLines. split; [reflexivity|].
  destruct (findHit _ setLines) as [hitWay|] eqn:Hfind; [exfalso|reflexivity].
  destruct (vm_findHit_Some _ _ _ Hfind) as (ln & Hln & Hvalid & Htag).
  destruct (Hback _ _ _ _ Hset Hln Hvalid) as (vpn' & e & He & Hidx & Htag').
  assert (vpn' = vpn) as ->.
  { apply (tlb_key_inj p); [assumption|]. congruence. }
  congruence.
Qed.

Lemma step_keeps_backed (p : params) (st st' : sim) (va : Z) :
  step p st va = Normal st' ->
  tlbBacked p (pageTable st) (tlbSets st) ->
  tlbBacked p (pageTable st') (tlbSets st').
Proof.
  intros Hstep Hback. unfold step, tlbLookup in Hstep.
  set (vpn := Z.shiftr va (offsetBits p)) in *.
  destruct (enableTLB p) eqn:Hon.
  - destruct (tlbSets st !! Z.to_nat (tlbIndexOf p vpn)) as [setLines|] eqn:Hset;
      [|discriminate].
    destruct (findHit _ setLines) as [hitWay|] eqn:Hfind.
    + destruct (vm_findHit_Some _ _ _ Hfind) as (ln & Hln & Hvalid & Htag).
      rewrite Hln in Hstep. simpl in Hstep. injection Hstep as <-. simpl.
      apply tlbBacked_insert; [assumption..|]. simpl. intros _.
      exact (Hback _ _ _ _ Hset Hln Hvalid).
    + simpl in Hstep.
      destruct (pageTable st !! vpn) as [e|] eqn:Hpt.
      * rewrite Hset in Hstep.
        destruct (_ <? _)%nat; [|discriminate].
        injection Hstep as <-. simpl.
        apply tlbBacked_insert; [assumption..|]. simpl. intros _.
        exists vpn, e. auto.
      * injection Hstep as <-. simpl. assumption.
  - simpl in Hstep.
    destruct (pageTable st !! vpn) as [e|] eqn:Hpt;
      injection Hstep as <-; simpl; assumption.
Qed.

Lemma vm_step_counter (p : params) (st st' : sim) (va : Z) :
  step p st va = Normal st' ->
  exists r,
    outLines st' = outLines st ++ [r] /\
    ((r_ppnOf r = None /\ ptMisses st' = ptMisses st + 1) \/
     (r_ppnOf r <> None /\ ptMisses st' = ptMisses st)).
Proof.
  intros Hstep. unfold step, tlbLookup in Hstep.
  set (vpn := Z.shiftr va (offsetBits p)) in *.
  destruct (enableTLB p) eqn:Hon.
  - destruct (tlbSets st !! Z.to_nat (tlbIndexOf p vpn)) as [setLines|] eqn:Hset;
      [|discriminate].
    destruct (findHit _ setLines) as [hitWay|] eqn:Hfind.
    + destruct (setLines !! hitWay); [|discriminate].
      simpl in Hstep. injection Hstep as <-. simpl.
      eexists. split; [reflexivity|]. right. simpl. split; [discriminate|reflexivity].
    + simpl in Hstep.
      destruct (pageTable st !! vpn) as [e|] eqn:Hpt.
      * rewrite Hset in Hstep. destruct (_ <? _)%nat; [|discriminate].
        injection Hstep as <-. simpl.
        eexists. split; [reflexivity|]. right. simpl. split; [discriminate|reflexivity].
      * injection Hstep as <-. simpl.
        eexists. split; [reflexivity|]. left. simpl. split; reflexivity.
  - simpl in Hstep.
    destruct (pageTable st !! vpn) as [e|] eqn:Hpt; injection Hstep as <-; simpl.
    + eexists. split; [reflexivity|]. right. simpl. split; [discriminate|reflexivity].
    + eexists. split; [reflexivity|]. left. simpl. split; reflexivity.
Qed.

Lemma countFaults_snoc (l : list access) (r : access) :
  countFaults (l ++ [r])
  = countFaults l + match r_ppnOf r with Some _ => 0 | None => 1 end.
Proof.
  unfold countFaults. rewrite filter_app, length_app, filter_cons, filter_nil.
  destruct (r_ppnOf r); case_decide; try congruence; simpl; lia.
Qed.

Lemma vm_simulate_counter (p : params) (addrs : list Z) :
  forall st st',
    simulate p st addrs = Normal st' ->
    ptMisses st = countFaults (outLines st) ->
    ptMisses st' = countFaults (outLines st').
Proof.
  induction addrs as [|va rest IH]; intros st st' Hsim Hcount; simpl in Hsim.
  - now injection Hsim as <-.
  - destruct (step p st va) as [st1|] eqn:Hstep; simpl in Hsim; [|discriminate].
    apply (IH st1 st' Hsim).
    destruct (vm_step_counter p st st1 va Hstep) as (r & -> & Hcase).
    rewrite countFaults_snoc.
    destruct Hcase as [[-> ->]|[Hsome ->]]; [lia|].
    destruct (r_ppnOf r); [lia|contradiction].
Qed.

Lemma vm_simulate_backed (p : params) (addrs : list Z) :
  forall st st',
    simulate p st addrs = Normal st' ->
    tlbBacked p (pageTable st) (tlbSets st) ->
    Forall (fun r => pageTable st !! r_vpnOf r = None -> isFault r) (outLines st) ->
    Forall (fun r => pageTable st !! r_vpnOf r = None -> isFault r) (outLines st').
Proof.
  induction addrs as [|va rest IH]; intros st st' Hsim Hback Hall; simpl in Hsim.
  - now injection Hsim as <-.
  - destruct (step p st va) as [st1|] eqn:Hstep; simpl in Hsim; [|discriminate].
    destruct (vm_step_record p st st1 va Hstep) as (r & Hlines & _ & Hvpn & _ & _ & Hpt).
    rewrite <- Hpt. apply (IH st1 st' Hsim).
    + now apply (step_keeps_backed p st st1 va).
    + rewrite Hpt, Hlines. apply Forall_app. split; [assumption|].
      constructor; [|constructor]. rewrite Hvpn. intros Habsent.
      pose proof (unmapped_misses_backed_tlb p st st1 va Hstep Hback Habsent) as Hmiss.
      destruct (step_fault p st va Habsent Hmiss)
        as (st2 & r2 & Hstep2 & Hlines2 & _ & Hppn & Hpa & _).
      rewrite Hstep in Hstep2. injection Hstep2 as <-.
      rewrite Hlines in Hlines2. apply app_inj_tail in Hlines2 as [_ ->].
      now split.
Qed.

Lemma tlbBacked_invalid (p : params) (pt : gmap Z entry) (tlb : list (list line)) :
  (forall i setLines w ln,
     tlb !! i = Some setLines -> setLines !! w = Some ln -> valid ln = false) ->
  tlbBacked p pt tlb.
Proof.
  intros Hinv i setLines w ln Hset Hln Hvalid.
  rewrite (Hinv i setLines w ln Hset Hln) in Hvalid. discriminate.
Qed.
End FaultFacts.

(** Absence from the page table alone does not make a fault: a seeded
    TLB line resolves page 0x5 although the page table is empty; the record
    has a physical address and the page-table-miss counter stays 0. *)
Lemma seeded_tlb_hit_resolves_unmapped_vpn :
  exists out,
    Vm.compute (Vm.State (Some "32") (Some "32") (Some "4096") (Some "0x00005000")
                  (Some "") true (Some "1") (Some "1") []
                  [Vm.TlbRow "0" "0" "0x5" "0xB" "R" ""]) = Normal out /\
    Vm.o_pageTable out !! 0x5 = None /\
    Vm.o_lines out = [Vm.Access 0x5000 0x5 0 (Some (Vm.TlbInfo 0 0x5 true))
                        (Some 0xB) "R" (Some 0xB000)] /\
    Vm.o_ptMisses out = 0.
Proof.
  eexists. split; [vm_compute; reflexivity|].
  repeat split; reflexivity.
Qed.

(** C6, amended. An access whose page is absent from the page table and
    which does not hit in the TLB (the TLB is off, or the lookup finds no
    valid line with its tag) returns a record with no page number and no
    physical address, adds one to the page-table-miss counter, leaves the
    page-table-hit counter, every TLB line and the page table as they
    were, and the loop goes on with the next address.  No run of the loop
    changes the page table.  In a whole run the page-table-miss counter is
    the number of fault records, and when the run has no TLB seed rows
    every access to a page absent from the page table is such a fault. *)
Theorem unmapped_vpn_faults_after_tlb_miss (p : Vm.params) (st : Vm.sim) (va : Z) :
  Vm.pageTable st !! Z.shiftr va (Vm.offsetBits p) = None ->
  Spec.tlbMissOn p st (Z.shiftr va (Vm.offsetBits p)) ->
  (exists st' r,
     Vm.step p st va = Normal st' /\
     Vm.outLines st' = Vm.outLines st ++ [r] /\
     Vm.r_vpnOf r = Z.shiftr va (Vm.offsetBits p) /\
     Spec.isFault r /\
     Vm.ptMisses st' = Vm.ptMisses st + 1 /\ Vm.ptHits st' = Vm.ptHits st /\
     Vm.tlbSets st' = Vm.tlbSets st /\
     Vm.pageTable st' = Vm.pageTable st /\
     forall rest, Vm.simulate p st (va :: rest) = Vm.simulate p st' rest) /\
  (forall addrs st1,
     Vm.simulate p st addrs = Normal st1 -> Vm.pageTable st1 = Vm.pageTable st) /\
  (forall c s out,
     Vm.run c s = Normal out ->
     Vm.o_ptMisses out = Spec.countFaults (Vm.o_lines out) /\
     (Vm.s_tlbInitRows s = [] ->
      forall r, r ∈ Vm.o_lines out ->
                Vm.o_pageTable out !! Vm.r_vpnOf r = None -> Spec.isFault r)).
Proof.
  intros Hpt Hmiss. split; [|split].
  - destruct (step_fault p st va Hpt Hmiss)
      as (st' & r & Hstep & Hlines & Hvpn & Hppn & Hpa & Hm & Hh & _ & Htlb & Htable).
    exists st', r. repeat split; try assumption.
    intros rest. simpl. now rewrite Hstep.
  - intros addrs st1 Hsim. exact (vm_simulate_pageTable p addrs st st1 Hsim).
  - intros c s out Hrun.
    destruct (vm_run_inv c s out Hrun)
      as (pt & tlb & addrs & st0 & Hsim & Hlines & _ & Hmisses & Htable & _ & _ & _ & Hinit).
    split.
    + rewrite Hmisses, Hlines.
      now apply (vm_simulate_counter _ _ _ _ Hsim).
    + intros Hrows r Hin Habsent.
      pose proof (vm_simulate_pageTable _ _ _ _ Hsim) as Hsame. simpl in Hsame.
      pose proof (vm_simulate_backed _ _ _ _ Hsim
                    (tlbBacked_invalid _ _ _ (Hinit Hrows)) (Forall_nil_2 _)) as Hall.
      simpl in Hall. rewrite Forall_forall in Hall.
      apply (Hall r); [now rewrite <- Hlines|].
      now rewrite <- Hsame, <- Htable.
Qed.

Lemma unmapped_vpn_faults_after_tlb_miss_witness :
  let p := Vm.Params 32 32 4096 12 20 true 2 1 1 19 in
  let st := Vm.Sim {[ 0x1 := Vm.Entry 0xA "RWX" ]}
              [[Vm.Line false 0 0 "" 0]; [Vm.Line true 0 0xA "RWX" 1]] 1 0 1 1 0 [] in
  exists st',
    Vm.step p st 0x5000 = Normal st' /\
    Vm.ptMisses st' = 1 /\ Vm.tlbSets st' = Vm.tlbSets st.
Proof.
  intros p st.
  destruct (unmapped_vpn_faults_after_tlb_miss p st 0x5000) as [Hstep _].
  - reflexivity.
  - right. eexists. split; reflexivity.
  - destruct Hstep as (st' & r & Hstep & _ & _ & _ & Hm & _ & Htlb & _).
    exists st'. repeat split; assumption.
Defined.

(** * Further properties of the helpers and of the simulators *)

(** ** Clamping and powers of two *)

Section ClampFacts.
Import Bit.

Lemma clamp_nonpos (x bits : Z) : bits <= 0 -> clampBigIntToBits x bits = 0.
Proof. intros Hb. unfold clampBigIntToBits. destruct (Z.leb_spec bits 0); [reflexivity|lia]. Qed.

Lemma ToInt32_pow2_high (k : Z) : 32 <= k -> ToInt32 (2 ^ k) = 0.
Proof.
  intros Hk. unfold ToInt32.
  replace (2 ^ k) with (2 ^ (k - 32) * 2 ^ 32)
    by (rewrite <- Z.pow_add_r by lia; f_equal; lia).
  rewrite Z.add_comm, Z_mod_plus_full. reflexivity.
Qed.

Lemma isPowerOfTwo_pow2 (k : Z) : 0 <= k -> isPowerOfTwo (2 ^ k) = true.
Proof.
  intros Hk. pose proof (Z.pow_pos_nonneg 2 k ltac:(lia) Hk) as Hpos.
  destruct (Z.lt_ge_cases k 31) as [Hsmall|Hbig].
  - apply isPowerOfTwo_exact_below_2_31; [|now exists k].
    apply Z.pow_lt_mono_r; lia.
  - unfold isPowerOfTwo. apply andb_true_iff. split; [lia|]. apply Z.eqb_eq.
    destruct (Z.eq_dec k 31) as [->|Hne]; [reflexivity|].
    rewrite ToInt32_pow2_high by lia. apply Z.land_0_l.
Qed.
End ClampFacts.

(** X1. [clampBigIntToBits] is reduction modulo [2^bits]: the result is in
    [0, 2^bits), clamping twice is clamping once, a value already in range
    is left as it is, and a width of zero or less gives 0. *)
Theorem clampBigIntToBits_range (x bits : Z) :
  0 <= Bit.clampBigIntToBits x bits /\
  (0 < bits -> Bit.clampBigIntToBits x bits = x mod 2 ^ bits) /\
  (0 < bits -> Bit.clampBigIntToBits x bits < 2 ^ bits) /\
  (bits <= 0 -> Bit.clampBigIntToBits x bits = 0) /\
  Bit.clampBigIntToBits (Bit.clampBigIntToBits x bits) bits = Bit.clampBigIntToBits x bits /\
  (0 <= x < 2 ^ bits -> Bit.clampBigIntToBits x bits = x).
Proof.
  destruct (Z.lt_ge_cases 0 bits) as [Hpos|Hneg].
  - pose proof (Z.pow_pos_nonneg 2 bits ltac:(lia) ltac:(lia)) as Hpow.
    pose proof (Z.mod_pos_bound x (2 ^ bits) Hpow) as Hmod.
    rewrite !clamp_mod by assumption.
    repeat split; try lia.
    + apply Z.mod_mod. lia.
    + intros Hx. apply Z.mod_small. lia.
  - rewrite !clamp_nonpos by assumption. repeat split; try lia.
    intros [Hx0 Hx].
    destruct (Z.eq_dec bits 0) as [->|Hne].
    + simpl in Hx. lia.
    + rewrite Z.pow_neg_r in Hx by lia. lia.
Qed.

Lemma clampBigIntToBits_range_witness :
  Bit.clampBigIntToBits 0x1FFFFFFFF 32 = 0x1FFFFFFFF mod 2 ^ 32 /\
  Bit.clampBigIntToBits 0x1004 32 = 0x1004.
Proof.
  destruct (clampBigIntToBits_range 0x1FFFFFFFF 32) as (_ & Hmod & _).
  destruct (clampBigIntToBits_range 0x1004 32) as (_ & _ & _ & _ & _ & Hid).
  split; [apply Hmod; lia|apply Hid; lia].
Defined.

(** X2. No power of two is rejected: for every power of two that a
    [Number] holds, that is for every exponent [k] from 0 to 1023,
    [isPowerOfTwo (2^k)] holds and [log2IntPow2 (2^k)] returns [k]. *)
Theorem log2IntPow2_of_pow2 (k : Z) :
  0 <= k <= 1023 ->
  Bit.isPowerOfTwo (2 ^ k) = true /\ Bit.log2IntPow2 (2 ^ k) = Normal k.
Proof.
  intros [Hk Hbound]. pose proof (isPowerOfTwo_pow2 k Hk) as Hpow.
  split; [assumption|].
  unfold Bit.log2IntPow2. rewrite Hpow. simpl.
  rewrite Z.log2_pow2 by assumption. rewrite ToInt32_small; [reflexivity|lia].
Qed.

Lemma log2IntPow2_of_pow2_witness :
  Bit.isPowerOfTwo (2 ^ 40) = true /\ Bit.log2IntPow2 (2 ^ 40) = Normal 40.
Proof. apply (log2IntPow2_of_pow2 40). lia. Defined.

(** ** Printing and reading numbers *)

Section PrintFacts.
Import Js Bit Spec.

Local Ltac by_cases_on_char c :=
  destruct c as [[] [] [] [] [] [] [] []]; vm_compute; try reflexivity; try discriminate; auto.

Lemma digitVal_upperChar c : digitVal (upperChar c) = digitVal c.
Proof. by_cases_on_char c. Qed.

Lemma isHexDigit_upperChar c : isHexDigit (upperChar c) = isHexDigit c.
Proof. by_cases_on_char c. Qed.

Lemma digitsValue_upper radix acc s :
  digitsValue radix acc (toUpperCase s) = digitsValue radix acc s.
Proof.
  revert acc. induction s as [|c s IH]; intros acc; simpl; [reflexivity|].
  now rewrite digitVal_upperChar, IH.
Qed.

Lemma allChars_hex_upper s : allChars isHexDigit (toUpperCase s) = allChars isHexDigit s.
Proof.
  induction s as [|c s IH]; simpl; [reflexivity|].
  now rewrite isHexDigit_upperChar, IH.
Qed.

Lemma isEmpty_upper s : isEmpty (toUpperCase s) = isEmpty s.
Proof. now destruct s. Qed.

Lemma hex_uint_acc_value (d : Hexadecimal.uint) (acc : positive) :
  Zpos (Pos.of_hex_uint_acc d acc)
  = digitsValue 16 (Zpos acc) (HexadecimalString.NilEmpty.string_of_uint d).
Proof.
  revert acc. induction d; intros acc; simpl; [reflexivity|..];
    rewrite IHd; f_equal; vm_compute digitVal; lia.
Qed.

Lemma hex_uint_value (d : Hexadecimal.uint) :
  Z.of_N (Pos.of_hex_uint d)
  = digitsValue 16 0 (HexadecimalString.NilEmpty.string_of_uint d).
Proof.
  induction d; simpl; [reflexivity|exact IHd|..];
    rewrite hex_uint_acc_value; reflexivity.
Qed.

Lemma hex_uint_digits (d : Hexadecimal.uint) :
  allChars isHexDigit (HexadecimalString.NilEmpty.string_of_uint d) = true.
Proof. induction d; simpl; [reflexivity|..]; exact IHd. Qed.

Lemma hex_uint_nonnil (d : Hexadecimal.uint) :
  d <> Hexadecimal.Nil ->
  HexadecimalString.NilZero.string_of_uint d = HexadecimalString.NilEmpty.string_of_uint d /\
  isEmpty (HexadecimalString.NilEmpty.string_of_uint d) = false.
Proof. destruct d; [contradiction|..]; intros _; split; reflexivity. Qed.

(** The digits printed for a non-negative number: not empty, hexadecimal,
    and of the value of the number. *)
Lemma hex_digits_of_nonneg (x : Z) :
  0 <= x ->
  let s := HexadecimalString.NilZero.string_of_int (Z.to_hex_int x) in
  isEmpty s = false /\ allChars isHexDigit s = true /\ digitsValue 16 0 s = x.
Proof.
  intros Hx. destruct x as [|p|p]; [now vm_compute| |lia].
  simpl.
  destruct (hex_uint_nonnil _ (HexadecimalPos.Unsigned.to_uint_nonnil p)) as [-> Hne].
  split; [exact Hne|]. split; [apply hex_uint_digits|].
  now rewrite <- hex_uint_value, HexadecimalPos.Unsigned.of_to.
Qed.

Lemma zeros_padding (k : nat) (s : string) :
  exists z,
    String.concat "" (replicate k "0") +:+ s = z +:+ s /\
    String.length z = k /\
    allChars isHexDigit z = true /\ allChars (charEq "0") z = true /\
    forall radix, digitsValue radix 0 (z +:+ s) = digitsValue radix 0 s.
Proof.
  induction k as [|k (z & Heq & Hlen & Hhex & Hdig & Hval)].
  - exists "". repeat split.
  - exists (String "0" z). simpl replicate.
    assert (Hcat : String.concat "" ("0" :: replicate k "0")
                   = String "0" (String.concat "" (replicate k "0"))).
    { destruct k; reflexivity. }
    rewrite Hcat. repeat split.
    + change (String "0" (String.concat "" (replicate k "0")) +:+ s)
        with (String "0" (String.concat "" (replicate k "0") +:+ s)).
      now rewrite Heq.
    + simpl. now rewrite Hlen.
    + simpl. exact Hhex.
    + simpl. exact Hdig.
    + intros radix. change (String "0" z +:+ s) with (String "0" (z +:+ s)).
      simpl. change (digitVal "0") with 0. rewrite Z.add_0_r, Z.mul_0_l. apply Hval.
Qed.

Lemma allChars_app (p : ascii -> bool) (a b : string) :
  allChars p (a +:+ b) = allChars p a && allChars p b.
Proof.
  induction a as [|c a IH]; [reflexivity|].
  change (String c a +:+ b) with (String c (a +:+ b)). simpl.
  now rewrite IH, andb_assoc.
Qed.

Lemma isEmpty_app_r (a b : string) : isEmpty b = false -> isEmpty (a +:+ b) = false.
Proof. intros Hb. destruct a; [exact Hb|reflexivity]. Qed.

Lemma length_app_string (a b : string) :
  String.length (a +:+ b) = (String.length a + String.length b)%nat.
Proof.
  induction a as [|c a IH]; [reflexivity|].
  change (String c a +:+ b) with (String c (a +:+ b)). simpl. now rewrite IH.
Qed.
End PrintFacts.

(** X3. Reading back what [toHex] prints: for every non-negative value
    and every padding width, [parseHexToBigInt (toHex x minNibbles)]
    returns [x]. *)
Theorem parseHex_of_toHex (x minNibbles : Z) :
  0 <= x -> Bit.parseHexToBigInt (Bit.toHex x minNibbles) = Normal x.
Proof.
  intros Hx. unfold Bit.toHex.
  destruct (hex_digits_of_nonneg x Hx) as (Hne & Hhex & Hval).
  set (digits := Js.toUpperCase _).
  assert (Hd : Js.isEmpty digits = false /\ Js.allChars Js.isHexDigit digits = true /\
               Js.digitsValue 16 0 digits = x).
  { subst digits. now rewrite isEmpty_upper, allChars_hex_upper, digitsValue_upper. }
  destruct Hd as (Hdne & Hdhex & Hdval).
  assert (Hbody : forall s, Js.isHexLiteral s = true -> Js.hexValue s = x ->
                    Bit.parseHexToBigInt ("0x" +:+ s) = Normal x).
  { intros s Hs <-. change ("0x" +:+ s) with (String "0" (String "x" s)).
    now apply parseHex_prefixed. }
  destruct (0 <? minNibbles).
  - unfold Js.padStart0.
    destruct (zeros_padding (Z.to_nat (minNibbles - Z.of_nat (String.length digits))) digits)
      as (z & -> & _ & Hzhex & _ & Hzval).
    apply Hbody.
    + unfold Js.isHexLiteral. rewrite isEmpty_app_r by assumption.
      now rewrite allChars_app, Hzhex, Hdhex.
    + unfold Js.hexValue. now rewrite Hzval.
  - apply Hbody; [|assumption].
    unfold Js.isHexLiteral. now rewrite Hdne, Hdhex.
Qed.

Lemma parseHex_of_toHex_witness :
  Bit.parseHexToBigInt (Bit.toHex 0xA004 8) = Normal 0xA004.
Proof. apply parseHex_of_toHex. lia. Defined.

Section BinaryFacts.
Import Js Bit.

Lemma append_assoc_string (a b c : string) : (a +:+ b) +:+ c = a +:+ (b +:+ c).
Proof.
  induction a as [|x a IH]; [reflexivity|].
  change (String x a +:+ b) with (String x (a +:+ b)).
  change (String x (a +:+ b) +:+ c) with (String x ((a +:+ b) +:+ c)).
  now rewrite IH.
Qed.

Lemma digitsValue_app radix acc (a b : string) :
  digitsValue radix acc (a +:+ b) = digitsValue radix (digitsValue radix acc a) b.
Proof.
  revert acc. induction a as [|c a IH]; intros acc; [reflexivity|].
  change (String c a +:+ b) with (String c (a +:+ b)). simpl. apply IH.
Qed.

Lemma binDigits_acc (p : positive) (acc : string) :
  binDigits p acc = binDigits p "" +:+ acc.
Proof.
  revert acc. induction p as [p IH|p IH|]; intros acc; simpl; [| |reflexivity].
  - rewrite (IH (String "1" acc)), (IH "1"), append_assoc_string. reflexivity.
  - rewrite (IH (String "0" acc)), (IH "0"), append_assoc_string. reflexivity.
Qed.

Lemma binDigits_value (p : positive) : digitsValue 2 0 (binDigits p "") = Zpos p.
Proof.
  induction p as [p IH|p IH|]; simpl; [| |reflexivity];
    rewrite binDigits_acc, digitsValue_app, IH; unfold digitsValue.
  - change (digitVal "1") with 1. lia.
  - change (digitVal "0") with 0. lia.
Qed.

Lemma binDigits_length (p : positive) (b : nat) :
  Zpos p < 2 ^ Z.of_nat b -> (String.length (binDigits p "") <= b)%nat.
Proof.
  revert b. induction p as [p IH|p IH|]; intros b Hb.
  - destruct b as [|b]; [simpl in Hb; lia|].
    rewrite Nat2Z.inj_succ, Z.pow_succ_r in Hb by lia.
    simpl. rewrite binDigits_acc, length_app_string. simpl.
    specialize (IH b ltac:(lia)). lia.
  - destruct b as [|b]; [simpl in Hb; lia|].
    rewrite Nat2Z.inj_succ, Z.pow_succ_r in Hb by lia.
    simpl. rewrite binDigits_acc, length_app_string. simpl.
    specialize (IH b ltac:(lia)). lia.
  - destruct b as [|b]; [simpl in Hb; lia|]. simpl. lia.
Qed.

Lemma binDigits_binary (p : positive) (acc : string) :
  allChars (fun c => charEq c "0" || charEq c "1") acc = true ->
  allChars (fun c => charEq c "0" || charEq c "1") (binDigits p acc) = true.
Proof.
  revert acc. induction p as [p IH|p IH|]; intros acc Hacc; simpl.
  - apply IH. simpl. exact Hacc.
  - apply IH. simpl. exact Hacc.
  - exact Hacc.
Qed.

Lemma toStringBase2_facts (x : Z) (b : nat) :
  0 <= x < 2 ^ Z.of_nat b -> (0 < b)%nat ->
  (String.length (toStringBase2 x) <= b)%nat /\
  allChars isDigit (toStringBase2 x) = true /\
  allChars (fun c => charEq c "0" || charEq c "1") (toStringBase2 x) = true /\
  digitsValue 2 0 (toStringBase2 x) = x.
Proof.
  intros [Hx0 Hx] Hb. destruct x as [|p|p]; [|..|lia].
  - simpl. repeat split. lia.
  - simpl. split; [now apply binDigits_length|].
    pose proof (binDigits_binary p "" eq_refl) as Hbin.
    split; [|split; [exact Hbin|apply binDigits_value]].
    revert Hbin. apply allChars_impl. intros c Hc.
    apply orb_true_iff in Hc as [Hc|Hc]; apply charEq_true in Hc; subst c; reflexivity.
Qed.
End BinaryFacts.

(** X4. The binary rendering of a value that fits the width: for
    [0 <= x < 2^bits] with [bits > 0], [toBin x bits] has exactly [bits]
    characters, all of them 0 or 1, and read in base 2 it is [x]. *)
Theorem toBin_fixed_width (x bits : Z) :
  0 < bits -> 0 <= x < 2 ^ bits ->
  String.length (Bit.toBin x (Some bits)) = Z.to_nat bits /\
  Js.allChars (fun c => Js.charEq c "0" || Js.charEq c "1") (Bit.toBin x (Some bits)) = true /\
  Js.digitsValue 2 0 (Bit.toBin x (Some bits)) = x.
Proof.
  intros Hb Hx. unfold Bit.toBin, Js.padStart0.
  destruct (toStringBase2_facts x (Z.to_nat bits)) as (Hlen & _ & Hbin & Hval);
    [rewrite Z2Nat.id by lia; exact Hx|lia|].
  set (s := Bit.toStringBase2 x) in *.
  destruct (zeros_padding (Z.to_nat (bits - Z.of_nat (String.length s))) s)
    as (z & -> & Hzlen & _ & Hzdig & Hzval).
  split; [|split].
  - rewrite length_app_string, Hzlen. lia.
  - rewrite allChars_app, Hbin, andb_true_r.
    revert Hzdig. apply allChars_impl. intros c Hc.
    apply charEq_true in Hc. subst c. reflexivity.
  - now rewrite Hzval.
Qed.

Lemma toBin_fixed_width_witness :
  String.length (Bit.toBin 0x14 (Some 8)) = 8%nat /\
  Js.digitsValue 2 0 (Bit.toBin 0x14 (Some 8)) = 0x14.
Proof.
  destruct (toBin_fixed_width 0x14 8) as (Hlen & _ & Hval); [lia|lia|].
  split; assumption.
Defined.

Section BlankFacts.
Import Js Bit Spec.

Lemma digitVal_nonneg c : 0 <= digitVal c.
Proof.
  assert (H : (0 <=? digitVal c) = true)
    by (destruct c as [[] [] [] [] [] [] [] []]; vm_compute; reflexivity).
  now apply Z.leb_le.
Qed.

Lemma digitsValue_nonneg radix acc s :
  0 <= radix -> 0 <= acc -> 0 <= digitsValue radix acc s.
Proof.
  intros Hr. revert acc. induction s as [|c s IH]; intros acc Hacc; simpl; [assumption|].
  apply IH. pose proof (digitVal_nonneg c). nia.
Qed.

Lemma trimStart_blank s : isEmpty (trimStart s) = allChars isSpace s.
Proof.
  induction s as [|c s IH]; simpl; [reflexivity|].
  destruct (isSpace c); [exact IH|reflexivity].
Qed.

Lemma trimEnd_blank s : isEmpty (trimEnd s) = allChars isSpace s.
Proof.
  induction s as [|c s IH]; simpl; [reflexivity|].
  rewrite IH. destruct (isSpace c); simpl; [|reflexivity].
  now destruct (allChars isSpace s).
Qed.

Lemma trim_blank s : isEmpty (trim s) = allChars isSpace s.
Proof.
  unfold trim. rewrite trimEnd_blank.
  induction s as [|c s IH]; simpl; [reflexivity|].
  destruct (isSpace c) eqn:E; simpl; [exact IH|]. now rewrite E.
Qed.
End BlankFacts.

(** X5. The two errors of [parseHexToBigInt] on an ASCII input, and the
    sign of its result: the error is [Address is empty] exactly when the
    input is empty or all white space; every other error is the message
    that quotes the input; a returned value is never negative. *)
Theorem parseHexToBigInt_errors (input : string) :
  Spec.asciiText input = true ->
  (Bit.parseHexToBigInt input = Throw "Address is empty" <->
   Js.allChars Js.isSpace input = true) /\
  (forall msg, Bit.parseHexToBigInt input = Throw msg ->
     msg = "Address is empty" \/ msg = Spec.invalidHex input) /\
  (forall v, Bit.parseHexToBigInt input = Normal v -> 0 <= v).
Proof.
  intros _.
  rewrite parseHexToBigInt_unfold, isEmpty_lower, trim_blank.
  destruct (Js.allChars Js.isSpace input).
  { split; [split; reflexivity|]. split; [|discriminate].
    intros msg [= <-]. now left. }
  destruct (negb (Js.isHexLiteral (Spec.hexBody input))).
  - split; [split; discriminate|]. split; [|discriminate].
    intros msg [= <-]. now right.
  - split; [split; discriminate|]. split; [discriminate|].
    intros v [= <-]. apply digitsValue_nonneg; lia.
Qed.

Lemma parseHexToBigInt_errors_witness :
  Bit.parseHexToBigInt " " = Throw "Address is empty" /\ 0 <= 0x1F.
Proof.
  destruct (parseHexToBigInt_errors " " eq_refl) as ([_ Hblank] & _).
  destruct (parseHexToBigInt_errors "0x1F" eq_refl) as (_ & _ & Hpos).
  split; [now apply Hblank|now apply (Hpos 0x1F)].
Defined.

(** ** The masks of the cache report *)

Section MaskFacts.
Import Bit Cache.

Lemma testbit_shifted_mask (b s n : Z) :
  0 <= b -> 0 <= s -> 0 <= n ->
  Z.testbit (Z.shiftl (maskBits b) s) n = (s <=? n) && (n <? s + b).
Proof.
  intros Hb Hs Hn. rewrite Z.shiftl_spec by assumption.
  destruct (Z.leb_spec s n) as [Hle|Hgt].
  - rewrite testbit_maskBits by lia. simpl.
    destruct (Z.ltb_spec (n - s) b), (Z.ltb_spec n (s + b)); lia || reflexivity.
  - apply Z.testbit_neg_r. lia.
Qed.

Lemma testbit_clamp (x bits n : Z) :
  0 <= n -> Z.testbit (clampBigIntToBits x bits) n = Z.testbit x n && (n <? bits).
Proof.
  intros Hn. unfold clampBigIntToBits.
  destruct (Z.leb_spec bits 0) as [Hle|Hgt].
  - rewrite Z.bits_0. destruct (Z.ltb_spec n bits); [lia|]. now rewrite andb_false_r.
  - now rewrite Z.land_spec, testbit_maskBits by lia.
Qed.
End MaskFacts.

Local Ltac solve_bits :=
  repeat match goal with
         | |- context [(?a <=? ?b)] => destruct (Z.leb_spec a b)
         | |- context [(?a <? ?b)] => destruct (Z.ltb_spec a b)
         end;
  simpl; rewrite ?andb_true_r, ?andb_false_r, ?orb_false_r, ?orb_true_r;
  try reflexivity; try lia.

(** X6. The three masks of the cache report, for a split into non-negative
    widths that add up to [addrBits]: together they cover exactly the low
    [addrBits] bits, no two of them share a bit, and masking a clamped
    address with each of them gives the tag, the index and the offset at
    their places in the address. *)
Theorem cache_masks_partition (d : Cache.derived) (addrBits x : Z) :
  0 <= Cache.tagBits d -> 0 <= Cache.indexBits d -> 0 <= Cache.offsetBits d ->
  Cache.tagBits d + Cache.indexBits d + Cache.offsetBits d = addrBits ->
  let a := Bit.clampBigIntToBits x addrBits in
  Z.lor (Z.lor (Cache.tagMask d) (Cache.indexMask d)) (Cache.offsetMask d)
    = Bit.maskBits addrBits /\
  Z.land (Cache.tagMask d) (Cache.indexMask d) = 0 /\
  Z.land (Cache.tagMask d) (Cache.offsetMask d) = 0 /\
  Z.land (Cache.indexMask d) (Cache.offsetMask d) = 0 /\
  Z.land a (Cache.tagMask d)
    = Z.shiftl (Cache.tagOf (Cache.offsetBits d) (Cache.indexBits d) a)
        (Cache.indexBits d + Cache.offsetBits d) /\
  Z.land a (Cache.indexMask d)
    = Z.shiftl (Cache.indexOf (Cache.offsetBits d) (Cache.indexBits d) a) (Cache.offsetBits d) /\
  Z.land a (Cache.offsetMask d) = Cache.offsetOf (Cache.offsetBits d) a.
Proof.
  intros Ht Hi Ho Hsum a.
  unfold Cache.tagMask, Cache.indexMask, Cache.offsetMask.
  assert (Hindex : Cache.indexOf (Cache.offsetBits d) (Cache.indexBits d) a
                   = Z.land (Z.shiftr a (Cache.offsetBits d)) (Bit.maskBits (Cache.indexBits d))).
  { unfold Cache.indexOf. destruct (Z.eqb_spec (Cache.indexBits d) 0) as [E|]; [|reflexivity].
    rewrite E, maskBits_nonpos by lia. now rewrite Z.land_0_r. }
  rewrite Hindex. unfold Cache.tagOf, Cache.offsetOf.
  set (tb := Cache.tagBits d) in *. set (ib := Cache.indexBits d) in *.
  set (ob := Cache.offsetBits d) in *.
  repeat split; apply Z.bits_inj'; intros n Hn;
    rewrite ?Z.lor_spec, ?Z.land_spec, ?Z.bits_0.
  - rewrite !testbit_shifted_mask, !testbit_maskBits by lia. solve_bits.
  - rewrite !testbit_shifted_mask by lia. solve_bits.
  - rewrite !testbit_shifted_mask, testbit_maskBits by lia. solve_bits.
  - rewrite !testbit_shifted_mask, testbit_maskBits by lia. solve_bits.
  - rewrite testbit_shifted_mask, Z.shiftl_spec by lia.
    destruct (Z.leb_spec (ib + ob) n) as [Hle|Hgt].
    + rewrite Z.shiftr_spec by lia. replace (n - (ib + ob) + (ob + ib)) with n by lia.
      subst a. rewrite testbit_clamp by lia. solve_bits.
    + rewrite (Z.testbit_neg_r _ (n - (ib + ob))) by lia. now rewrite andb_false_r.
  - rewrite testbit_shifted_mask, Z.shiftl_spec by lia.
    destruct (Z.leb_spec ob n) as [Hle|Hgt].
    + rewrite Z.land_spec, Z.shiftr_spec, testbit_maskBits by lia.
      replace (n - ob + ob) with n by lia. solve_bits.
    + rewrite (Z.testbit_neg_r _ (n - ob)) by lia. now rewrite andb_false_r.
Qed.

Lemma cache_masks_partition_witness :
  let d := Cache.Derived 64 64 4 6 22 in
  Z.lor (Z.lor (Cache.tagMask d) (Cache.indexMask d)) (Cache.offsetMask d) = 0xFFFFFFFF /\
  Z.land (Cache.tagMask d) (Cache.indexMask d) = 0.
Proof.
  intros d.
  destruct (cache_masks_partition d 32 0x12345678) as (Hcover & Hdisjoint & _);
    [simpl; lia..|reflexivity|].
  split; assumption.
Defined.

(** ** The split derived by the cache configuration *)

Section DeriveFacts.
Import Bit Cache.

Local Ltac split_checks H :=
  repeat match type of H with
         | context [if ?b then _ else _] =>
             let E := fresh "E" in destruct b eqn:E; simpl in H; try discriminate H
         end.

Lemma derive_full_inv (c : config) (d : derived) :
  derive c = Normal d ->
  0 < cacheSize c /\ 0 < blockSize c /\ 0 < assoc c /\
  isPowerOfTwo (blockSize c) = true /\
  Z.rem (cacheSize c) (blockSize c) = 0 /\
  numBlocks d = cacheSize c / blockSize c /\
  Z.rem (numBlocks d) (assoc c) = 0 /\
  numSets d = numBlocks d / assoc c /\
  isPowerOfTwo (numSets d) = true /\
  offsetBits d = ToInt32 (Z.log2 (blockSize c)) /\
  indexBits d = (if numSets d =? 1 then 0 else ToInt32 (Z.log2 (numSets d))).
Proof.
  unfold derive, throwIf, log2IntPow2. intros H. simpl in H.
  split_checks H.
  all: injection H as <-; simpl.
  all: repeat match goal with
              | E : negb _ = false |- _ => apply negb_false_iff in E
              | E : (_ || _) = false |- _ => apply orb_false_iff in E as [? ?]
              | E : (_ =? 0) = true |- _ => apply Z.eqb_eq in E
              end.
  all: repeat split; try lia; try assumption; try reflexivity.
  all: match goal with
       | E : (_ =? 1) = _ |- _ => now rewrite E
       end.
Qed.

Lemma exact_division (a b : Z) : 0 < a -> 0 < b -> Z.rem a b = 0 -> a = b * (a / b).
Proof.
  intros Ha Hb Hrem. rewrite Z.rem_mod_nonneg in Hrem by lia.
  apply Z_div_exact_full_2; lia.
Qed.

Lemma log2IntPow2_exact (n : Z) :
  0 < n < 2 ^ 31 -> isPowerOfTwo n = true ->
  0 <= ToInt32 (Z.log2 n) /\ 2 ^ ToInt32 (Z.log2 n) = n.
Proof.
  intros Hn Hpow. apply isPowerOfTwo_exact_below_2_31 in Hpow as (k & Hk & ->); [|lia].
  rewrite Z.log2_pow2 by assumption.
  assert (k < 31). { apply (Z.pow_lt_mono_r_iff 2); lia. }
  rewrite ToInt32_small by lia. split; [assumption|reflexivity].
Qed.
End DeriveFacts.

(** X7. The split of an accepted cache configuration: the sets, ways and
    block size multiply back to the cache size, the three widths add up to
    the address width, and, for a cache below 2^31 bytes, the widths are
    the logarithms: [blockSize = 2^offsetBits] and [numSets = 2^indexBits]. *)
Theorem cache_derive_sound (c : Cache.config) (d : Cache.derived) :
  Cache.derive c = Normal d ->
  Cache.numSets d * Cache.assoc c * Cache.blockSize c = Cache.cacheSize c /\
  Cache.numBlocks d = Cache.numSets d * Cache.assoc c /\
  Cache.tagBits d + Cache.indexBits d + Cache.offsetBits d = Cache.addrBits c /\
  0 <= Cache.tagBits d /\
  (Cache.cacheSize c < 2 ^ 31 ->
   0 <= Cache.offsetBits d /\ 0 <= Cache.indexBits d /\
   2 ^ Cache.offsetBits d = Cache.blockSize c /\
   2 ^ Cache.indexBits d = Cache.numSets d).
Proof.
  intros Hd.
  pose proof (derive_inv c d Hd) as (_ & Hsets & _ & Htag & Hsum & _).
  pose proof (derive_full_inv c d Hd)
    as (Hcs & Hbs & Hassoc & Hpow & Hrem1 & Hblocks & Hrem2 & Hnum & Hpow2 & Hob & Hib).
  pose proof (exact_division _ _ Hcs Hbs Hrem1) as Hdiv1. rewrite <- Hblocks in Hdiv1.
  assert (Hnb : 0 < Cache.numBlocks d) by nia.
  pose proof (exact_division _ _ Hnb Hassoc Hrem2) as Hdiv2. rewrite <- Hnum in Hdiv2.
  split; [nia|]. split; [lia|]. split; [lia|]. split; [assumption|].
  intros Hsmall.
  assert (Cache.blockSize c < 2 ^ 31) by nia.
  assert (Cache.numSets d < 2 ^ 31) by nia.
  destruct (log2IntPow2_exact (Cache.blockSize c) ltac:(lia) Hpow) as [Hob0 Hob2].
  rewrite <- Hob in Hob0, Hob2.
  split; [assumption|]. rewrite Hib.
  destruct (Z.eqb_spec (Cache.numSets d) 1) as [E|_].
  - rewrite E. repeat split; [lia|assumption].
  - destruct (log2IntPow2_exact (Cache.numSets d) ltac:(lia) Hpow2) as [Hib0 Hib2].
    repeat split; assumption.
Qed.

Lemma cache_derive_sound_witness :
  let c := Cache.Config 32 1024 16 2 in
  let d := Cache.Derived 64 32 4 5 23 in
  Cache.numSets d * Cache.assoc c * Cache.blockSize c = 1024 /\
  2 ^ Cache.indexBits d = Cache.numSets d.
Proof.
  intros c d.
  destruct (cache_derive_sound c d eq_refl) as (Hsize & _ & _ & _ & Hlog).
  split; [exact Hsize|].
  destruct Hlog as (_ & _ & _ & Hsets); [simpl; lia|exact Hsets].
Defined.

(** ** Eviction and recency in the cache *)

Section CacheStepFacts.
Import Bit Spec Cache.

(** The two ways an access returns. *)
Lemma step_cases (d : derived) (st st' : sim) (a : Z) :
  step d st a = Normal st' ->
  let index := indexOf (offsetBits d) (indexBits d) a in
  let t := tagOf (offsetBits d) (indexBits d) a in
  let off := offsetOf (offsetBits d) a in
  let setIdx := Z.to_nat index in
  exists setLines,
    sets st !! setIdx = Some setLines /\
    ((exists w ln,
        list_find (fun ln => valid ln = true /\ tag ln = t) setLines = Some (w, ln) /\
        st' = Sim (<[setIdx := <[w := Line (valid ln) (tag ln) (time st + 1)]> setLines]> (sets st))
                (time st + 1) (hits st + 1) (misses st)
                (lines st ++ [Access a t index off HIT setIdx w None])) \/
     (exists v,
        findHit t setLines = None /\
        setLines !! pickVictimLRU setLines = Some v /\
        st' = Sim (<[setIdx := <[pickVictimLRU setLines := Line true t (time st + 1)]> setLines]>
                     (sets st))
                (time st + 1) (hits st) (misses st + 1)
                (lines st ++ [Access a t index off MISS setIdx (pickVictimLRU setLines)
                                (if valid v then Some (tag v) else None)]))).
Proof.
  unfold step. intros H. simpl.
  destruct (sets st !! _) as [setLines|] eqn:Hset; [|discriminate].
  exists setLines. split; [reflexivity|].
  destruct (findHit _ setLines) as [w|] eqn:Hfind.
  - left. unfold findHit in Hfind.
    apply fmap_Some in Hfind as ([w' ln] & Hfind & ->). simpl in H.
    pose proof Hfind as (Hln & _)%list_find_Some. rewrite Hln in H.
    injection H as <-. exists w', ln. split; [assumption|reflexivity].
  - right. destruct (setLines !! Cache.pickVictimLRU setLines) as [v|] eqn:Hv; [|discriminate].
    injection H as <-. exists v. repeat split.
Qed.

Lemma last_snoc_record {A : Type} (l : list A) (r r' : A) :
  last (l ++ [r]) = Some r' -> r = r'.
Proof. rewrite last_snoc. now intros [= ->]. Qed.

(** Where a line with the tag is put in front of every other match, the
    lookup loop finds it. *)
Lemma findHit_after_insert (setLines : list line) (w : nat) (x : line) (t : Z) :
  (w < length setLines)%nat ->
  valid x = true -> tag x = t ->
  (forall j y, (j < w)%nat -> setLines !! j = Some y -> ~ (valid y = true /\ tag y = t)) ->
  findHit t (<[w := x]> setLines) = Some w.
Proof.
  intros Hw Hv Ht Hbefore. unfold findHit.
  assert (Hfind : list_find (fun ln => valid ln = true /\ tag ln = t) (<[w := x]> setLines)
                  = Some (w, x)).
  { apply list_find_Some. split; [now apply list_lookup_insert_eq|]. split; [auto|].
    intros j y Hj Hlt. rewrite list_lookup_insert_ne in Hj by lia. now apply (Hbefore j y). }
  simpl in *. now rewrite Hfind.
Qed.

Lemma step_keeps_stamps (d : derived) (st st' : sim) (a : Z) :
  step d st a = Normal st' -> stampsBounded st -> stampsBounded st'.
Proof.
  intros Hstep Hb. unfold stampsBounded in *.
  assert (Hweak : Forall (Forall (fun l => lastUsed l <= time st + 1)) (sets st)).
  { eapply Forall_impl; [exact Hb|]. intros s Hs.
    eapply Forall_impl; [exact Hs|]. simpl. intros l Hl. lia. }
  destruct (step_cases d st st' a Hstep) as (setLines & Hset & Hcase).
  pose proof (Forall_lookup_1 _ _ _ _ Hweak Hset) as Hlines.
  destruct Hcase as [(w & ln & _ & ->)|(v & _ & _ & ->)]; simpl.
  - apply Forall_insert; [assumption|]. apply Forall_insert; [assumption|]. simpl. lia.
  - apply Forall_insert; [assumption|]. apply Forall_insert; [assumption|]. simpl. lia.
Qed.

Lemma simulate_keeps_stamps (d : derived) (addrs : list Z) :
  forall st st', simulate d st addrs = Normal st' -> stampsBounded st -> stampsBounded st'.
Proof.
  induction addrs as [|a rest IH]; intros st st' Hsim Hb; simpl in Hsim.
  - now injection Hsim as <-.
  - destruct (step d st a) as [st1|] eqn:Hstep; simpl in Hsim; [|discriminate].
    apply (IH st1 st' Hsim). now apply (step_keeps_stamps d st st1 a).
Qed.

Lemma initCache_stamps (n assoc : Z) : stampsBounded (Sim (initCache n assoc) 0 0 0 []).
Proof.
  unfold stampsBounded, initCache. simpl.
  apply Forall_replicate, Forall_replicate. simpl. lia.
Qed.
End CacheStepFacts.

(** X8. A miss evicts a line only from a full set: the record of an access
    names an evicted tag exactly when the access missed, every line of its
    set was valid, and the tag is the one the victim way held; a miss in a
    set with an invalid line fills an invalid way and evicts nothing. *)
Theorem eviction_only_from_full_set
    (d : Cache.derived) (st st' : Cache.sim) (a : Z) (r : Cache.access) :
  Cache.step d st a = Normal st' ->
  last (Cache.lines st') = Some r ->
  exists setLines,
    Cache.sets st !! Cache.a_set r = Some setLines /\
    (forall t,
       Cache.a_evicted r = Some t <->
       Cache.a_result r = Cache.MISS /\
       Forall (fun l => Cache.valid l = true) setLines /\
       exists v, setLines !! Cache.a_way r = Some v /\ Cache.tag v = t) /\
    (Cache.a_result r = Cache.MISS -> Cache.a_evicted r = None ->
     exists v, setLines !! Cache.a_way r = Some v /\ Cache.valid v = false).
Proof.
  intros Hstep Hlast.
  destruct (step_cases d st st' a Hstep) as (setLines & Hset & Hcase).
  destruct Hcase as [(w & ln & _ & ->)|(v & _ & Hv & ->)]; simpl in Hlast;
    apply last_snoc_record in Hlast; subst r; simpl;
    exists setLines; (split; [exact Hset|]).
  - split; [|discriminate]. intros t. split; [discriminate|]. now intros [[=] _].
  - fold (Cache.pickVictimLRU setLines) in *.
    destruct (Cache.valid v) eqn:Hvalid.
    + split; [|discriminate]. intros t. split.
      * intros [= <-]. split; [reflexivity|]. split; [|now exists v].
        destruct (decide (Forall (fun l => Cache.valid l = true) setLines)) as [Hall|Hsome];
          [assumption|exfalso].
        apply not_Forall_Exists in Hsome; [|apply _].
        assert (Hex : Exists (fun x => line_valid x = false) setLines).
        { eapply Exists_impl; [exact Hsome|]. simpl. intros x Hx.
          destruct (Cache.valid x); [contradiction|reflexivity]. }
        destruct (pickVictimLRU_firstInvalid setLines Hex) as (x & Hx & Hinv & _).
        unfold Cache.pickVictimLRU in Hv. rewrite Hx in Hv. injection Hv as ->.
        simpl in Hinv. congruence.
      * intros (_ & _ & v' & Hv' & <-). rewrite Hv in Hv'. now injection Hv' as <-.
    + split.
      * intros t. split; [discriminate|].
        intros (_ & Hall & _). exfalso.
        rewrite Forall_forall in Hall.
        apply list_elem_of_lookup_2 in Hv. rewrite (Hall v Hv) in Hvalid. discriminate.
      * intros _ _. now exists v.
Qed.

Lemma eviction_only_from_full_set_witness :
  let d := Cache.Derived 2 2 4 1 27 in
  let st := Cache.Sim [[Cache.Line true 7 1]; [Cache.Line false 0 0]] 1 0 1 [] in
  exists st' r,
    Cache.step d st 0x100 = Normal st' /\ last (Cache.lines st') = Some r /\
    Cache.a_evicted r = Some 7.
Proof.
  intros d st. eexists _, _. split; [reflexivity|]. split; [reflexivity|].
  destruct (eviction_only_from_full_set d st _ 0x100 _ eq_refl eq_refl)
    as (setLines & Hset & Hiff & _).
  injection Hset as <-. apply Hiff.
  split; [reflexivity|]. split; [repeat constructor|].
  eexists. split; reflexivity.
Defined.

Section CacheLocality.
Import Bit Spec Cache.

(** What an access leaves in its set: at the way of its record, a valid
    line with its tag, stamped with the new time. *)
Lemma step_leaves_block (d : derived) (st st1 : sim) (a : Z) (r1 : access) :
  step d st a = Normal st1 ->
  last (lines st1) = Some r1 ->
  exists setLines,
    sets st !! a_set r1 = Some setLines /\
    (a_way r1 < length setLines)%nat /\
    a_set r1 = Z.to_nat (indexOf (offsetBits d) (indexBits d) a) /\
    a_tag r1 = tagOf (offsetBits d) (indexBits d) a /\
    time st1 = time st + 1 /\
    sets st1 = <[a_set r1 := <[a_way r1 := Line true (a_tag r1) (time st + 1)]> setLines]> (sets st) /\
    (forall j y, (j < a_way r1)%nat -> setLines !! j = Some y ->
       ~ (valid y = true /\ tag y = a_tag r1)).
Proof.
  intros Hstep Hlast.
  destruct (step_cases d st st1 a Hstep) as (setLines & Hset & Hcase).
  destruct Hcase as [(w & ln & Hfind & ->)|(v & Hmiss & Hv & ->)]; simpl in Hlast;
    apply last_snoc_record in Hlast; subst r1; simpl;
    exists setLines; (split; [exact Hset|]).
  - apply list_find_Some in Hfind as (Hln & [Hvalid Htag] & Hbefore).
    split; [now apply lookup_lt_Some in Hln|]. repeat split.
    + now rewrite Hvalid, Htag.
    + intros j y Hj Hy. now apply (Hbefore j y).
  - split; [now apply lookup_lt_Some in Hv|]. repeat split.
    intros j y Hj Hy. apply findHit_None in Hmiss. rewrite Forall_lookup in Hmiss.
    exact (Hmiss j y Hy).
Qed.
End CacheLocality.

(** X9. An address of the block just accessed hits: after any access,
    hit or miss, the next access with the same tag and index returns HIT in
    the same set and way, and the miss counter does not move. *)
Theorem reaccess_hits (d : Cache.derived) (st st1 : Cache.sim) (a a' : Z) (r1 : Cache.access) :
  Cache.step d st a = Normal st1 ->
  last (Cache.lines st1) = Some r1 ->
  Cache.indexOf (Cache.offsetBits d) (Cache.indexBits d) a'
    = Cache.indexOf (Cache.offsetBits d) (Cache.indexBits d) a ->
  Cache.tagOf (Cache.offsetBits d) (Cache.indexBits d) a'
    = Cache.tagOf (Cache.offsetBits d) (Cache.indexBits d) a ->
  exists st2 r2,
    Cache.step d st1 a' = Normal st2 /\
    last (Cache.lines st2) = Some r2 /\
    Cache.a_result r2 = Cache.HIT /\
    Cache.a_set r2 = Cache.a_set r1 /\ Cache.a_way r2 = Cache.a_way r1 /\
    Cache.misses st2 = Cache.misses st1 /\ Cache.hits st2 = Cache.hits st1 + 1.
Proof.
  intros Hstep Hlast Hidx Htag.
  destruct (step_leaves_block d st st1 a r1 Hstep Hlast)
    as (setLines & Hset & Hway & Hsetidx & Htagr & _ & Hsets & Hbefore).
  assert (Hset1 : Cache.sets st1 !! Cache.a_set r1
                  = Some (<[Cache.a_way r1 := Cache.Line true (Cache.a_tag r1) (Cache.time st + 1)]>
                            setLines)).
  { rewrite Hsets. apply list_lookup_insert_eq. now apply lookup_lt_Some in Hset. }
  unfold Cache.step. rewrite Hidx, Htag, <- Hsetidx, <- Htagr, Hset1.
  rewrite (findHit_after_insert setLines (Cache.a_way r1)
             (Cache.Line true (Cache.a_tag r1) (Cache.time st + 1)) (Cache.a_tag r1)
             Hway eq_refl eq_refl Hbefore).
  rewrite list_lookup_insert_eq by assumption.
  eexists _, _. split; [reflexivity|]. simpl. rewrite last_snoc.
  repeat split.
Qed.

Lemma reaccess_hits_witness :
  let d := Cache.Derived 64 64 4 6 22 in
  let st := Cache.Sim (Cache.initCache 64 1) 0 0 0 [] in
  exists st1 st2 r2,
    Cache.step d st 0x10 = Normal st1 /\
    Cache.step d st1 0x1C = Normal st2 /\
    last (Cache.lines st2) = Some r2 /\ Cache.a_result r2 = Cache.HIT.
Proof.
  intros d st. eexists. 
  destruct (reaccess_hits d st _ 0x10 0x1C _ eq_refl eq_refl eq_refl eq_refl)
    as (st2 & r2 & Hstep & Hlast & Hhit & _).
  exists st2, r2. split; [reflexivity|]. repeat split; assumption.
Defined.

(** X10. In a set of at least two ways the block of an access survives the
    next access: whatever address comes next, hit or miss, in the same set
    or another, the line written by the previous access is still valid with
    its tag at its way, so the least-recently-used victim is never the line
    used last.  The condition on the time stamps holds in every state of a
    run that starts from [initCache]. *)
Theorem most_recent_block_survives
    (d : Cache.derived) (st st1 st2 : Cache.sim) (a a' : Z) (r1 : Cache.access)
    (setLines : list Cache.line) :
  Spec.stampsBounded st ->
  Cache.step d st a = Normal st1 ->
  last (Cache.lines st1) = Some r1 ->
  Cache.sets st !! Cache.a_set r1 = Some setLines ->
  (2 <= length setLines)%nat ->
  Cache.step d st1 a' = Normal st2 ->
  (exists set2 ln,
     Cache.sets st2 !! Cache.a_set r1 = Some set2 /\
     set2 !! Cache.a_way r1 = Some ln /\
     Cache.valid ln = true /\ Cache.tag ln = Cache.a_tag r1) /\
  (forall n assoc addrs stx,
     Cache.simulate d (Cache.Sim (Cache.initCache n assoc) 0 0 0 []) addrs = Normal stx ->
     Spec.stampsBounded stx).
Proof.
  intros Hb Hstep Hlast Hset Hlen Hstep2. split.
  2: { intros n assoc addrs stx Hsim.
       exact (simulate_keeps_stamps d addrs _ stx Hsim (initCache_stamps n assoc)). }
  destruct (step_leaves_block d st st1 a r1 Hstep Hlast)
    as (setLines' & Hset' & Hway & _ & _ & Htime & Hsets & _).
  rewrite Hset in Hset'. injection Hset' as <-.
  set (w1 := Cache.a_way r1) in *. set (i1 := Cache.a_set r1) in *.
  set (L1 := Cache.Line true (Cache.a_tag r1) (Cache.time st + 1)) in *.
  set (set1 := <[w1 := L1]> setLines) in *.
  assert (Hi1 : (i1 < length (Cache.sets st))%nat) by now apply lookup_lt_Some in Hset.
  assert (Hset1 : Cache.sets st1 !! i1 = Some set1).
  { rewrite Hsets. now apply list_lookup_insert_eq. }
  assert (HL1 : set1 !! w1 = Some L1) by now apply list_lookup_insert_eq.
  assert (Hothers : forall j y, j <> w1 -> set1 !! j = Some y ->
                      Cache.lastUsed y <= Cache.time st).
  { intros j y Hj Hy. unfold set1 in Hy. rewrite list_lookup_insert_ne in Hy by congruence.
    unfold Spec.stampsBounded in Hb.
    pose proof (Forall_lookup_1 _ _ _ _ Hb Hset) as Hlines.
    exact (Forall_lookup_1 _ _ _ _ Hlines Hy). }
  destruct (step_cases d st1 st2 a' Hstep2) as (setLines2 & Hset2 & Hcase).
  set (i2 := Z.to_nat (Cache.indexOf (Cache.offsetBits d) (Cache.indexBits d) a')) in *.
  destruct (decide (i2 = i1)) as [Heq|Hne].
  - rewrite Heq, Hset1 in Hset2. injection Hset2 as <-.
    destruct Hcase as [(w & ln & Hfind & ->)|(v & _ & Hv & ->)]; simpl; rewrite Heq.
    + apply list_find_Some in Hfind as (Hln & _ & _).
      eexists. rewrite list_lookup_insert_eq by now rewrite Hsets, length_insert.
      destruct (decide (w = w1)) as [->|Hw].
      * rewrite HL1 in Hln. injection Hln as <-.
        eexists. split; [reflexivity|].
        split; [apply list_lookup_insert_eq; unfold set1; now rewrite length_insert|].
        split; reflexivity.
      * exists L1. split; [reflexivity|].
        rewrite list_lookup_insert_ne by assumption. repeat split. exact HL1.
    + fold (Cache.pickVictimLRU set1) in *.
      assert (Hvictim : Cache.pickVictimLRU set1 <> w1).
      { intros Hsame. rewrite Hsame, HL1 in Hv. injection Hv as <-.
        assert (Hne1 : set1 <> []).
        { intros Hnil. rewrite Hnil in HL1. discriminate. }
        destruct (decide (Forall (fun x => line_valid x = true) set1)) as [Hall|Hsome].
        - destruct (pickVictimLRU_leastRecent set1 Hne1 Hall) as (x & Hx & Hmin & _).
          fold (Cache.pickVictimLRU set1) in Hx. rewrite Hsame, HL1 in Hx. injection Hx as <-.
          set (j := if decide (w1 = 0%nat) then 1%nat else 0%nat).
          assert (Hj : j <> w1 /\ (j < length set1)%nat).
          { unfold j, set1. rewrite length_insert. case_decide; lia. }
          destruct Hj as [Hjne Hjlt].
          destruct (lookup_lt_is_Some_2 set1 j Hjlt) as [y Hy].
          pose proof (Hmin j y Hy) as Hle. pose proof (Hothers j y Hjne Hy) as Hold.
          simpl in Hle. lia.
        - apply not_Forall_Exists in Hsome; [|apply _].
          assert (Hex : Exists (fun x => line_valid x = false) set1).
          { eapply Exists_impl; [exact Hsome|]. simpl. intros x Hx.
            destruct (Cache.valid x); [contradiction|reflexivity]. }
          destruct (pickVictimLRU_firstInvalid set1 Hex) as (x & Hx & Hinv & _).
          fold (Cache.pickVictimLRU set1) in Hx. rewrite Hsame, HL1 in Hx. injection Hx as <-.
          discriminate. }
      eexists. rewrite list_lookup_insert_eq by now rewrite Hsets, length_insert.
      exists L1. split; [reflexivity|].
      rewrite list_lookup_insert_ne by assumption. repeat split. exact HL1.
  - assert (Hkeep : Cache.sets st2 !! i1 = Some set1).
    { destruct Hcase as [(w & ln & _ & ->)|(v & _ & _ & ->)]; simpl;
        now rewrite list_lookup_insert_ne. }
    exists set1, L1. repeat split; assumption.
Qed.

Lemma most_recent_block_survives_witness :
  let d := Cache.Derived 4 2 4 1 27 in
  let st := Cache.Sim [[Cache.Line true 1 1; Cache.Line true 2 2];
                       [Cache.Line false 0 0; Cache.Line false 0 0]] 2 0 2 [] in
  exists st1 st2 set2 ln,
    Cache.step d st 0x20 = Normal st1 /\
    Cache.step d st1 0x60 = Normal st2 /\
    Cache.sets st2 !! 0%nat = Some set2 /\ set2 !! 0%nat = Some ln /\ Cache.tag ln = 1.
Proof.
  intros d st. eexists _, _.
  destruct (most_recent_block_survives d st _ _ 0x20 0x60 _
              [Cache.Line true 1 1; Cache.Line true 2 2]
              ltac:(repeat constructor; simpl; lia) eq_refl eq_refl eq_refl
              ltac:(simpl; lia) eq_refl)
    as [(set2 & ln & Hset2 & Hln & _ & Htag) _].
  exists set2, ln. split; [reflexivity|]. split; [reflexivity|].
  repeat split; assumption.
Defined.

Section ShapeFacts.
Import Bit Spec Cache.

Lemma step_keeps_shape (d : derived) (st st' : sim) (a : Z) :
  step d st a = Normal st' -> length <$> sets st' = length <$> sets st.
Proof.
  intros Hstep.
  destruct (step_cases d st st' a Hstep) as (setLines & Hset & Hcase).
  destruct Hcase as [(w & ln & _ & ->)|(v & _ & _ & ->)]; simpl;
    rewrite list_fmap_insert, length_insert; apply list_insert_id;
    now rewrite list_lookup_fmap, Hset.
Qed.

Lemma simulate_keeps_shape (d : derived) (addrs : list Z) :
  forall st st', simulate d st addrs = Normal st' ->
    length <$> sets st' = length <$> sets st /\
    time st' = time st + Z.of_nat (length addrs).
Proof.
  induction addrs as [|a rest IH]; intros st st' Hsim; simpl in Hsim.
  - injection Hsim as <-. split; [reflexivity|simpl; lia].
  - destruct (step d st a) as [st1|] eqn:Hstep; simpl in Hsim; [|discriminate].
    destruct (IH st1 st' Hsim) as [Hshape Htime].
    rewrite Hshape, (step_keeps_shape d st st1 a Hstep). split; [reflexivity|].
    destruct (step_cases d st st1 a Hstep) as (setLines & _ & Hcase).
    rewrite Htime.
    destruct Hcase as [(w & ln & _ & ->)|(v & _ & _ & ->)]; simpl length; simpl time; lia.
Qed.
End ShapeFacts.

(** X11. The store keeps its shape: at the end of every cache run there
    are [numSets] sets of [associativity] lines each, as [initCache] built
    them, and no line is stamped later than the number of accesses. *)
Theorem cache_store_keeps_shape (c : Cache.config) (text : string) (out : Cache.output) :
  Cache.run c text = Normal out ->
  length <$> Cache.o_sets out
    = replicate (Z.to_nat (Cache.numSets (Cache.o_derived out))) (Z.to_nat (Cache.assoc c)) /\
  Forall (Forall (fun l => Cache.lastUsed l <= Z.of_nat (length (Cache.o_lines out))))
    (Cache.o_sets out).
Proof.
  intros Hrun.
  destruct (run_inv c text out Hrun) as (d & parsed & Hd & Hp & Hne).
  rewrite (run_unfold c text d parsed Hd Hp Hne) in Hrun.
  destruct (Cache.simulate d _ _) as [st|] eqn:Hsim; simpl in Hrun; [|discriminate].
  injection Hrun as <-. simpl.
  destruct (simulate_keeps_shape d _ _ st Hsim) as [Hshape Htime]. simpl in Hshape, Htime.
  pose proof (simulate_keeps_stamps d _ _ st Hsim (initCache_stamps _ _)) as Hstamps.
  destruct (simulate_from_empty c d
              ((fun a => Bit.clampBigIntToBits a (Cache.addrBits c)) <$> parsed) Hd)
    as (st' & Hsim' & _ & _ & Htrace).
  rewrite Hsim in Hsim'. injection Hsim' as <-.
  apply (f_equal length) in Htrace. rewrite length_fmap in Htrace.
  split.
  - rewrite Hshape. unfold Cache.initCache. now rewrite fmap_replicate, length_replicate.
  - unfold Spec.stampsBounded in Hstamps. rewrite Htime, <- Htrace in Hstamps.
    exact Hstamps.
Qed.

Lemma cache_store_keeps_shape_witness :
  exists out,
    Cache.run (Cache.Config 32 64 16 2) "0x0" = Normal out /\
    length <$> Cache.o_sets out = [2; 2]%nat.
Proof.
  eexists. split; [vm_compute; reflexivity|].
  exact (proj1 (cache_store_keeps_shape (Cache.Config 32 64 16 2) "0x0" _ eq_refl)).
Defined.

(** ** The listing of a set from most to least recently used *)

Section MruFacts.
Context {L : Type} `{LruLine L}.
Import Spec.

Let later (x y : L) : Prop := line_lastUsed y <= line_lastUsed x.

Lemma insertByRecency_perm (x : L) (l : list L) : insertByRecency x l ≡ₚ x :: l.
Proof.
  induction l as [|y l IH]; simpl; [reflexivity|].
  destruct (_ <? _); [|reflexivity].
  rewrite IH. apply Permutation_swap.
Qed.

Lemma insertByRecency_sorted (x : L) (l : list L) :
  StronglySorted later l -> StronglySorted later (insertByRecency x l).
Proof.
  induction 1 as [|y l Hsorted IH Hall]; simpl; [repeat constructor|].
  destruct (Z.ltb_spec (line_lastUsed x) (line_lastUsed y)) as [Hlt|Hge].
  - constructor; [assumption|].
    rewrite insertByRecency_perm. constructor; [unfold later; lia|assumption].
  - constructor; [now constructor|].
    constructor; [exact Hge|].
    eapply Forall_impl; [exact Hall|]. unfold later. simpl. intros z Hz. lia.
Qed.

Lemma mruOrder_perm (lines : list L) :
  mruOrder lines ≡ₚ filter (fun x => line_valid x = true) lines.
Proof.
  unfold mruOrder. induction (filter _ lines) as [|x l IH]; simpl; [reflexivity|].
  now rewrite insertByRecency_perm, IH.
Qed.

Lemma mruOrder_sorted (lines : list L) : StronglySorted later (mruOrder lines).
Proof.
  unfold mruOrder. induction (filter _ lines) as [|x l IH]; simpl; [constructor|].
  now apply insertByRecency_sorted.
Qed.

Lemma sorted_byRecency (l : list L) : StronglySorted later l -> byRecency l.
Proof.
  induction 1 as [|z l Hsorted IH Hall]; intros i j x y Hij Hx Hy.
  - discriminate.
  - destruct j as [|j]; [lia|]. simpl in Hy. destruct i as [|i].
    + injection Hx as <-. rewrite Forall_forall in Hall.
      apply (Hall y). now apply list_elem_of_lookup_2 in Hy.
    + simpl in Hx. apply (IH i j x y); [lia|assumption..].
Qed.

Lemma mruOrder_spec (lines : list L) :
  mruOrder lines ≡ₚ filter (fun x => line_valid x = true) lines /\
  byRecency (mruOrder lines) /\
  (lines <> [] -> Forall (fun x => line_valid x = true) lines ->
   exists x y,
     lines !! pickVictimLRU lines = Some x /\
     last (mruOrder lines) = Some y /\
     line_lastUsed y = line_lastUsed x).
Proof.
  split; [apply mruOrder_perm|]. split; [apply sorted_byRecency, mruOrder_sorted|].
  intros Hne Hall.
  destruct (pickVictimLRU_leastRecent lines Hne Hall) as (x & Hx & Hmin & _).
  assert (Hsame : mruOrder lines ≡ₚ lines).
  { rewrite mruOrder_perm. clear -Hall.
    induction Hall as [|z l Hz Hall IH]; [reflexivity|].
    rewrite filter_cons. case_decide; [|contradiction]. now rewrite IH. }
  destruct (last (mruOrder lines)) as [y|] eqn:Hlast.
  - exists x, y. repeat split; [assumption|].
    assert (Hy : y ∈ lines) by (rewrite <- Hsame; now apply last_Some_elem_of).
    assert (Hxin : x ∈ mruOrder lines)
      by (rewrite Hsame; now apply list_elem_of_lookup_2 in Hx).
    apply list_elem_of_lookup in Hy as [j Hj].
    apply list_elem_of_lookup in Hxin as [i Hi].
    pose proof (Hmin j y Hj) as Hle.
    rewrite last_lookup in Hlast.
    destruct (decide (i = pred (length (mruOrder lines)))) as [->|Hi'].
    + rewrite Hi in Hlast. now injection Hlast as ->.
    + assert (Hlt : (i < pred (length (mruOrder lines)))%nat).
      { apply lookup_lt_Some in Hi. lia. }
      pose proof (sorted_byRecency _ (mruOrder_sorted lines) _ _ _ _ Hlt Hi Hlast).
      lia.
  - exfalso. apply last_None in Hlast.
    rewrite Hlast in Hsame. apply Permutation_nil_l in Hsame. congruence.
Qed.
End MruFacts.

(** X12. The listing [MRU -> LRU] of a set, in the cache report and in the
    TLB report: the text joins with [", "] the tags of exactly the valid
    lines of the set, in order of decreasing [lastUsed]; when the set is
    full, its last entry has the time stamp of the line that
    [pickVictimLRU] would evict. *)
Theorem mru_listing_sorted_and_complete
    (sets : list (list Cache.line)) (setIdx : nat) (cacheLines : list Cache.line)
    (tlbLines : list Vm.line) :
  sets !! setIdx = Some cacheLines ->
  (exists l,
     Cache.fmtSetStateLRU sets setIdx
       = Normal (String.concat ", " ((fun ln => Bit.toHex (Cache.tag ln) 0) <$> l)) /\
     l ≡ₚ filter (fun x => Cache.valid x = true) cacheLines /\
     Spec.byRecency l /\
     (cacheLines <> [] -> Forall (fun x => Cache.valid x = true) cacheLines ->
      exists x y, cacheLines !! Cache.pickVictimLRU cacheLines = Some x /\
                  last l = Some y /\ Cache.lastUsed y = Cache.lastUsed x)) /\
  (exists l,
     Vm.fmtTlbTagsMRU tlbLines
       = String.concat ", " ((fun ln => Bit.toHex (Vm.tag ln) 0) <$> l) /\
     l ≡ₚ filter (fun x => Vm.valid x = true) tlbLines /\
     Spec.byRecency l /\
     (tlbLines <> [] -> Forall (fun x => Vm.valid x = true) tlbLines ->
      exists x y, tlbLines !! Vm.pickVictimLRU tlbLines = Some x /\
                  last l = Some y /\ Vm.lastUsed y = Vm.lastUsed x)).
Proof.
  intros Hset. split.
  - exists (mruOrder cacheLines). unfold Cache.fmtSetStateLRU. rewrite Hset.
    split; [reflexivity|]. exact (mruOrder_spec cacheLines).
  - exists (mruOrder tlbLines). split; [reflexivity|]. exact (mruOrder_spec tlbLines).
Qed.

Lemma mru_listing_sorted_and_complete_witness :
  exists l,
    Cache.fmtSetStateLRU
      [[Cache.Line true 0x10 3; Cache.Line false 0 0; Cache.Line true 0x110 5]] 0
      = Normal (String.concat ", " ((fun ln => Bit.toHex (Cache.tag ln) 0) <$> l)) /\
    Spec.byRecency l.
Proof.
  destruct (mru_listing_sorted_and_complete
              [[Cache.Line true 0x10 3; Cache.Line false 0 0; Cache.Line true 0x110 5]] 0%nat
              [Cache.Line true 0x10 3; Cache.Line false 0 0; Cache.Line true 0x110 5] []
              eq_refl) as [(l & Hfmt & _ & Hsorted & _) _].
  exists l. split; assumption.
Defined.

(** ** The translation loop *)

Section VmStepFacts.
Import Js Bit Spec Vm.

(** The five ways an access returns. *)
Lemma vm_step_cases (p : params) (st st' : sim) (va : Z) :
  step p st va = Normal st' ->
  let vpn := Z.shiftr va (offsetBits p) in
  let off := Z.land va (maskBits (offsetBits p)) in
  let idx := Z.to_nat (tlbIndexOf p vpn) in
  let tg := Z.shiftr vpn (tlbIndexBits p) in
  let t := time st + 1 in
  (enableTLB p = false /\ pageTable st !! vpn = None /\
   st' = Sim (pageTable st) (tlbSets st) t (tlbHits st) (tlbMisses st)
           (ptHits st) (ptMisses st + 1)
           (outLines st ++ [Access va vpn off None None "" None])) \/
  (exists e,
     enableTLB p = false /\ pageTable st !! vpn = Some e /\
     st' = Sim (pageTable st) (tlbSets st) t (tlbHits st) (tlbMisses st)
             (ptHits st + 1) (ptMisses st)
             (outLines st ++ [Access va vpn off None (Some (e_ppn e)) (e_flags e)
                                (Some (physicalAddress p (e_ppn e) off))])) \/
  (exists setLines w ln,
     enableTLB p = true /\ tlbSets st !! idx = Some setLines /\
     list_find (fun ln => valid ln = true /\ tag ln = tg) setLines = Some (w, ln) /\
     st' = Sim (pageTable st)
             (<[idx := <[w := Line (valid ln) (tag ln) (ppn ln) (flags ln) t]> setLines]>
                (tlbSets st))
             t (tlbHits st + 1) (tlbMisses st) (ptHits st) (ptMisses st)
             (outLines st ++ [Access va vpn off (Some (TlbInfo (tlbIndexOf p vpn) tg true))
                                (Some (ppn ln)) (flags ln)
                                (Some (physicalAddress p (ppn ln) off))])) \/
  (exists setLines,
     enableTLB p = true /\ tlbSets st !! idx = Some setLines /\
     findHit tg setLines = None /\ pageTable st !! vpn = None /\
     st' = Sim (pageTable st) (tlbSets st) t (tlbHits st) (tlbMisses st + 1)
             (ptHits st) (ptMisses st + 1)
             (outLines st ++ [Access va vpn off (Some (TlbInfo (tlbIndexOf p vpn) tg false))
                                None "" None])) \/
  (exists setLines e,
     enableTLB p = true /\ tlbSets st !! idx = Some setLines /\
     findHit tg setLines = None /\ pageTable st !! vpn = Some e /\
     (pickVictimLRU setLines < length setLines)%nat /\
     st' = Sim (pageTable st)
             (<[idx := <[pickVictimLRU setLines := Line true tg (e_ppn e) (e_flags e) t]>
                         setLines]> (tlbSets st))
             t (tlbHits st) (tlbMisses st + 1) (ptHits st + 1) (ptMisses st)
             (outLines st ++ [Access va vpn off (Some (TlbInfo (tlbIndexOf p vpn) tg false))
                                (Some (e_ppn e)) (e_flags e)
                                (Some (physicalAddress p (e_ppn e) off))])).
Proof.
  unfold step, tlbLookup. intros H. simpl.
  set (vpn := Z.shiftr va (offsetBits p)) in *.
  destruct (enableTLB p) eqn:Hon.
  - destruct (tlbSets st !! Z.to_nat (tlbIndexOf p vpn)) as [setLines|] eqn:Hset;
      [|discriminate].
    destruct (findHit _ setLines) as [w|] eqn:Hfind.
    + right; right; left. unfold findHit in Hfind.
      apply fmap_Some in Hfind as ([w' ln] & Hfind & ->). simpl in H.
      pose proof Hfind as (Hln & _)%list_find_Some. rewrite Hln in H.
      simpl in H. injection H as <-. exists setLines, w', ln. repeat split; assumption.
    + simpl in H. destruct (pageTable st !! vpn) as [e|] eqn:Hpt.
      * right; right; right; right. rewrite Hset in H.
        destruct (Nat.ltb_spec (Vm.pickVictimLRU setLines) (length setLines)) as [Hv|];
          [|discriminate].
        injection H as <-. exists setLines, e. repeat split; assumption.
      * right; right; right; left. injection H as <-. exists setLines. repeat split; assumption.
  - simpl in H. destruct (pageTable st !! vpn) as [e|] eqn:Hpt; injection H as <-.
    + right; left. exists e. repeat split.
    + left. repeat split.
Qed.

(** The step returns when the set of the page exists and holds a line. *)
Lemma vm_step_returns (p : params) (st : sim) (va : Z) :
  (enableTLB p = true ->
   exists setLines,
     tlbSets st !! Z.to_nat (tlbIndexOf p (Z.shiftr va (offsetBits p))) = Some setLines /\
     setLines <> []) ->
  exists st', step p st va = Normal st'.
Proof.
  intros Hshape. unfold step, tlbLookup.
  set (vpn := Z.shiftr va (offsetBits p)) in *.
  destruct (enableTLB p) eqn:Hon.
  - destruct (Hshape eq_refl) as (setLines & Hset & Hne). rewrite Hset.
    destruct (findHit _ setLines) as [w|] eqn:Hfind.
    + destruct (vm_findHit_Some _ _ _ Hfind) as (ln & Hln & _). rewrite Hln.
      simpl. eexists. reflexivity.
    + simpl. destruct (pageTable st !! vpn) as [e|]; [|eexists; reflexivity].
      rewrite Hset.
      pose proof (pickVictimLRU_in_range setLines Hne) as Hv.
      fold (Vm.pickVictimLRU setLines) in Hv.
      destruct (Nat.ltb_spec (Vm.pickVictimLRU setLines) (length setLines)); [|lia].
      eexists. reflexivity.
  - simpl. destruct (pageTable st !! vpn); eexists; reflexivity.
Qed.

Lemma vm_step_keeps_shape (p : params) (st st' : sim) (va : Z) :
  step p st va = Normal st' -> length <$> tlbSets st' = length <$> tlbSets st.
Proof.
  intros Hstep.
  destruct (vm_step_cases p st st' va Hstep)
    as [(_ & _ & ->)|[(e & _ & _ & ->)|[(setLines & w & ln & _ & Hset & _ & ->)|
        [(setLines & _ & _ & _ & _ & ->)|(setLines & e & _ & Hset & _ & _ & _ & ->)]]]];
    simpl; try reflexivity.
  all: rewrite list_fmap_insert, length_insert; apply list_insert_id.
  all: now rewrite list_lookup_fmap, Hset.
Qed.

Lemma countTlbHits_snoc (l : list access) (r : access) :
  countTlbHits (l ++ [r]) = countTlbHits l + (if isTlbHit r then 1 else 0).
Proof.
  unfold countTlbHits. rewrite filter_app, length_app, filter_cons, filter_nil.
  destruct (isTlbHit r); case_decide; try congruence; simpl; lia.
Qed.

Lemma vm_step_counters (p : params) (st st' : sim) (va : Z) :
  step p st va = Normal st' ->
  tlbHits st = countTlbHits (outLines st) ->
  vmCounters (enableTLB p) (Z.of_nat (length (outLines st)))
    (tlbHits st) (tlbMisses st) (ptHits st) (ptMisses st) ->
  tlbHits st' = countTlbHits (outLines st') /\
  vmCounters (enableTLB p) (Z.of_nat (length (outLines st')))
    (tlbHits st') (tlbMisses st') (ptHits st') (ptMisses st').
Proof.
  intros Hstep Hhits Hc. unfold vmCounters in *.
  destruct (vm_step_cases p st st' va Hstep)
    as [(Hon & _ & ->)|[(e & Hon & _ & ->)|[(setLines & w & ln & Hon & _ & _ & ->)|
        [(setLines & Hon & _ & _ & _ & ->)|(setLines & e & Hon & _ & _ & _ & _ & ->)]]]];
    rewrite Hon in *; simpl; rewrite countTlbHits_snoc, length_app; simpl; lia.
Qed.

Lemma wellFormed_same_lengths {L : Type} (n : Z) (a b : list (list L)) :
  length <$> a = length <$> b -> wellFormed n b -> wellFormed n a.
Proof.
  intros Hshape [Hlen Hne]. split.
  - apply (f_equal length) in Hshape. rewrite !length_fmap in Hshape. lia.
  - apply Forall_lookup. intros i x Hx.
    apply (f_equal (fun l => l !! i)) in Hshape.
    rewrite !list_lookup_fmap, Hx in Hshape. simpl in Hshape.
    destruct (b !! i) as [y|] eqn:Hy; [|discriminate].
    pose proof (Forall_lookup_1 _ _ _ _ Hne Hy) as Hy'.
    injection Hshape as Hl. destruct x, y; simpl in *; congruence.
Qed.

Lemma vm_simulate_returns (p : params) (n : Z) (addrs : list Z) :
  (enableTLB p = true -> forall vpn, 0 <= tlbIndexOf p vpn < n) ->
  forall st,
    (enableTLB p = true -> wellFormed n (tlbSets st)) ->
    tlbHits st = countTlbHits (outLines st) ->
    vmCounters (enableTLB p) (Z.of_nat (length (outLines st)))
      (tlbHits st) (tlbMisses st) (ptHits st) (ptMisses st) ->
    exists st',
      simulate p st addrs = Normal st' /\
      r_va <$> outLines st' = (r_va <$> outLines st) ++ addrs /\
      length <$> tlbSets st' = length <$> tlbSets st /\
      tlbHits st' = countTlbHits (outLines st') /\
      vmCounters (enableTLB p) (Z.of_nat (length (outLines st')))
        (tlbHits st') (tlbMisses st') (ptHits st') (ptMisses st').
Proof.
  intros Hidx. induction addrs as [|va rest IH]; intros st Hwf Hhits Hc.
  - exists st. simpl. rewrite app_nil_r. auto.
  - destruct (vm_step_returns p st va) as [st1 Hstep].
    { intros Hon. destruct (Hwf Hon) as [Hlen Hne].
      specialize (Hidx Hon (Z.shiftr va (offsetBits p))).
      destruct (lookup_lt_is_Some_2 (tlbSets st)
                  (Z.to_nat (tlbIndexOf p (Z.shiftr va (offsetBits p)))) ltac:(lia))
        as [setLines Hset].
      exists setLines. split; [assumption|].
      exact (Forall_lookup_1 _ _ _ _ Hne Hset). }
    pose proof (vm_step_keeps_shape p st st1 va Hstep) as Hshape.
    destruct (vm_step_counters p st st1 va Hstep Hhits Hc) as [Hhits1 Hc1].
    destruct (vm_step_record p st st1 va Hstep) as (r & Hlines & Hva & _).
    destruct (IH st1) as (st' & Hsim & Htrace & Hshape' & Hhits' & Hc'); [|assumption..|].
    { intros Hon. exact (wellFormed_same_lengths n _ _ Hshape (Hwf Hon)). }
    exists st'. simpl. rewrite Hstep. simpl.
    split; [assumption|]. split.
    { rewrite Htrace, Hlines, fmap_app. simpl. rewrite Hva, <- app_assoc. reflexivity. }
    split; [congruence|]. split; assumption.
Qed.
Lemma vm_simulate_returns_shape (p : params) (addrs : list Z) :
  forall st st', simulate p st addrs = Normal st' ->
    time st' = time st + Z.of_nat (length addrs) /\
    length <$> tlbSets st' = length <$> tlbSets st /\
    length (outLines st') = (length (outLines st) + length addrs)%nat.
Proof.
  induction addrs as [|va rest IH]; intros st st' Hsim; simpl in Hsim.
  - injection Hsim as <-. simpl. repeat split; lia.
  - destruct (step p st va) as [st1|] eqn:Hstep; simpl in Hsim; [|discriminate].
    destruct (IH st1 st' Hsim) as (Htime & Hshape & Hlen).
    rewrite Htime, Hshape, Hlen, (vm_step_keeps_shape p st st1 va Hstep).
    destruct (vm_step_record p st st1 va Hstep) as (r & -> & _).
    rewrite length_app. simpl length.
    assert (time st1 = time st + 1).
    { destruct (vm_step_cases p st st1 va Hstep)
        as [(_ & _ & ->)|[(e & _ & _ & ->)|[(setLines & w & ln & _ & _ & _ & ->)|
            [(setLines & _ & _ & _ & _ & ->)|(setLines & e & _ & _ & _ & _ & _ & ->)]]]];
        reflexivity. }
    repeat split; lia.
Qed.
End VmStepFacts.

(** ** The set-up of a translation run *)

Section VmSetupFacts.
Import Js Bit Spec Vm.

Local Ltac split_checks H :=
  repeat match type of H with
         | context [if ?b then _ else _] =>
             let E := fresh "E" in destruct b eqn:E; simpl in H; try discriminate H
         end.

Lemma foldM_inv {A B : Type} (f : A -> B -> completion A) (P : A -> Prop) (xs : list B) :
  (forall a x a', f a x = Normal a' -> P a -> P a') ->
  forall a a', foldM f a xs = Normal a' -> P a -> P a'.
Proof.
  intros Hstep. induction xs as [|x xs IH]; intros a a' H Ha; simpl in H.
  - now injection H as <-.
  - destruct (f a x) as [a1|] eqn:Hf; simpl in H; [|discriminate].
    apply (IH a1 a' H). now apply (Hstep a x a1).
Qed.

Lemma mapM_length {A B : Type} (f : A -> completion B) (xs : list A) :
  forall ys, mapM f xs = Normal ys -> length ys = length xs.
Proof.
  induction xs as [|x xs IH]; intros ys H; simpl in H.
  - now injection H as <-.
  - destruct (f x); simpl in H; [|discriminate].
    destruct (mapM f xs) as [ys'|]; simpl in H; [|discriminate].
    injection H as <-. simpl. now rewrite (IH ys').
Qed.

(** The two ways a seed row returns: it is skipped, or it writes the line
    of an existing set and way. *)
Lemma applyTlbInitRow_cases (tlb tlb' : list (list line)) (t t' : Z) (r : tlbRow) :
  applyTlbInitRow (tlb, t) r = Normal (tlb', t') ->
  (tlb' = tlb /\ t' = t) \/
  exists setIdx wayIdx setLines tg pn stamp,
    parseInt10 (trim (t_set r)) = Some setIdx /\
    parseInt10 (trim (t_way r)) = Some wayIdx /\
    0 <= setIdx /\ 0 <= wayIdx < Z.of_nat (length setLines) /\
    tlb !! Z.to_nat setIdx = Some setLines /\
    parseOptionalNumToBigInt (t_tag r) = Normal (Some tg) /\
    parseOptionalNumToBigInt (t_ppn r) = Normal (Some pn) /\
    (stamp, t') = match parseInt10 (trim (t_lastUsed r)) with
                  | Some n => (n, t)
                  | None => (t + 1, t + 1)
                  end /\
    tlb' = <[Z.to_nat setIdx :=
              <[Z.to_nat wayIdx := Line true tg pn (toUpperCase (trim (t_flags r))) stamp]>
                setLines]> tlb.
Proof.
  unfold applyTlbInitRow. intros H.
  destruct (parseOptionalNumToBigInt (t_tag r)) as [[tg|]|]; simpl in H;
    try discriminate;
    (destruct (parseOptionalNumToBigInt (t_ppn r)) as [[pn|]|]; simpl in H;
     try discriminate); try (injection H as <- <-; now left).
  destruct (isEmpty (trim (t_set r)) || isEmpty (trim (t_way r)));
    [injection H as <- <-; now left|].
  destruct (parseInt10 (trim (t_set r))) as [setIdx|];
    [|injection H as <- <-; now left].
  destruct (parseInt10 (trim (t_way r))) as [wayIdx|];
    [|injection H as <- <-; now left].
  destruct ((setIdx <? 0) || (Z.of_nat (length tlb) <=? setIdx)) eqn:Es;
    [injection H as <- <-; now left|].
  destruct (tlb !! Z.to_nat setIdx) as [setLines|] eqn:Hset;
    [|injection H as <- <-; now left].
  destruct ((wayIdx <? 0) || (Z.of_nat (length setLines) <=? wayIdx)) eqn:Ew;
    [injection H as <- <-; now left|].
  apply orb_false_iff in Es as [?%Z.ltb_ge ?%Z.leb_gt].
  apply orb_false_iff in Ew as [?%Z.ltb_ge ?%Z.leb_gt].
  right.
  destruct (parseInt10 (trim (t_lastUsed r))) as [n|]; injection H as <- <-.
  - exists setIdx, wayIdx, setLines, tg, pn, n. repeat split; try assumption; lia.
  - exists setIdx, wayIdx, setLines, tg, pn, (t + 1). repeat split; try assumption; lia.
Qed.

Lemma applyTlbInitRows_shape (tlb tlb' : list (list line)) (rows : list tlbRow) (t : Z) :
  applyTlbInitRows tlb rows t = Normal tlb' -> length <$> tlb' = length <$> tlb.
Proof.
  unfold applyTlbInitRows. intros H.
  destruct (foldM applyTlbInitRow (tlb, t) rows) as [[tlb1 t1]|] eqn:Hfold;
    simpl in H; [|discriminate].
  injection H as <-.
  apply (foldM_inv applyTlbInitRow
           (fun acc => length <$> acc.1 = length <$> tlb) rows) in Hfold;
    [exact Hfold| |reflexivity].
  intros [a ta] r [a' ta'] Hrow Ha. simpl in *.
  destruct (applyTlbInitRow_cases a a' ta ta' r Hrow)
    as [[-> _]|(si & wi & setLines & tg & pn & stamp & _ & _ & _ & _ & Hset & _ & _ & _ & ->)];
    [assumption|].
  rewrite <- Ha, list_fmap_insert, length_insert. apply list_insert_id.
  now rewrite list_lookup_fmap, Hset.
Qed.

Lemma split_inv (va pa ps ob vb : Z) :
  split va pa ps = Normal (ob, vb) ->
  1 <= va <= 64 /\ 1 <= pa <= 64 /\ isPowerOfTwo ps = true /\
  ob = ToInt32 (Z.log2 ps) /\ vb = va - ob /\ 0 < vb.
Proof.
  unfold split, throwIf, log2IntPow2. intros H. simpl in H.
  split_checks H. injection H as <- <-.
  repeat match goal with
         | E : negb _ = false |- _ => apply negb_false_iff in E
         | E : (_ || _) = false |- _ => apply orb_false_iff in E as [? ?]
         end.
  repeat split; try lia; assumption.
Qed.

Lemma setupTLB_inv (s : state) (vb te ta tib ttb : Z) (tlb : list (list line)) :
  setupTLB s vb = Normal (te, ta, tib, ttb, tlb) ->
  0 < te /\ 0 < ta /\ Z.rem te ta = 0 /\ isPowerOfTwo (te / ta) = true /\
  tib = (if te / ta =? 1 then 0 else ToInt32 (Z.log2 (te / ta))) /\
  ttb = vb - tib /\ 0 <= ttb /\
  applyTlbInitRows (initTLB (te / ta) ta) (s_tlbInitRows s) 0 = Normal tlb.
Proof.
  unfold setupTLB. intros H.
  destruct (parseIntStrict _ "tlbEntries") as [e|]; simpl in H; [|discriminate].
  destruct (parseIntStrict _ "tlbAssoc") as [a|]; simpl in H; [|discriminate].
  unfold throwIf, log2IntPow2 in H. simpl in H.
  destruct (e <=? 0) eqn:E1; simpl in H; [discriminate|].
  destruct (a <=? 0) eqn:E2; simpl in H; [discriminate|].
  destruct (Z.rem e a =? 0) eqn:E3; simpl in H; [|discriminate].
  destruct (isPowerOfTwo (e / a)) eqn:E4; simpl in H; [|discriminate].
  apply Z.eqb_eq in E3.
  destruct (e / a =? 1) eqn:E5; simpl in H.
  - destruct (vb - 0 <? 0) eqn:E6; simpl in H; [discriminate|].
    destruct (applyTlbInitRows _ _ _) as [tlb0|] eqn:Hrows; simpl in H; [|discriminate].
    injection H as <- <- <- <- <-. rewrite E5.
    repeat split; try lia; assumption.
  - destruct (vb - ToInt32 (Z.log2 (e / a)) <? 0) eqn:E6; simpl in H; [discriminate|].
    destruct (applyTlbInitRows _ _ _) as [tlb0|] eqn:Hrows; simpl in H; [|discriminate].
    injection H as <- <- <- <- <-. rewrite E5.
    repeat split; try lia; assumption.
Qed.

Lemma tlbIndexOf_in_range (p : params) (n vpn : Z) :
  0 < n ->
  tlbIndexBits p = (if n =? 1 then 0 else ToInt32 (Z.log2 n)) ->
  0 <= tlbIndexOf p vpn < n.
Proof.
  intros Hn Hib. split; [apply tlbIndexOf_nonneg|]. unfold tlbIndexOf.
  destruct (Z.eqb_spec (tlbIndexBits p) 0) as [_|Hnz]; [lia|].
  destruct (Z.le_gt_cases (tlbIndexBits p) 0) as [Hneg|Hpos].
  - rewrite maskBits_nonpos, Z.land_0_r by assumption. lia.
  - pose proof (land_maskBits_range vpn (tlbIndexBits p) ltac:(lia)).
    destruct (n =? 1); [lia|].
    pose proof (Z.log2_nonneg n).
    pose proof (ToInt32_le (Z.log2 n) ltac:(lia)).
    pose proof (Z.log2_spec n Hn).
    assert (2 ^ tlbIndexBits p <= 2 ^ Z.log2 n).
    { apply Z.pow_le_mono_r; lia. }
    lia.
Qed.

Lemma initTLB_shape (n a : Z) :
  length <$> initTLB n a = replicate (Z.to_nat n) (Z.to_nat a).
Proof. unfold initTLB. now rewrite fmap_replicate, length_replicate. Qed.

Lemma shape_wellFormed {L : Type} (n a : Z) (tlb : list (list L)) :
  0 < n -> 0 < a ->
  length <$> tlb = replicate (Z.to_nat n) (Z.to_nat a) -> wellFormed n tlb.
Proof.
  intros Hn Ha Hshape. split.
  - apply (f_equal length) in Hshape. rewrite length_fmap, length_replicate in Hshape. lia.
  - apply Forall_lookup. intros i x Hx.
    apply (f_equal (fun l => l !! i)) in Hshape.
    rewrite list_lookup_fmap, Hx in Hshape. simpl in Hshape. symmetry in Hshape.
    apply lookup_replicate in Hshape as [Hl _].
    destruct x; simpl in *; [lia|discriminate].
Qed.
End VmSetupFacts.

Section VmTotality.
Import Spec.

Lemma vm_run_returns
    (c : Vm.config) (s : Vm.state) (ob vb : Z) (parsed : list Z) (pt0 pt : gmap Z Vm.entry) :
  Vm.split (Vm.c_vaBits c) (Vm.c_paBits c) (Vm.c_pageSize c) = Normal (ob, vb) ->
  mapM Bit.parseHexToBigInt (Vm.addrLines (Js.orDefault (Vm.s_addresses s) "")) = Normal parsed ->
  parsed <> [] ->
  Vm.parseMappings (Js.orDefault (Vm.s_mappings s) "") = Normal pt0 ->
  Vm.applyPtInitRows pt0 (Vm.s_ptInitRows s) = Normal pt ->
  (Vm.s_enableTLB s = true -> isNormal (Vm.setupTLB s vb) = true) ->
  exists out,
    Vm.run c s = Normal out /\
    Vm.r_va <$> Vm.o_lines out
      = (fun a => Bit.clampBigIntToBits a (Vm.c_vaBits c)) <$> parsed /\
    Vm.o_pageTable out = pt /\
    Vm.o_tlbHits out = Spec.countTlbHits (Vm.o_lines out) /\
    Spec.vmCounters (Vm.s_enableTLB s) (Z.of_nat (length parsed))
      (Vm.o_tlbHits out) (Vm.o_tlbMisses out) (Vm.o_ptHits out) (Vm.o_ptMisses out).
Proof.
  intros Hsplit Hparse Hne Hmap Hrows Hsetup.
  assert (Hlines : (length (Vm.addrLines (Js.orDefault (Vm.s_addresses s) "")) =? 0)%nat = false).
  { apply Nat.eqb_neq. rewrite <- (mapM_length _ _ _ Hparse).
    destruct parsed; [contradiction|discriminate]. }
  assert (Hloop : forall p tlb,
            Vm.enableTLB p = Vm.s_enableTLB s ->
            (Vm.s_enableTLB s = true ->
             exists n, Spec.wellFormed n tlb /\ forall vpn, 0 <= Vm.tlbIndexOf p vpn < n) ->
            exists st,
              Vm.simulate p (Vm.Sim pt tlb 0 0 0 0 0 [])
                ((fun a => Bit.clampBigIntToBits a (Vm.c_vaBits c)) <$> parsed) = Normal st /\
              Vm.r_va <$> Vm.outLines st
                = (fun a => Bit.clampBigIntToBits a (Vm.c_vaBits c)) <$> parsed /\
              Vm.pageTable st = pt /\
              Vm.tlbHits st = Spec.countTlbHits (Vm.outLines st) /\
              Spec.vmCounters (Vm.s_enableTLB s) (Z.of_nat (length parsed))
                (Vm.tlbHits st) (Vm.tlbMisses st) (Vm.ptHits st) (Vm.ptMisses st)).
  { intros p tlb Hon Hshape.
    assert (Hn : exists n,
               (Vm.enableTLB p = true -> forall vpn, 0 <= Vm.tlbIndexOf p vpn < n) /\
               (Vm.enableTLB p = true -> Spec.wellFormed n tlb)).
    { destruct (Vm.s_enableTLB s) eqn:Es.
      - destruct (Hshape eq_refl) as (n & Hwf & Hidx). exists n. auto.
      - exists 0. rewrite Hon. split; discriminate. }
    destruct Hn as (n & Hidx & Hwf).
    destruct (vm_simulate_returns p n
                ((fun a => Bit.clampBigIntToBits a (Vm.c_vaBits c)) <$> parsed) Hidx
                (Vm.Sim pt tlb 0 0 0 0 0 []) Hwf eq_refl)
      as (st & Hsim & Htrace & _ & Hhits & Hc).
    { unfold Spec.vmCounters. simpl. destruct (Vm.enableTLB p); lia. }
    simpl in Htrace.
    exists st. split; [assumption|]. split; [exact Htrace|].
    split; [exact (vm_simulate_pageTable _ _ _ _ Hsim)|]. split; [assumption|].
    apply (f_equal length) in Htrace. rewrite !length_fmap in Htrace.
    now rewrite <- Hon, <- Htrace. }
  unfold Vm.run. rewrite Hsplit. simpl. rewrite Hlines. simpl.
  rewrite Hparse. simpl. rewrite Hmap. simpl. rewrite Hrows. simpl.
  destruct (Vm.s_enableTLB s) eqn:Es.
  - specialize (Hsetup eq_refl).
    destruct (Vm.setupTLB s vb) as [[[[[te ta] tib] ttb] tlb]|] eqn:Hs; [|discriminate].
    simpl.
    destruct (setupTLB_inv s vb te ta tib ttb tlb Hs)
      as (Hte & Hta & Hrem & Hpow & Htib & _ & _ & Hseed).
    pose proof (isPowerOfTwo_pos _ Hpow) as Hsets.
    destruct (Hloop (Vm.Params (Vm.c_vaBits c) (Vm.c_paBits c) (Vm.c_pageSize c) ob vb true
                       te ta tib ttb) tlb eq_refl)
      as (st & Hsim & Htrace & Hpt & Hhits & Hc).
    { intros _. exists (te / ta). split.
      - apply (shape_wellFormed _ ta); [assumption..|].
        rewrite (applyTlbInitRows_shape _ _ _ _ Hseed). apply initTLB_shape.
      - intros vpn. now apply tlbIndexOf_in_range. }
    rewrite Hsim. simpl. eexists. split; [reflexivity|]. simpl. auto.
  - simpl.
    destruct (Hloop (Vm.Params (Vm.c_vaBits c) (Vm.c_paBits c) (Vm.c_pageSize c) ob vb false
                       0 1 0 0) [] eq_refl)
      as (st & Hsim & Htrace & Hpt & Hhits & Hc); [discriminate|].
    rewrite Hsim. simpl. eexists. split; [reflexivity|]. simpl. auto.
Qed.
End VmTotality.

(** X13. A translation run whose set-up passes returns: when the split is
    accepted, every address line parses, the mappings and the initial rows
    parse and, with the TLB on, the TLB set-up passes, the loop never reads
    outside the TLB and [compute] writes one record per address, in order.
    The counters are non-negative; [tlbHits] counts the records marked
    [TLB=HIT]; with the TLB on, [tlbHits + tlbMisses] is the number of
    addresses and the page table is read on the TLB misses only,
    [ptHits + ptMisses = tlbMisses]; with the TLB off both TLB counters
    stay 0 and [ptHits + ptMisses] is the number of addresses. *)
Theorem vm_run_returns_and_counts
    (c : Vm.config) (s : Vm.state) (ob vb : Z) (parsed : list Z) (pt0 pt : gmap Z Vm.entry) :
  Vm.split (Vm.c_vaBits c) (Vm.c_paBits c) (Vm.c_pageSize c) = Normal (ob, vb) ->
  mapM Bit.parseHexToBigInt (Vm.addrLines (Js.orDefault (Vm.s_addresses s) "")) = Normal parsed ->
  parsed <> [] ->
  Vm.parseMappings (Js.orDefault (Vm.s_mappings s) "") = Normal pt0 ->
  Vm.applyPtInitRows pt0 (Vm.s_ptInitRows s) = Normal pt ->
  (Vm.s_enableTLB s = true -> isNormal (Vm.setupTLB s vb) = true) ->
  exists out,
    Vm.run c s = Normal out /\
    Vm.r_va <$> Vm.o_lines out
      = (fun a => Bit.clampBigIntToBits a (Vm.c_vaBits c)) <$> parsed /\
    Vm.o_pageTable out = pt /\
    Vm.o_tlbHits out = Spec.countTlbHits (Vm.o_lines out) /\
    Spec.vmCounters (Vm.s_enableTLB s) (Z.of_nat (length parsed))
      (Vm.o_tlbHits out) (Vm.o_tlbMisses out) (Vm.o_ptHits out) (Vm.o_ptMisses out).
Proof. exact (vm_run_returns c s ob vb parsed pt0 pt). Qed.

Lemma vm_run_returns_and_counts_witness :
  exists out,
    Vm.run (Vm.Config 32 32 4096)
      (Vm.State None None None (Some ("0x1004" +:+ Js.newline +:+ "0x1008"))
         (Some "0x1 -> 0xA") true (Some "4") (Some "2") [] []) = Normal out /\
    Spec.vmCounters true 2
      (Vm.o_tlbHits out) (Vm.o_tlbMisses out) (Vm.o_ptHits out) (Vm.o_ptMisses out).
Proof.
  destruct (vm_run_returns_and_counts (Vm.Config 32 32 4096)
              (Vm.State None None None (Some ("0x1004" +:+ Js.newline +:+ "0x1008"))
                 (Some "0x1 -> 0xA") true (Some "4") (Some "2") [] [])
              12 20 [0x1004; 0x1008] {[ 0x1 := Vm.Entry 0xA "" ]} {[ 0x1 := Vm.Entry 0xA "" ]}
              eq_refl eq_refl ltac:(discriminate) eq_refl eq_refl (fun _ => eq_refl))
    as (out & Hrun & _ & _ & _ & Hc).
  exists out. split; [exact Hrun|exact Hc].
Defined.

Section VmRunFacts.
Import Js Bit Spec Vm.

(** The stages of a run that returns. *)
Lemma vm_run_stages (c : config) (s : state) (out : output) :
  run c s = Normal out ->
  exists ob vb parsed pt0 pt te ta tib ttb tlb st,
    split (c_vaBits c) (c_paBits c) (c_pageSize c) = Normal (ob, vb) /\
    mapM parseHexToBigInt (addrLines (orDefault (s_addresses s) "")) = Normal parsed /\
    parsed <> [] /\
    parseMappings (orDefault (s_mappings s) "") = Normal pt0 /\
    applyPtInitRows pt0 (s_ptInitRows s) = Normal pt /\
    (if s_enableTLB s then setupTLB s vb = Normal (te, ta, tib, ttb, tlb)
     else (te, ta, tib, ttb, tlb) = (0, 1, 0, 0, [])) /\
    o_params out = Params (c_vaBits c) (c_paBits c) (c_pageSize c) ob vb (s_enableTLB s)
                     te ta tib ttb /\
    simulate (o_params out) (Sim pt tlb 0 0 0 0 0 [])
      ((fun a => clampBigIntToBits a (c_vaBits c)) <$> parsed) = Normal st /\
    out = Output (o_params out) (outLines st) (tlbHits st) (tlbMisses st)
            (ptHits st) (ptMisses st) (pageTable st) (tlbSets st).
Proof.
  unfold run. intros H.
  destruct (split _ _ _) as [[ob vb]|] eqn:Hsplit; simpl in H; [|discriminate].
  destruct (length _ =? 0)%nat eqn:Hlen; simpl in H; [discriminate|].
  destruct (mapM _ _) as [parsed|] eqn:Hparse; simpl in H; [|discriminate].
  destruct (parseMappings _) as [pt0|] eqn:Hmap; simpl in H; [|discriminate].
  destruct (applyPtInitRows _ _) as [pt|] eqn:Hrows; simpl in H; [|discriminate].
  destruct (if s_enableTLB s then _ else _) as [[[[[te ta] tib] ttb] tlb]|] eqn:Hsetup;
    simpl in H; [|discriminate].
  destruct (simulate _ _ _) as [st|] eqn:Hsim; simpl in H; [|discriminate].
  injection H as <-. simpl.
  exists ob, vb, parsed, pt0, pt, te, ta, tib, ttb, tlb, st.
  repeat split; try assumption; try reflexivity.
  - intros ->. simpl in Hparse. apply mapM_length in Hparse.
    apply Nat.eqb_neq in Hlen. simpl in Hparse. congruence.
  - destruct (s_enableTLB s); [assumption|]. now injection Hsetup as <- <- <- <- <-.
Qed.
End VmRunFacts.

(** X14. The set-up of an accepted translation run.  The page offset and
    the page number share the virtual address, [offsetBits + vpnBits =
    vaBits] with [vpnBits > 0]; for a page below 2^31 bytes,
    [pageSize = 2^offsetBits].  With the TLB off there is no TLB.  With
    the TLB on, the TLB at the end of the run still has
    [tlbEntries / tlbAssoc] sets of [tlbAssoc] lines, whatever the seed
    rows and the accesses were; the sets and ways multiply back to
    [tlbEntries]; the index and tag widths share the page number; and
    below 2^31 entries the number of sets is [2^tlbIndexBits]. *)
Theorem vm_setup_sound (c : Vm.config) (s : Vm.state) (out : Vm.output) :
  Vm.run c s = Normal out ->
  let p := Vm.o_params out in
  Vm.offsetBits p + Vm.vpnBits p = Vm.c_vaBits c /\ 0 < Vm.vpnBits p /\
  (Vm.c_pageSize c < 2 ^ 31 ->
   0 <= Vm.offsetBits p /\ 2 ^ Vm.offsetBits p = Vm.c_pageSize c) /\
  (Vm.s_enableTLB s = false -> Vm.o_tlbSets out = []) /\
  (Vm.s_enableTLB s = true ->
   0 < Vm.tlbAssoc p /\
   (Vm.tlbEntries p / Vm.tlbAssoc p) * Vm.tlbAssoc p = Vm.tlbEntries p /\
   length <$> Vm.o_tlbSets out
     = replicate (Z.to_nat (Vm.tlbEntries p / Vm.tlbAssoc p)) (Z.to_nat (Vm.tlbAssoc p)) /\
   Vm.tlbIndexBits p + Vm.tlbTagBits p = Vm.vpnBits p /\ 0 <= Vm.tlbTagBits p /\
   (Vm.tlbEntries p < 2 ^ 31 ->
    0 <= Vm.tlbIndexBits p /\ 2 ^ Vm.tlbIndexBits p = Vm.tlbEntries p / Vm.tlbAssoc p)).
Proof.
  intros Hrun.
  destruct (vm_run_stages c s out Hrun)
    as (ob & vb & parsed & pt0 & pt & te & ta & tib & ttb & tlb & st &
        Hsplit & _ & _ & _ & _ & Hsetup & Hp & Hsim & Hout).
  destruct (split_inv _ _ _ _ _ Hsplit) as (Hva & Hpa & Hpow & Hob & Hvb & Hpos).
  pose proof (proj1 (proj2 (vm_simulate_returns_shape _ _ _ _ Hsim))) as Hshape.
  rewrite Hout. simpl. rewrite Hp. simpl. simpl in Hshape.
  split; [lia|]. split; [assumption|]. split; [|split].
  - intros Hsmall. rewrite Hob.
    apply log2IntPow2_exact; [|assumption].
    pose proof (isPowerOfTwo_pos _ Hpow). lia.
  - intros Hoff. rewrite Hoff in Hsetup. injection Hsetup as _ _ _ _ ->.
    destruct (Vm.tlbSets st); [reflexivity|discriminate].
  - intros Hon. rewrite Hon in Hsetup.
    destruct (setupTLB_inv s vb te ta tib ttb tlb Hsetup)
      as (Hte & Hta & Hrem & Hpow2 & Htib & Httb & Hnn & Hseed).
    pose proof (isPowerOfTwo_pos _ Hpow2) as Hsets.
    split; [assumption|]. split.
    { pose proof (exact_division te ta Hte Hta Hrem). lia. }
    split.
    { rewrite Hshape, (applyTlbInitRows_shape _ _ _ _ Hseed). apply initTLB_shape. }
    split; [lia|]. split; [assumption|].
    intros Hsmall. rewrite Htib.
    destruct (Z.eqb_spec (te / ta) 1) as [->|_]; [split; [lia|reflexivity]|].
    apply log2IntPow2_exact; [|assumption].
    pose proof (exact_division te ta Hte Hta Hrem). nia.
Qed.

Lemma vm_setup_sound_witness :
  exists out,
    Vm.run (Vm.Config 32 32 4096)
      (Vm.State None None None (Some "0x1004") (Some "0x1 -> 0xA") true (Some "4") (Some "2")
         [] [Vm.TlbRow "1" "0" "0x7" "0xB" "r" ""; Vm.TlbRow "9" "0" "0x7" "0xB" "r" ""])
      = Normal out /\
    length <$> Vm.o_tlbSets out = [2; 2]%nat.
Proof.
  eexists. split; [vm_compute; reflexivity|].
  match goal with
  | |- length <$> Vm.o_tlbSets ?o = _ =>
      pose proof (vm_setup_sound (Vm.Config 32 32 4096)
                    (Vm.State None None None (Some "0x1004") (Some "0x1 -> 0xA") true
                       (Some "4") (Some "2") []
                       [Vm.TlbRow "1" "0" "0x7" "0xB" "r" ""; Vm.TlbRow "9" "0" "0x7" "0xB" "r" ""])
                    o ltac:(vm_compute; reflexivity)) as Hsound
  end.
  destruct Hsound as (_ & _ & _ & _ & Hon).
  destruct (Hon eq_refl) as (_ & _ & Hshape & _). exact Hshape.
Defined.

(** ** The TLB against the page table *)

Section VmCoherence.
Import Js Bit Spec Vm.

Lemma tlbCoherent_insert (p : params) (pt : gmap Z entry) (tlb : list (list line))
    (i w : nat) (setLines : list line) (ln' : line) :
  tlbCoherent p pt tlb ->
  tlb !! i = Some setLines ->
  (valid ln' = true ->
   exists vpn e, pt !! vpn = Some e /\ Z.to_nat (tlbIndexOf p vpn) = i /\
                 Z.shiftr vpn (tlbIndexBits p) = tag ln' /\
                 ppn ln' = e_ppn e /\ flags ln' = e_flags e) ->
  tlbCoherent p pt (<[i := <[w := ln']> setLines]> tlb).
Proof.
  intros Hco Hset Hnew j setLines' w' ln Hj Hw Hvalid.
  apply list_lookup_insert_Some in Hj as [(<- & <- & _)|(Hne & Hj)].
  - apply list_lookup_insert_Some in Hw as [(<- & <- & _)|(Hne & Hw)].
    + now apply Hnew.
    + now apply (Hco i setLines w' ln).
  - now apply (Hco j setLines' w' ln).
Qed.

Lemma tlbCoherent_invalid (p : params) (pt : gmap Z entry) (tlb : list (list line)) :
  (forall i setLines w ln,
     tlb !! i = Some setLines -> setLines !! w = Some ln -> valid ln = false) ->
  tlbCoherent p pt tlb.
Proof.
  intros Hinv i setLines w ln Hset Hln Hvalid.
  rewrite (Hinv i setLines w ln Hset Hln) in Hvalid. discriminate.
Qed.

(** With a coherent TLB an access reports what the page table holds for
    its page, and leaves the TLB coherent. *)
Lemma step_keeps_coherent (p : params) (st st' : sim) (va : Z) :
  step p st va = Normal st' ->
  tlbCoherent p (pageTable st) (tlbSets st) ->
  tlbCoherent p (pageTable st') (tlbSets st') /\
  exists r, outLines st' = outLines st ++ [r] /\ agreesWithTable (pageTable st) r.
Proof.
  intros Hstep Hco.
  destruct (vm_step_cases p st st' va Hstep)
    as [(_ & Hpt & ->)|[(e & _ & Hpt & ->)|[(setLines & w & ln & _ & Hset & Hfind & ->)|
        [(setLines & _ & _ & _ & Hpt & ->)|(setLines & e & _ & Hset & _ & Hpt & _ & ->)]]]];
    simpl.
  - split; [assumption|]. eexists. split; [reflexivity|].
    unfold agreesWithTable. simpl. now rewrite Hpt.
  - split; [assumption|]. eexists. split; [reflexivity|].
    unfold agreesWithTable. simpl. now rewrite Hpt.
  - apply list_find_Some in Hfind as (Hln & [Hvalid Htag] & _).
    destruct (Hco _ _ _ _ Hset Hln Hvalid) as (vpn' & e & He & Hidx & Htag' & Hppn & Hflags).
    assert (vpn' = Z.shiftr va (offsetBits p)) as ->.
    { apply (tlb_key_inj p); [assumption|]. congruence. }
    split.
    + apply tlbCoherent_insert; [assumption..|]. simpl. intros _.
      exists (Z.shiftr va (offsetBits p)), e. auto.
    + eexists. split; [reflexivity|].
      unfold agreesWithTable. simpl. rewrite He. simpl. now rewrite Hppn, Hflags.
  - split; [assumption|]. eexists. split; [reflexivity|].
    unfold agreesWithTable. simpl. now rewrite Hpt.
  - split.
    + apply tlbCoherent_insert; [assumption..|]. simpl. intros _.
      exists (Z.shiftr va (offsetBits p)), e. auto.
    + eexists. split; [reflexivity|].
      unfold agreesWithTable. simpl. now rewrite Hpt.
Qed.

Lemma simulate_keeps_coherent (p : params) (addrs : list Z) :
  forall st st',
    simulate p st addrs = Normal st' ->
    tlbCoherent p (pageTable st) (tlbSets st) ->
    Forall (agreesWithTable (pageTable st)) (outLines st) ->
    tlbCoherent p (pageTable st') (tlbSets st') /\
    Forall (agreesWithTable (pageTable st')) (outLines st').
Proof.
  induction addrs as [|va rest IH]; intros st st' Hsim Hco Hall; simpl in Hsim.
  - injection Hsim as <-. auto.
  - destruct (step p st va) as [st1|] eqn:Hstep; simpl in Hsim; [|discriminate].
    destruct (step_keeps_coherent p st st1 va Hstep Hco) as (Hco1 & r & Hlines & Hr).
    destruct (vm_step_record p st st1 va Hstep) as (_ & _ & _ & _ & _ & _ & Hpt).
    apply (IH st1 st' Hsim Hco1).
    rewrite Hpt, Hlines. apply Forall_app. split; [assumption|]. now constructor.
Qed.

(** A record that agrees with the page table is the one of its address. *)
Lemma record_of_address (p p' : params) (pt : gmap Z entry) (r r' : access) :
  offsetBits p' = offsetBits p -> paBits p' = paBits p ->
  r_va r = r_va r' ->
  r_vpnOf r = Z.shiftr (r_va r) (offsetBits p) ->
  r_vpnOf r' = Z.shiftr (r_va r') (offsetBits p') ->
  r_offset r = Z.land (r_va r) (maskBits (offsetBits p)) ->
  r_offset r' = Z.land (r_va r') (maskBits (offsetBits p')) ->
  agreesWithTable pt r -> agreesWithTable pt r' ->
  paMatches p r -> paMatches p' r' ->
  r_vpnOf r = r_vpnOf r' /\ r_offset r = r_offset r' /\
  r_ppnOf r = r_ppnOf r' /\ r_flagsOf r = r_flagsOf r' /\ r_pa r = r_pa r'.
Proof.
  unfold agreesWithTable, paMatches.
  intros Hob Hpb Hva Hvpn Hvpn' Hoff Hoff' [Hp Hf] [Hp' Hf'] Hpa Hpa'.
  rewrite Hob in *. rewrite Hpb in *.
  assert (r_vpnOf r = r_vpnOf r') as Ev by congruence.
  assert (r_offset r = r_offset r') as Eo by congruence.
  assert (r_ppnOf r = r_ppnOf r') as Ep by congruence.
  repeat split; try assumption; [congruence|].
  now rewrite Hpa, Hpa', Ep, Eo.
Qed.

Lemma vm_simulate_fields (p : params) (addrs : list Z) :
  forall st st',
    simulate p st addrs = Normal st' ->
    Forall (fun r => r_vpnOf r = Z.shiftr (r_va r) (offsetBits p) /\
                     r_offset r = Z.land (r_va r) (maskBits (offsetBits p))) (outLines st) ->
    Forall (fun r => r_vpnOf r = Z.shiftr (r_va r) (offsetBits p) /\
                     r_offset r = Z.land (r_va r) (maskBits (offsetBits p))) (outLines st').
Proof.
  induction addrs as [|va rest IH]; intros st st' Hsim Hall; simpl in Hsim.
  - now injection Hsim as <-.
  - destruct (step p st va) as [st1|] eqn:Hstep; simpl in Hsim; [|discriminate].
    destruct (vm_step_record p st st1 va Hstep) as (r & Hlines & Hva & Hvpn & Hoff & _).
    apply (IH st1 st' Hsim). rewrite Hlines. apply Forall_app. split; [assumption|].
    constructor; [|constructor]. now rewrite Hva.
Qed.
End VmCoherence.

(** X15. An unseeded TLB is transparent.  In a run with no TLB seed rows,
    every record reports the page number and the flags that the page
    table holds for its page, or a fault when the page table has none:
    the TLB never answers with a translation that the page table does not
    give.  So the same run with the TLB switched off returns too, and its
    records carry the same address, page, offset, page number, flags and
    physical address, one for one. *)
Theorem unseeded_tlb_is_transparent (c : Vm.config) (s : Vm.state) (out : Vm.output) :
  Vm.run c s = Normal out ->
  Vm.s_tlbInitRows s = [] ->
  Forall (Spec.agreesWithTable (Vm.o_pageTable out)) (Vm.o_lines out) /\
  exists out',
    Vm.run c (Vm.State (Vm.s_vaBits s) (Vm.s_paBits s) (Vm.s_pageSize s) (Vm.s_addresses s)
                (Vm.s_mappings s) false (Vm.s_tlbEntries s) (Vm.s_tlbAssoc s)
                (Vm.s_ptInitRows s) (Vm.s_tlbInitRows s)) = Normal out' /\
    Vm.o_pageTable out' = Vm.o_pageTable out /\
    Forall2 (fun r r' =>
               Vm.r_va r = Vm.r_va r' /\ Vm.r_vpnOf r = Vm.r_vpnOf r' /\
               Vm.r_offset r = Vm.r_offset r' /\ Vm.r_ppnOf r = Vm.r_ppnOf r' /\
               Vm.r_flagsOf r = Vm.r_flagsOf r' /\ Vm.r_pa r = Vm.r_pa r')
      (Vm.o_lines out) (Vm.o_lines out').
Proof.
  intros Hrun Hrows.
  destruct (vm_run_stages c s out Hrun)
    as (ob & vb & parsed & pt0 & pt & te & ta & tib & ttb & tlb & st &
        Hsplit & Hparse & Hne & Hmap & Hpt & Hsetup & Hp & Hsim & Hout).
  destruct (vm_run_inv c s out Hrun)
    as (pt1 & tlb1 & addrs1 & st1 & Hsim1 & Hlines1 & _ & _ & Htable1 & _ & _ & _ & Hinit).
  assert (Hagree : Forall (Spec.agreesWithTable (Vm.o_pageTable out)) (Vm.o_lines out)).
  { rewrite Hlines1, Htable1.
    apply (simulate_keeps_coherent _ _ _ _ Hsim1); [|constructor].
    apply tlbCoherent_invalid. exact (Hinit Hrows). }
  split; [exact Hagree|].
  set (s' := Vm.State _ _ _ _ _ false _ _ _ _).
  destruct (vm_run_returns c s' ob vb parsed pt0 pt Hsplit Hparse Hne Hmap Hpt)
    as (out' & Hrun' & Htrace' & Htable' & _); [discriminate|].
  exists out'. split; [exact Hrun'|].
  assert (Htable : Vm.o_pageTable out = pt).
  { rewrite Hout. simpl. exact (vm_simulate_pageTable _ _ _ _ Hsim). }
  split; [congruence|].
  assert (Htrace : Vm.r_va <$> Vm.o_lines out
                   = (fun a => Bit.clampBigIntToBits a (Vm.c_vaBits c)) <$> parsed).
  { rewrite Hout. simpl.
    destruct (vm_simulate_records _ _ _ _ Hsim) as (_ & Htr & _); [constructor|].
    exact Htr. }
  destruct (vm_run_stages c s' out' Hrun')
    as (ob' & vb' & parsed' & pt0' & pt' & te' & ta' & tib' & ttb' & tlb' & st' &
        Hsplit' & _ & _ & _ & _ & Hsetup' & Hp' & Hsim' & Hout').
  rewrite Hsplit in Hsplit'. injection Hsplit' as <- <-.
  simpl in Hsetup'. injection Hsetup' as -> -> -> -> ->.
  pose proof (vm_simulate_pageTable _ _ _ _ Hsim') as Hsame'. simpl in Hsame'.
  assert (Hpt' : Vm.pageTable st' = pt).
  { rewrite <- Htable', Hout'. reflexivity. }
  assert (Hagree' : Forall (Spec.agreesWithTable pt) (Vm.o_lines out')).
  { rewrite Hout'. simpl. rewrite <- Hpt'.
    apply (simulate_keeps_coherent _ _ _ _ Hsim'); [|constructor].
    simpl. intros i setLines w ln Hi. discriminate. }
  rewrite Htable in Hagree.
  pose proof (vm_simulate_fields _ _ _ _ Hsim (Forall_nil_2 _)) as Hfields.
  pose proof (vm_simulate_fields _ _ _ _ Hsim' (Forall_nil_2 _)) as Hfields'.
  destruct (vm_simulate_records _ _ _ _ Hsim (Forall_nil_2 _)) as (Hpa & _).
  destruct (vm_simulate_records _ _ _ _ Hsim' (Forall_nil_2 _)) as (Hpa' & _).
  assert (Hl : Vm.o_lines out = Vm.outLines st) by (rewrite Hout; reflexivity).
  assert (Hl' : Vm.o_lines out' = Vm.outLines st') by (rewrite Hout'; reflexivity).
  rewrite <- Hl in Hfields, Hpa. rewrite <- Hl' in Hfields', Hpa'.
  apply Forall2_same_length_lookup_2.
  - apply (f_equal length) in Htrace, Htrace'. rewrite !length_fmap in Htrace, Htrace'.
    congruence.
  - intros i r r' Hr Hr'.
    assert (Hva : Vm.r_va r = Vm.r_va r').
    { apply (f_equal (fun l => l !! i)) in Htrace, Htrace'.
      rewrite list_lookup_fmap, Hr in Htrace. rewrite list_lookup_fmap, Hr' in Htrace'.
      simpl in Htrace, Htrace'. congruence. }
    split; [exact Hva|].
    destruct (Forall_lookup_1 _ _ _ _ Hfields Hr) as [Hv Ho].
    destruct (Forall_lookup_1 _ _ _ _ Hfields' Hr') as [Hv' Ho'].
    apply (record_of_address (Vm.o_params out) (Vm.o_params out') pt); try assumption.
    + rewrite Hp, Hp'. reflexivity.
    + rewrite Hp, Hp'. reflexivity.
    + exact (Forall_lookup_1 _ _ _ _ Hagree Hr).
    + exact (Forall_lookup_1 _ _ _ _ Hagree' Hr').
    + exact (Forall_lookup_1 _ _ _ _ Hpa Hr).
    + exact (Forall_lookup_1 _ _ _ _ Hpa' Hr').
Qed.

Lemma unseeded_tlb_is_transparent_witness :
  exists out,
    Vm.run (Vm.Config 32 32 4096)
      (Vm.State None None None (Some ("0x1004" +:+ Js.newline +:+ "0x1008"))
         (Some "0x1 -> 0xA") true (Some "4") (Some "2") [] []) = Normal out /\
    Forall (Spec.agreesWithTable (Vm.o_pageTable out)) (Vm.o_lines out).
Proof.
  eexists. split; [vm_compute; reflexivity|].
  match goal with
  | |- Forall _ (Vm.o_lines ?o) =>
      exact (proj1 (unseeded_tlb_is_transparent (Vm.Config 32 32 4096)
                      (Vm.State None None None (Some ("0x1004" +:+ Js.newline +:+ "0x1008"))
                         (Some "0x1 -> 0xA") true (Some "4") (Some "2") [] [])
                      o ltac:(vm_compute; reflexivity) eq_refl))
  end.
Defined.

(** ** The fields of a virtual address and of its translation *)

Section VmAddressFacts.
Import Js Bit Spec Vm.

Lemma lor_shifted (hi lo b : Z) :
  0 <= b -> 0 <= lo < 2 ^ b -> Z.lor (Z.shiftl hi b) lo = hi * 2 ^ b + lo.
Proof.
  intros Hb Hlo.
  assert (Hdisjoint : Z.land (Z.shiftl hi b) lo = 0).
  { apply Z.bits_inj'. intros k Hk. rewrite Z.land_spec, Z.bits_0.
    destruct (Z.lt_ge_cases k b) as [Hlt|Hge].
    - now rewrite Z.shiftl_spec_low.
    - destruct (Z.eq_dec lo 0) as [->|Hnz]; [now rewrite Z.bits_0, andb_false_r|].
      rewrite (Z.bits_above_log2 lo k), andb_false_r; [reflexivity|lia|].
      assert (Z.log2 lo < b) by (apply Z.log2_lt_pow2; lia). lia. }
  rewrite <- Z.lxor_lor, <- Z.add_nocarry_lxor, Z.shiftl_mul_pow2 by assumption.
  reflexivity.
Qed.

(** The fields of a clamped address. *)
Lemma va_fields (va ob vaBits : Z) :
  0 <= ob -> ob <= vaBits ->
  0 <= va < 2 ^ vaBits ->
  0 <= Z.land va (maskBits ob) < 2 ^ ob /\
  0 <= Z.shiftr va ob < 2 ^ (vaBits - ob) /\
  va = Z.shiftr va ob * 2 ^ ob + Z.land va (maskBits ob).
Proof.
  intros Hob Hle Hva.
  rewrite maskBits_ones, Z.land_ones, Z.shiftr_div_pow2 by lia.
  assert (Hpos : 0 < 2 ^ ob) by (apply Z.pow_pos_nonneg; lia).
  split; [apply Z.mod_pos_bound; lia|]. split.
  - split; [apply Z.div_pos; lia|].
    apply Z.div_lt_upper_bound; [lia|].
    rewrite <- Z.pow_add_r by lia. now replace (ob + (vaBits - ob)) with vaBits by lia.
  - pose proof (Z.div_mod va (2 ^ ob) ltac:(lia)). lia.
Qed.

(** The physical address keeps the page offset, and is the page number
    followed by the offset when the page number fits. *)
Lemma pa_fields (p : params) (pn off : Z) :
  0 <= offsetBits p <= paBits p -> 0 < paBits p ->
  0 <= off < 2 ^ offsetBits p ->
  0 <= physicalAddress p pn off < 2 ^ paBits p /\
  physicalAddress p pn off mod 2 ^ offsetBits p = off /\
  (0 <= pn < 2 ^ (paBits p - offsetBits p) ->
   physicalAddress p pn off = pn * 2 ^ offsetBits p + off).
Proof.
  intros Hob Hpb Hoff. unfold physicalAddress.
  rewrite clamp_mod by lia.
  rewrite lor_shifted by lia.
  assert (Hpos : 0 < 2 ^ offsetBits p) by (apply Z.pow_pos_nonneg; lia).
  assert (Hsplit : 2 ^ paBits p = 2 ^ (paBits p - offsetBits p) * 2 ^ offsetBits p).
  { rewrite <- Z.pow_add_r by lia. f_equal. lia. }
  assert (Hhi : 0 < 2 ^ (paBits p - offsetBits p)) by (apply Z.pow_pos_nonneg; lia).
  split; [apply Z.mod_pos_bound; lia|]. split.
  - rewrite Z.mod_mod_divide by (rewrite Hsplit; apply Z.divide_factor_r).
    rewrite Z.add_comm, Z.mod_add by lia. apply Z.mod_small. lia.
  - intros Hpn. apply Z.mod_small. rewrite Hsplit. nia.
Qed.
End VmAddressFacts.

(** X16. The fields of every record of a translation run with a page of
    less than 2^31 bytes.  The address is below [2^vaBits]; the offset is
    below the page size and the page number below [2^vpnBits]; page number
    and offset give the address back, [va = vpn * pageSize + offset].  A
    physical address is below [2^paBits]; when the offset fits in the
    physical width it keeps the page offset, [pa mod pageSize = offset],
    and when the page number fits in the remaining [paBits - offsetBits]
    bits it is [ppn * pageSize + offset]. *)
Theorem vm_record_fields (c : Vm.config) (s : Vm.state) (out : Vm.output) (r : Vm.access) :
  Vm.run c s = Normal out ->
  Vm.c_pageSize c < 2 ^ 31 ->
  r ∈ Vm.o_lines out ->
  let p := Vm.o_params out in
  0 <= Vm.r_va r < 2 ^ Vm.c_vaBits c /\
  0 <= Vm.r_offset r < Vm.c_pageSize c /\
  0 <= Vm.r_vpnOf r < 2 ^ Vm.vpnBits p /\
  Vm.r_va r = Vm.r_vpnOf r * Vm.c_pageSize c + Vm.r_offset r /\
  forall pn pa,
    Vm.r_ppnOf r = Some pn -> Vm.r_pa r = Some pa ->
    0 <= pa < 2 ^ Vm.c_paBits c /\
    (Vm.offsetBits p <= Vm.c_paBits c ->
     pa mod Vm.c_pageSize c = Vm.r_offset r /\
     (0 <= pn < 2 ^ (Vm.c_paBits c - Vm.offsetBits p) ->
      pa = pn * Vm.c_pageSize c + Vm.r_offset r)).
Proof.
  intros Hrun Hsmall Hin p.
  destruct (vm_run_stages c s out Hrun)
    as (ob & vb & parsed & pt0 & pt & te & ta & tib & ttb & tlb & st &
        Hsplit & _ & _ & _ & _ & _ & Hp & Hsim & Hout).
  destruct (split_inv _ _ _ _ _ Hsplit) as (Hva & Hpa & Hpow & Hob & Hvb & Hpos).
  destruct (log2IntPow2_exact (Vm.c_pageSize c)) as [Hob0 Hexact];
    [pose proof (isPowerOfTwo_pos _ Hpow); lia|assumption|].
  rewrite <- Hob in Hob0, Hexact.
  assert (Eob : Vm.offsetBits p = ob) by (subst p; rewrite Hp; reflexivity).
  assert (Epb : Vm.paBits p = Vm.c_paBits c) by (subst p; rewrite Hp; reflexivity).
  assert (Evb : Vm.vpnBits p = vb) by (subst p; rewrite Hp; reflexivity).
  fold p in Hsim.
  pose proof (vm_simulate_fields _ _ _ _ Hsim (Forall_nil_2 _)) as Hfields.
  destruct (vm_simulate_records _ _ _ _ Hsim (Forall_nil_2 _)) as (Hpas & Htrace & _).
  simpl in Htrace.
  assert (Hl : Vm.o_lines out = Vm.outLines st) by (rewrite Hout; reflexivity).
  rewrite Hl in Hin.
  rewrite Forall_forall in Hfields, Hpas.
  destruct (Hfields r Hin) as [Hvpn Hoff]. specialize (Hpas r Hin).
  assert (Hrange : 0 <= Vm.r_va r < 2 ^ Vm.c_vaBits c).
  { assert (Hmem : Vm.r_va r ∈ Vm.r_va <$> Vm.outLines st)
      by (apply list_elem_of_fmap; eauto).
    rewrite Htrace in Hmem. apply list_elem_of_fmap in Hmem as (a & -> & _).
    rewrite clamp_mod by lia. apply Z.mod_pos_bound. apply Z.pow_pos_nonneg; lia. }
  rewrite Eob in Hvpn, Hoff.
  destruct (va_fields (Vm.r_va r) ob (Vm.c_vaBits c) Hob0 ltac:(lia) Hrange)
    as (Hoffr & Hvpnr & Hsum).
  rewrite <- Hvpn, <- Hoff in Hsum. rewrite <- Hoff in Hoffr. rewrite <- Hvpn in Hvpnr.
  rewrite Hexact in Hsum, Hoffr.
  rewrite Evb, Eob, Hvb.
  split; [exact Hrange|]. split; [exact Hoffr|]. split; [exact Hvpnr|].
  split; [exact Hsum|].
  intros pn pa Hpn Hpa'.
  unfold Spec.paMatches in Hpas. rewrite Hpn, Hpa' in Hpas. simpl in Hpas.
  injection Hpas as ->.
  fold (Vm.physicalAddress p pn (Vm.r_offset r)).
  split.
  - unfold Vm.physicalAddress. rewrite Epb, clamp_mod by lia.
    apply Z.mod_pos_bound. apply Z.pow_pos_nonneg; lia.
  - intros Hle.
    destruct (pa_fields p pn (Vm.r_offset r)) as (_ & Hmod & Hfit);
      [rewrite Eob, Epb; lia|rewrite Epb; lia|rewrite Eob, Hexact; exact Hoffr|].
    rewrite Eob, Hexact in Hmod. rewrite Eob, Epb, Hexact in Hfit.
    split; assumption.
Qed.

Lemma vm_record_fields_witness :
  let r := Vm.Access 0x1004 0x1 0x004 None (Some 0xA) "RWX" (Some 0xA004) in
  Vm.r_va r = Vm.r_vpnOf r * 4096 + Vm.r_offset r.
Proof.
  intros r.
  refine (proj1 (proj2 (proj2 (proj2
            (vm_record_fields (Vm.Config 32 32 4096)
               (Vm.State (Some "32") (Some "32") (Some "4096") (Some "0x00001004")
                  (Some "0x1 0xA RWX") false None None [] [])
               (Vm.Output (Vm.Params 32 32 4096 12 20 false 0 1 0 0) [r] 0 0 1 0
                  {[ 0x1 := Vm.Entry 0xA "RWX" ]} [])
               r _ _ _))))).
  - vm_compute. reflexivity.
  - reflexivity.
  - left.
Defined.

(** ** The population of the page table *)

Section PageTableFacts.
Import Js Bit Spec Vm.

Lemma foldM_app {A B : Type} (f : A -> B -> completion A) (xs ys : list B) (a : A) :
  foldM f a (xs ++ ys) = (a' ← foldM f a xs; foldM f a' ys).
Proof.
  revert a. induction xs as [|x xs IH]; intros a; simpl; [reflexivity|].
  destruct (f a x); simpl; [apply IH|reflexivity].
Qed.

Section Fold.
Context {B : Type} (f : gmap Z entry -> B -> completion (gmap Z entry)).

(** Each item writes one entry or leaves the table, whatever the table. *)
Hypothesis item_cases : forall m x m',
  f m x = Normal m' ->
  (exists v e, writes f x v e /\ m' = <[v := e]> m) \/ m' = m.

Lemma fold_noWrite (xs : list B) (v : Z) :
  forall m m', foldM f m xs = Normal m' -> noWrite f xs v -> m' !! v = m !! v.
Proof.
  induction xs as [|x xs IH]; intros m m' H Hno; simpl in H.
  - now injection H as <-.
  - destruct (f m x) as [m1|] eqn:Hx; simpl in H; [|discriminate].
    rewrite (IH m1 m' H).
    + destruct (item_cases m x m1 Hx) as [(v' & e & Hw & ->)| ->]; [|reflexivity].
      apply lookup_insert_ne. intros ->. apply (Hno x e); [left|assumption].
    + intros y e Hy. apply Hno. now right.
Qed.

Lemma fold_lastWrite (xs : list B) (v : Z) (e : entry) (m m' : gmap Z entry) :
  foldM f m xs = Normal m' -> lastWrite f xs v e -> m' !! v = Some e.
Proof.
  intros H (pre & x & post & -> & Hw & Hno).
  rewrite foldM_app in H.
  destruct (foldM f m pre) as [m1|]; simpl in H; [|discriminate].
  rewrite (Hw m1) in H. simpl in H.
  rewrite (fold_noWrite post v _ _ H Hno). apply lookup_insert_eq.
Qed.
End Fold.

Lemma Normal_inj {A : Type} (a b : A) : Normal a = Normal b -> a = b.
Proof. now intros [= ->]. Qed.

Lemma insert_empty_inj (v v' : Z) (e e' : entry) :
  <[v := e]> (∅ : gmap Z entry) = <[v' := e']> ∅ -> v = v' /\ e = e'.
Proof.
  intros Heq. assert (Hv : (<[v' := e']> (∅ : gmap Z entry)) !! v = Some e).
  { rewrite <- Heq. apply lookup_insert_eq. }
  apply lookup_insert_Some in Hv as [[-> ->]|[_ Hv]]; [auto|].
  rewrite lookup_empty in Hv. discriminate.
Qed.

Lemma applyPtInitRow_writes (r : ptRow) (v : Z) (e : entry) :
  writes applyPtInitRow r v e <->
  parseOptionalNumToBigInt (r_vpn r) = Normal (Some v) /\
  exists pn, parseOptionalNumToBigInt (r_ppn r) = Normal (Some pn) /\
             e = Entry pn (toUpperCase (trim (r_flags r))).
Proof.
  unfold writes, applyPtInitRow. split.
  - intros Hw. specialize (Hw ∅).
    destruct (parseOptionalNumToBigInt (r_vpn r)) as [[v'|]|]; simpl in Hw;
      (destruct (parseOptionalNumToBigInt (r_ppn r)) as [[pn|]|]; simpl in Hw);
      try discriminate.
    all: try (apply Normal_inj in Hw; symmetry in Hw; now apply insert_non_empty in Hw).
    apply Normal_inj, insert_empty_inj in Hw as [-> <-]. eauto.
  - intros (-> & pn & -> & ->) m. reflexivity.
Qed.

Lemma applyPtInitRow_cases (m : gmap Z entry) (r : ptRow) (m' : gmap Z entry) :
  applyPtInitRow m r = Normal m' ->
  (exists v e, writes applyPtInitRow r v e /\ m' = <[v := e]> m) \/ m' = m.
Proof.
  intros H. pose proof H as H'. unfold applyPtInitRow in H'.
  destruct (parseOptionalNumToBigInt (r_vpn r)) as [[v|]|] eqn:Hv; simpl in H';
    (destruct (parseOptionalNumToBigInt (r_ppn r)) as [[pn|]|] eqn:Hp; simpl in H');
    try discriminate; injection H' as <-; auto.
  left. eexists _, _. split; [|reflexivity].
  apply applyPtInitRow_writes. eauto.
Qed.

Lemma parseMappingLine_cases (m : gmap Z entry) (l : string) (m' : gmap Z entry) :
  parseMappingLine m l = Normal m' ->
  (exists v e, writes parseMappingLine l v e /\ m' = <[v := e]> m) \/ m' = m.
Proof.
  unfold writes, parseMappingLine. intros H.
  destruct (filter _ _) as [|p0 [|p1 rest]]; try (injection H as <-; now right).
  destruct (parseNumToBigInt p0 "VPN") as [v|]; simpl in H; [|discriminate].
  destruct (parseNumToBigInt p1 "PPN") as [pn|]; simpl in H; [|discriminate].
  injection H as <-. left. eexists _, _. split; [|reflexivity]. reflexivity.
Qed.
End PageTableFacts.

(** X17. How the page table of a run is populated.  A row of the initial
    table writes an entry exactly when both its page and its frame number
    are filled in; the flags are trimmed and put in upper case.  For every
    page, the last row that writes it decides its entry, whatever the
    mappings text holds for the page: the table overrides the text.  When
    no row writes the page, the last line of the text that writes it
    decides, and when no line writes it either the page is unmapped. *)
Theorem page_table_population
    (text : string) (rows : list Vm.ptRow) (pt0 pt : gmap Z Vm.entry) :
  Vm.parseMappings text = Normal pt0 ->
  Vm.applyPtInitRows pt0 rows = Normal pt ->
  (forall r v e,
     Spec.writes Vm.applyPtInitRow r v e <->
     Vm.parseOptionalNumToBigInt (Vm.r_vpn r) = Normal (Some v) /\
     exists pn, Vm.parseOptionalNumToBigInt (Vm.r_ppn r) = Normal (Some pn) /\
                e = Vm.Entry pn (Js.toUpperCase (Js.trim (Vm.r_flags r)))) /\
  forall v,
    (forall e, Spec.lastWrite Vm.applyPtInitRow rows v e -> pt !! v = Some e) /\
    (Spec.noWrite Vm.applyPtInitRow rows v ->
     (forall e, Spec.lastWrite Vm.parseMappingLine (Spec.mappingLines text) v e ->
                pt !! v = Some e) /\
     (Spec.noWrite Vm.parseMappingLine (Spec.mappingLines text) v -> pt !! v = None)).
Proof.
  intros Htext Hrows. split; [exact applyPtInitRow_writes|].
  intros v. split.
  - intros e. exact (fold_lastWrite _ applyPtInitRow_cases rows v e pt0 pt Hrows).
  - intros Hno.
    rewrite (fold_noWrite _ applyPtInitRow_cases rows v pt0 pt Hrows Hno).
    split.
    + intros e. exact (fold_lastWrite _ parseMappingLine_cases _ v e ∅ pt0 Htext).
    + intros Hno'.
      rewrite (fold_noWrite _ parseMappingLine_cases _ v ∅ pt0 Htext Hno').
      apply lookup_empty.
Qed.

Lemma page_table_population_witness :
  ({[ 0x1 := Vm.Entry 0xB "R" ]} : gmap Z Vm.entry) !! 0x1 = Some (Vm.Entry 0xB "R").
Proof.
  refine (proj1 (proj2 (page_table_population "0x1 -> 0xA" [Vm.PtRow "0x1" "0xB" " r "]
                          {[ 0x1 := Vm.Entry 0xA "" ]} {[ 0x1 := Vm.Entry 0xB "R" ]} _ _) 0x1)
            (Vm.Entry 0xB "R") _).
  - vm_compute. reflexivity.
  - vm_compute. reflexivity.
  - exists [], (Vm.PtRow "0x1" "0xB" " r "), []. split; [reflexivity|]. split.
    + intros m. reflexivity.
    + intros x e Hin. now apply elem_of_nil in Hin.
Defined.

(** ** The number parser of the mapping list and of the initial rows *)

Section NumberFacts.
Import Js Bit Spec Vm.

Local Ltac by_cases_on_char c :=
  destruct c as [[] [] [] [] [] [] [] []]; vm_compute;
  let H := fresh in intros H; first [reflexivity | discriminate H].

Lemma lowerChar_zero c : charEq "0" (lowerChar c) = true -> c = "0"%char.
Proof. by_cases_on_char c. Qed.

Lemma lowerChar_x c : charEq "x" (lowerChar c) = true -> lowerChar c = "x"%char.
Proof. by_cases_on_char c. Qed.

Lemma hexDigit_digit_or_letter c :
  isHexDigit c = true -> isHexLetter c = false -> isDigit c = true.
Proof. unfold isHexDigit. destruct (isDigit c), (isHexLetter c); simpl; congruence. Qed.

Lemma hex_without_letters t :
  allChars isHexDigit t = true -> anyChar isHexLetter t = false -> allChars isDigit t = true.
Proof.
  induction t as [|c t IH]; simpl; [reflexivity|].
  intros [Hc Ht]%andb_true_iff [Hl Hr]%orb_false_iff.
  now rewrite (hexDigit_digit_or_letter c Hc Hl), IH.
Qed.

Lemma prefixed_shape t :
  isPrefixedHexLiteral t = true ->
  exists x h, t = String "0" (String x h) /\ lowerChar x = "x"%char /\
              isHexLiteral h = true.
Proof.
  unfold isPrefixedHexLiteral. intros [Hstart Hh]%andb_true_iff.
  destruct t as [|c0 [|c1 h]]; simpl in Hstart; try discriminate Hstart.
  - destruct (charEq "0" (lowerChar c0)); discriminate Hstart.
  - destruct (charEq "0" (lowerChar c0)) eqn:E0; [|discriminate Hstart].
    destruct (charEq "x" (lowerChar c1)) eqn:E1; [|discriminate Hstart].
    exists c1, h. rewrite (lowerChar_zero c0 E0). auto using lowerChar_x.
Qed.

Lemma trimEnd_idem s : trimEnd (trimEnd s) = trimEnd s.
Proof.
  induction s as [|c s IH]; simpl; [reflexivity|].
  destruct (isSpace c && isEmpty (trimEnd s)) eqn:E; [reflexivity|].
  simpl. now rewrite IH, E.
Qed.

Lemma trim_idem s : trim (trim s) = trim s.
Proof.
  unfold trim. destruct (trimStart s) as [|c r] eqn:Hs; [reflexivity|].
  pose proof (trimStart_head s c r Hs) as Hc.
  simpl. rewrite Hc. simpl. rewrite Hc. simpl. rewrite Hc. simpl.
  now rewrite trimEnd_idem.
Qed.

Lemma hexValue_nonneg s : 0 <= hexValue s.
Proof. apply digitsValue_nonneg; lia. Qed.

Lemma decValue_nonneg s : 0 <= decValue s.
Proof. apply digitsValue_nonneg; lia. Qed.

(** The three outcomes of [parseNumToBigInt]. *)
Lemma parseNumToBigInt_cases (s name : string) :
  let t := trim s in
  (allChars isSpace s = true ->
   parseNumToBigInt s name = Throw ("Missing " +:+ name)) /\
  (allChars isSpace s = false ->
   isPrefixedHexLiteral t || isHexLiteral t = false ->
   parseNumToBigInt s name
   = Throw ("Invalid " +:+ name +:+ ": " +:+ dquote +:+ s +:+ dquote)) /\
  (isPrefixedHexLiteral t || isHexLiteral t = true ->
   exists v,
     parseNumToBigInt s name = Normal v /\ 0 <= v /\
     v = if isDecimalLiteral t then decValue t
         else hexValue (if isPrefixedHexLiteral t then slice 2 t else t)).
Proof.
  intros t. unfold parseNumToBigInt. fold t.
  rewrite <- (trim_blank s). fold t.
  split; [now intros ->|]. split.
  - intros Hne Hshape. rewrite Hne, Hshape. simpl.
    destruct (isDecimalLiteral t) eqn:Hdec; [|reflexivity].
    apply decimal_is_hexLiteral in Hdec.
    rewrite Hdec, orb_true_r in Hshape. discriminate Hshape.
  - intros Hshape.
    assert (Hne : isEmpty t = false).
    { destruct t; [|reflexivity]. discriminate. }
    rewrite Hne, Hshape, andb_true_l.
    destruct (isDecimalLiteral t) eqn:Hdec.
    + pose proof (decimal_is_hexLiteral t Hdec) as [_ Hhex]%andb_true_iff.
      pose proof Hdec as [_ Hdig]%andb_true_iff.
      rewrite startsWith_0x_hex by now rewrite allChars_hex_lower.
      rewrite anyChar_hexLetter_digits by assumption. cbn [orb negb].
      exists (decValue t). auto using decValue_nonneg.
    + destruct (isPrefixedHexLiteral t) eqn:Hpre.
      * destruct (prefixed_shape t Hpre) as (x & h & Ht & Hx & Hh).
        assert (Hstart : startsWith "0x" (toLowerCase t) = true).
        { unfold isPrefixedHexLiteral in Hpre. now apply andb_true_iff in Hpre as [? _]. }
        rewrite Hstart, orb_true_l. rewrite Ht.
        rewrite (parseHex_prefixed x h Hx Hh). cbn [slice].
        exists (hexValue h). auto using hexValue_nonneg.
      * rewrite orb_false_l in Hshape. pose proof Hshape as [_ Hall]%andb_true_iff.
        destruct (anyChar isHexLetter t) eqn:Hletter.
        -- rewrite orb_true_r. rewrite (parseHex_plain t Hshape).
           exists (hexValue t). auto using hexValue_nonneg.
        -- exfalso. unfold isDecimalLiteral in Hdec.
           rewrite Hne, (hex_without_letters t Hall Hletter) in Hdec. discriminate.
Qed.
End NumberFacts.

(** X18. The outcomes of the number parser of the mapping list and of the
    seed rows, on every ASCII text.  A blank text is refused with
    [Missing <name>].  A text whose trimmed form is neither hexadecimal
    digits nor [0x] followed by hexadecimal digits is refused with
    [Invalid <name>: "<text>"], the text as given: the errors of the
    address parser never surface here.  Every other text is accepted and
    its value is not negative: the trimmed text in base 10 when it holds
    digits 0-9 only, otherwise its hexadecimal digits in base 16.  The
    optional parser returns [null] on a blank text and otherwise the value
    of the trimmed text. *)
Theorem parseNumToBigInt_outcomes (s name : string) :
  Spec.asciiText s = true ->
  let t := Js.trim s in
  (Js.allChars Js.isSpace s = true ->
   Vm.parseNumToBigInt s name = Throw ("Missing " +:+ name) /\
   Vm.parseOptionalNumToBigInt s = Normal None) /\
  (Js.allChars Js.isSpace s = false ->
   Js.isPrefixedHexLiteral t || Js.isHexLiteral t = false ->
   Vm.parseNumToBigInt s name
   = Throw ("Invalid " +:+ name +:+ ": " +:+ Js.dquote +:+ s +:+ Js.dquote) /\
   Vm.parseOptionalNumToBigInt s
   = Throw ("Invalid number: " +:+ Js.dquote +:+ t +:+ Js.dquote)) /\
  (Js.isPrefixedHexLiteral t || Js.isHexLiteral t = true ->
   exists v,
     Vm.parseNumToBigInt s name = Normal v /\
     Vm.parseOptionalNumToBigInt s = Normal (Some v) /\
     0 <= v /\
     v = if Js.isDecimalLiteral t then Js.decValue t
         else Js.hexValue (if Js.isPrefixedHexLiteral t then Js.slice 2 t else t)).
Proof.
  intros _ t.
  destruct (parseNumToBigInt_cases s name) as (Hblank & Hbad & Hgood).
  fold t in Hbad, Hgood.
  assert (Htrim : Js.trim t = t) by apply trim_idem.
  split; [|split].
  - intros Hs. split; [now apply Hblank|].
    unfold Vm.parseOptionalNumToBigInt. now rewrite trim_blank, Hs.
  - intros Hs Hshape. split; [now apply Hbad|].
    unfold Vm.parseOptionalNumToBigInt. rewrite trim_blank, Hs. fold t.
    destruct (parseNumToBigInt_cases t "number") as (_ & Hbad' & _).
    rewrite Htrim in Hbad'. rewrite Hbad'; [reflexivity| |assumption].
    rewrite <- trim_blank, Htrim. unfold t. now rewrite trim_blank.
  - intros Hshape. destruct (Hgood Hshape) as (v & Hv & Hpos & Hval).
    exists v. split; [assumption|]. split; [|split; assumption].
    unfold Vm.parseOptionalNumToBigInt.
    assert (Hne : Js.isEmpty t = false).
    { destruct (Js.trim s) eqn:E; [|reflexivity]. subst t. discriminate. }
    fold t. rewrite Hne.
    destruct (parseNumToBigInt_cases t "number") as (_ & _ & Hgood').
    rewrite Htrim in Hgood'. destruct (Hgood' Hshape) as (v' & Hv' & _ & Hval').
    rewrite Hv'. simpl. congruence.
Qed.

Lemma parseNumToBigInt_outcomes_witness :
  exists v, Vm.parseNumToBigInt " 0x1F " "VPN" = Normal v /\ 0 <= v.
Proof.
  destruct (proj2 (proj2 (parseNumToBigInt_outcomes " 0x1F " "VPN" eq_refl)) eq_refl)
    as (v & Hv & _ & Hpos & _).
  exists v. split; assumption.
Defined.

(** ** Locality in the TLB *)

Section TlbLocality.
Import Js Bit Spec Vm.

Lemma vm_findHit_None (t : Z) (setLines : list line) :
  findHit t setLines = None ->
  Forall (fun x => ~ (valid x = true /\ tag x = t)) setLines.
Proof.
  unfold findHit. intros Hf. apply fmap_None in Hf.
  now apply list_find_None in Hf.
Qed.

Lemma vm_findHit_after_insert (setLines : list line) (w : nat) (x : line) (t : Z) :
  (w < length setLines)%nat ->
  valid x = true -> tag x = t ->
  (forall j y, (j < w)%nat -> setLines !! j = Some y -> ~ (valid y = true /\ tag y = t)) ->
  findHit t (<[w := x]> setLines) = Some w.
Proof.
  intros Hw Hv Ht Hbefore. unfold findHit.
  assert (Hfind : list_find (fun ln => valid ln = true /\ tag ln = t) (<[w := x]> setLines)
                  = Some (w, x)).
  { apply list_find_Some. split; [now apply list_lookup_insert_eq|]. split; [auto|].
    intros j y Hj Hlt. rewrite list_lookup_insert_ne in Hj by lia. now apply (Hbefore j y). }
  simpl in *. now rewrite Hfind.
Qed.

(** What a resolved access leaves in the TLB: the first line of its set
    that matches its tag holds its page number and its flags. *)
Lemma step_leaves_translation (p : params) (st st1 : sim) (va : Z) (r1 : access) (pn : Z) :
  enableTLB p = true ->
  step p st va = Normal st1 ->
  last (outLines st1) = Some r1 ->
  r_ppnOf r1 = Some pn ->
  exists setLines w ln,
    tlbSets st1 !! Z.to_nat (tlbIndexOf p (Z.shiftr va (offsetBits p))) = Some setLines /\
    findHit (Z.shiftr (Z.shiftr va (offsetBits p)) (tlbIndexBits p)) setLines = Some w /\
    setLines !! w = Some ln /\
    ppn ln = pn /\ flags ln = r_flagsOf r1.
Proof.
  intros Hon Hstep Hlast Hpn.
  destruct (vm_step_cases p st st1 va Hstep)
    as [(Hoff & _)|[(e & Hoff & _)|[(setLines & w & ln & _ & Hset & Hfind & ->)|
        [(setLines & _ & _ & _ & _ & ->)|(setLines & e & _ & Hset & Hmiss & _ & Hv & ->)]]]];
    try congruence; simpl in Hlast; apply last_snoc_record in Hlast; subst r1;
    simpl in Hpn; try discriminate; injection Hpn as <-; simpl.
  - apply list_find_Some in Hfind as (Hln & [Hvalid Htag] & Hbefore).
    pose proof (lookup_lt_Some _ _ _ Hln) as Hw.
    eexists _, w, _. split; [apply list_lookup_insert_eq; now apply lookup_lt_Some in Hset|].
    split; [|split; [now apply list_lookup_insert_eq|split; reflexivity]].
    apply vm_findHit_after_insert; try assumption.
    intros j y Hj Hy. now apply (Hbefore j y).
  - eexists _, _, _. split; [apply list_lookup_insert_eq; now apply lookup_lt_Some in Hset|].
    split; [|split; [now apply list_lookup_insert_eq|split; reflexivity]].
    apply vm_findHit_after_insert; try assumption; try reflexivity.
    intros j y Hj Hy. apply vm_findHit_None in Hmiss. rewrite Forall_lookup in Hmiss.
    exact (Hmiss j y Hy).
Qed.
End TlbLocality.

(** X19. A page just translated hits in the TLB: with the TLB on, after
    an access that resolved to a page number, by a TLB hit or by the page
    table, the next access to an address of the same page returns, is a TLB
    hit with the same page number and flags, computes its physical address
    from that page number and its own offset, and does not read the page
    table: only [tlbHits] moves. *)
Theorem tlb_reaccess_hits
    (p : Vm.params) (st st1 : Vm.sim) (va va' : Z) (r1 : Vm.access) (pn : Z) :
  Vm.enableTLB p = true ->
  Vm.step p st va = Normal st1 ->
  last (Vm.outLines st1) = Some r1 ->
  Vm.r_ppnOf r1 = Some pn ->
  Z.shiftr va' (Vm.offsetBits p) = Z.shiftr va (Vm.offsetBits p) ->
  exists st2 r2,
    Vm.step p st1 va' = Normal st2 /\
    last (Vm.outLines st2) = Some r2 /\
    Spec.isTlbHit r2 = true /\
    Vm.r_ppnOf r2 = Some pn /\ Vm.r_flagsOf r2 = Vm.r_flagsOf r1 /\
    Vm.r_pa r2
      = Some (Vm.physicalAddress p pn (Z.land va' (Bit.maskBits (Vm.offsetBits p)))) /\
    Vm.tlbHits st2 = Vm.tlbHits st1 + 1 /\ Vm.tlbMisses st2 = Vm.tlbMisses st1 /\
    Vm.ptHits st2 = Vm.ptHits st1 /\ Vm.ptMisses st2 = Vm.ptMisses st1.
Proof.
  intros Hon Hstep Hlast Hpn Hpage.
  destruct (step_leaves_translation p st st1 va r1 pn Hon Hstep Hlast Hpn)
    as (setLines & w & ln & Hset & Hfind & Hln & Hppn & Hflags).
  unfold Vm.step, Vm.tlbLookup. rewrite Hon, Hpage, Hset, Hfind, Hln. simpl.
  eexists _, _. split; [reflexivity|]. simpl. rewrite last_snoc.
  split; [reflexivity|]. unfold Spec.isTlbHit. simpl.
  rewrite Hppn, Hflags. repeat split.
Qed.

Lemma tlb_reaccess_hits_witness :
  let p := Vm.Params 32 32 4096 12 20 true 4 2 1 19 in
  let st := Vm.Sim {[ 0x1 := Vm.Entry 0xA "RWX" ]} (Vm.initTLB 2 2) 0 0 0 0 0 [] in
  exists st1 st2 r2,
    Vm.step p st 0x1004 = Normal st1 /\
    Vm.step p st1 0x1FF0 = Normal st2 /\
    last (Vm.outLines st2) = Some r2 /\ Vm.r_pa r2 = Some 0xAFF0.
Proof.
  intros p st. eexists.
  destruct (tlb_reaccess_hits p st _ 0x1004 0x1FF0 _ 0xA eq_refl eq_refl eq_refl eq_refl eq_refl)
    as (st2 & r2 & Hstep & Hlast & _ & _ & _ & Hpa & _).
  exists st2, r2. split; [reflexivity|]. repeat split; assumption.
Defined.

(** ** The time stamps of the seeded TLB *)

Section SeedFacts.
Import Js Bit Spec Vm.

Lemma lineAt_insert {L : Type} (sets : list (list L)) (si wi : nat) (setLines : list L)
    (x : L) (i w : nat) (ln : L) :
  sets !! si = Some setLines ->
  lineAt (<[si := <[wi := x]> setLines]> sets) i w = Some ln ->
  (i = si /\ w = wi /\ ln = x) \/
  ((i <> si \/ w <> wi) /\ lineAt sets i w = Some ln).
Proof.
  unfold lineAt. intros Hset H.
  destruct (decide (i = si)) as [->|Hi].
  - rewrite list_lookup_insert_eq in H by now apply lookup_lt_Some in Hset.
    simpl in H. rewrite Hset. simpl.
    apply list_lookup_insert_Some in H as [(<- & <- & _)|(Hne & H)]; [now left|].
    right. split; [right; congruence|assumption].
  - rewrite list_lookup_insert_ne in H by congruence. right. auto.
Qed.

Lemma seed_row_keeps_distinct (t0 : Z) (acc acc' : list (list line) * Z) (r : tlbRow) :
  autoStamped r ->
  applyTlbInitRow acc r = Normal acc' ->
  stampsDistinct t0 acc ->
  stampsDistinct t0 acc' /\ acc'.2 <= acc.2 + 1.
Proof.
  intros Hauto Hrow (Hbase & Hrange & Hdist).
  destruct acc as [tlb t], acc' as [tlb' t']. simpl in *.
  destruct (applyTlbInitRow_cases tlb tlb' t t' r Hrow)
    as [[-> ->]|(si & wi & setLines & tg & pn & stamp & _ & _ & _ & _ & Hset & _ & _ & Hst & ->)].
  { split; [|lia]. split; [assumption|]. split; assumption. }
  unfold autoStamped in Hauto. rewrite Hauto in Hst. injection Hst as -> ->.
  split; [|lia]. split; [simpl; lia|]. split; simpl.
  - intros i w ln Hln Hvalid.
    destruct (lineAt_insert _ _ _ _ _ _ _ _ Hset Hln) as [(_ & _ & ->)|(_ & Hold)].
    + simpl. lia.
    + specialize (Hrange i w ln Hold Hvalid). lia.
  - intros i w i' w' ln ln' Hln Hln' Hv Hv' Heq.
    destruct (lineAt_insert _ _ _ _ _ _ _ _ Hset Hln) as [(-> & -> & ->)|(_ & Hold)];
      destruct (lineAt_insert _ _ _ _ _ _ _ _ Hset Hln') as [(-> & -> & ->)|(_ & Hold')].
    + auto.
    + specialize (Hrange i' w' ln' Hold' Hv'). simpl in Heq. lia.
    + specialize (Hrange i w ln Hold Hv). simpl in Heq. lia.
    + now apply (Hdist i w i' w' ln ln').
Qed.

Lemma seed_rows_keep_distinct (t0 : Z) (rows : list tlbRow) :
  Forall autoStamped rows ->
  forall acc acc',
    foldM applyTlbInitRow acc rows = Normal acc' ->
    stampsDistinct t0 acc ->
    stampsDistinct t0 acc' /\ acc'.2 <= acc.2 + Z.of_nat (length rows).
Proof.
  induction 1 as [|r rows Hr Hrows IH]; intros acc acc' H Hinv; simpl in H.
  - injection H as <-. split; [assumption|simpl; lia].
  - destruct (applyTlbInitRow acc r) as [acc1|] eqn:Hrow; simpl in H; [|discriminate].
    destruct (seed_row_keeps_distinct t0 acc acc1 r Hr Hrow Hinv) as [Hinv1 Hle1].
    destruct (IH acc1 acc' H Hinv1) as [Hinv' Hle']. split; [assumption|].
    simpl length. lia.
Qed.

Lemma lineAt_initTLB (n a : Z) (i w : nat) (ln : line) :
  lineAt (initTLB n a) i w = Some ln -> valid ln = false.
Proof.
  unfold lineAt. destruct (initTLB n a !! i) as [setLines|] eqn:Hset; [|discriminate].
  simpl. intros Hln. exact (initTLB_invalid n a i w setLines ln Hset Hln).
Qed.
End SeedFacts.

(** X20. The order of the seeded TLB is deterministic: when every seed
    row leaves [lastUsed] blank, the valid lines of the TLB after
    [applyTlbInitRows] on a fresh TLB carry pairwise distinct time stamps,
    each after the time base and at most the base plus the number of
    rows; so no two lines of a set tie in the LRU order. *)
Theorem seeded_stamps_distinct
    (n a timeBase : Z) (rows : list Vm.tlbRow) (tlb : list (list Vm.line)) :
  Forall Spec.autoStamped rows ->
  Vm.applyTlbInitRows (Vm.initTLB n a) rows timeBase = Normal tlb ->
  (forall i w ln,
     Spec.lineAt tlb i w = Some ln -> Vm.valid ln = true ->
     timeBase < Vm.lastUsed ln <= timeBase + Z.of_nat (length rows)) /\
  (forall i w i' w' ln ln',
     Spec.lineAt tlb i w = Some ln -> Spec.lineAt tlb i' w' = Some ln' ->
     Vm.valid ln = true -> Vm.valid ln' = true ->
     Vm.lastUsed ln = Vm.lastUsed ln' -> i = i' /\ w = w').
Proof.
  intros Hauto Hseed. unfold Vm.applyTlbInitRows in Hseed.
  destruct (Vm.foldM Vm.applyTlbInitRow (Vm.initTLB n a, timeBase) rows)
    as [[tlb' t']|] eqn:Hfold; simpl in Hseed; [|discriminate].
  injection Hseed as <-.
  destruct (seed_rows_keep_distinct timeBase rows Hauto _ _ Hfold)
    as [(_ & Hrange & Hdist) Hle].
  { split; [simpl; lia|]. split; simpl.
    - intros i w ln Hln Hvalid. rewrite (lineAt_initTLB n a i w ln Hln) in Hvalid.
      discriminate.
    - intros i w i' w' ln ln' Hln _ Hvalid.
      rewrite (lineAt_initTLB n a i w ln Hln) in Hvalid. discriminate. }
  simpl in *. split; [|exact Hdist].
  intros i w ln Hln Hvalid. specialize (Hrange i w ln Hln Hvalid). lia.
Qed.

Lemma seeded_stamps_distinct_witness :
  0 < Vm.lastUsed (Vm.Line true 9 12 "" 3) <= 0 + 3.
Proof.
  refine (proj1 (seeded_stamps_distinct 1 2 0
                   [Vm.TlbRow "0" "0" "0x5" "0xB" "r" ""; Vm.TlbRow "0" "0" "7" "11" "r" "";
                    Vm.TlbRow "0" "1" "9" "12" "" " "]
                   [[Vm.Line true 7 11 "R" 2; Vm.Line true 9 12 "" 3]] _ _)
            0%nat 1%nat (Vm.Line true 9 12 "" 3) eq_refl eq_refl).
  - repeat constructor.
  - vm_compute. reflexivity.
Defined.

(** ** The format of a mapping line *)

Section MappingLineFacts.
Import Js Bit Spec Vm.

Local Abbreviation commas := (mapChars (fun c => if charEq c "," then " "%char else c)).

Lemma append_cons (c : ascii) (a b : string) : String c a +:+ b = String c (a +:+ b).
Proof. reflexivity. Qed.

Lemma append_empty_r (a : string) : a +:+ "" = a.
Proof. induction a as [|c a IH]; [reflexivity|]. now rewrite append_cons, IH. Qed.

(** The text does not start with the head of an arrow. *)
Local Abbreviation noArrowHead u :=
  (match u with String c _ => charEq c ">" = false | EmptyString => True end).

Lemma replaceArrows_cons (c : ascii) (s : string) :
  charEq c "-" = false \/ noArrowHead s ->
  replaceArrows (String c s) = String c (replaceArrows s).
Proof.
  intros Hc. destruct s as [|c2 s]; [reflexivity|]. simpl.
  destruct (charEq c "-"); [|reflexivity].
  destruct Hc as [Hc|Hc]; [discriminate|]. now rewrite Hc.
Qed.

Lemma wordChar_facts (c : ascii) :
  isWordChar c = true ->
  isSpace c = false /\ charEq c "," = false /\ charEq c ">" = false.
Proof.
  destruct c as [[] [] [] [] [] [] [] []]; vm_compute;
    let H := fresh in intros H; first [discriminate H | repeat split].
Qed.

(** A word goes through the replacements of commas and arrows unchanged,
    a dash of the word included, since no [>] follows it. *)
Lemma clean_word (w u : string) :
  allChars isWordChar w = true ->
  noArrowHead (commas u) ->
  replaceArrows (commas (w +:+ u)) = w +:+ replaceArrows (commas u).
Proof.
  induction w as [|c w IH]; intros Hw Hu; [reflexivity|].
  simpl in Hw. apply andb_true_iff in Hw as [Hc Hw].
  destruct (wordChar_facts c Hc) as (_ & Hcomma & _).
  rewrite !append_cons. simpl mapChars. rewrite Hcomma.
  rewrite replaceArrows_cons; [now rewrite IH|].
  right. destruct w as [|c2 w]; [exact Hu|].
  simpl in Hw. apply andb_true_iff in Hw as [Hc2 _].
  destruct (wordChar_facts c2 Hc2) as (_ & Hcomma2 & Hgt2).
  rewrite append_cons. simpl. now rewrite Hcomma2.
Qed.

(** A separator does not start with the head of an arrow. *)
Lemma separator_head (sep u : string) :
  isSeparator sep = true -> noArrowHead (commas (sep +:+ u)).
Proof.
  intros [Hne Hsep]%andb_true_iff. destruct sep as [|c sep]; [discriminate|].
  rewrite append_cons. simpl. simpl in Hsep. revert Hsep.
  destruct c as [[] [] [] [] [] [] [] []]; vm_compute; try discriminate; reflexivity.
Qed.

Lemma space_not_dash (c : ascii) : isSpace c = true -> charEq c "-" = false.
Proof.
  destruct c as [[] [] [] [] [] [] [] []]; vm_compute;
    let H := fresh in intros H; first [reflexivity | discriminate H].
Qed.

(** A separator becomes a run of white space. *)
Lemma clean_separator (n : nat) :
  forall sep, (String.length sep < n)%nat -> isSepBody sep = true ->
    exists sp,
      allChars isSpace sp = true /\ isEmpty sp = isEmpty sep /\
      forall u, replaceArrows (commas (sep +:+ u)) = sp +:+ replaceArrows (commas u).
Proof.
  induction n as [|n IH]; intros sep Hlen Hsep; [lia|].
  destruct sep as [|c sep]; [exists ""; auto|].
  simpl in Hsep, Hlen.
  destruct (isSpace c || charEq c ",") eqn:Hc.
  - destruct (IH sep ltac:(lia) Hsep) as (sp & Hsp & _ & Hclean).
    exists (String (if charEq c "," then " "%char else c) sp).
    split; [|split; [reflexivity|]].
    + simpl. rewrite Hsp, andb_true_r.
      destruct (charEq c ","); [reflexivity|]. now rewrite orb_false_r in Hc.
    + intros u. rewrite !append_cons. simpl mapChars.
      rewrite replaceArrows_cons, Hclean; [reflexivity|]. left.
      destruct (charEq c ",") eqn:E; [reflexivity|].
      rewrite orb_false_r in Hc. now apply space_not_dash.
  - destruct (charEq c "-") eqn:Hdash; [|discriminate].
    destruct sep as [|c2 sep]; [discriminate|].
    apply andb_true_iff in Hsep as [Hgt Hsep]. simpl in Hlen.
    destruct (IH sep ltac:(lia) Hsep) as (sp & Hsp & _ & Hclean).
    exists (String " " sp). split; [simpl; now rewrite Hsp|]. split; [reflexivity|].
    intros u.
    apply charEq_true in Hdash, Hgt. subst c c2.
    rewrite !append_cons. simpl. now rewrite Hclean.
Qed.

Lemma collapse_word (w u : string) :
  allChars isWordChar w = true ->
  collapseSpacesGo false (w +:+ u) = w +:+ collapseSpacesGo false u.
Proof.
  induction w as [|c w IH]; intros Hw; [reflexivity|].
  simpl in Hw. apply andb_true_iff in Hw as [Hc Hw].
  destruct (wordChar_facts c Hc) as (Hsp & _).
  rewrite !append_cons. simpl. now rewrite Hsp, IH.
Qed.

Lemma collapse_after_run (w u : string) (b : bool) :
  isWord w = true ->
  collapseSpacesGo b (w +:+ u) = w +:+ collapseSpacesGo false u.
Proof.
  intros [Hne Hw]%andb_true_iff. destruct w as [|c w]; [discriminate|].
  simpl in Hw. apply andb_true_iff in Hw as [Hc Hw].
  destruct (wordChar_facts c Hc) as (Hsp & _).
  rewrite !append_cons. simpl. rewrite Hsp.
  now rewrite collapse_word.
Qed.

Lemma collapse_run (sp u : string) :
  allChars isSpace sp = true ->
  collapseSpacesGo true (sp +:+ u) = collapseSpacesGo true u.
Proof.
  induction sp as [|c sp IH]; intros Hsp; [reflexivity|].
  simpl in Hsp. apply andb_true_iff in Hsp as [Hc Hsp].
  rewrite append_cons. simpl. now rewrite Hc, IH.
Qed.

Lemma collapse_separator (sp u : string) :
  allChars isSpace sp = true -> isEmpty sp = false ->
  collapseSpacesGo false (sp +:+ u) = String " " (collapseSpacesGo true u).
Proof.
  intros Hsp Hne. destruct sp as [|c sp]; [discriminate|].
  simpl in Hsp. apply andb_true_iff in Hsp as [Hc Hsp].
  rewrite append_cons. simpl. now rewrite Hc, collapse_run.
Qed.

(** The cleaned line: the words, one blank between two. *)
Lemma clean_line (rest : list (string * string)) :
  forall w b,
    isWord w = true ->
    Forall (fun p => isSeparator p.1 = true /\ isWord p.2 = true) rest ->
    collapseSpacesGo b (replaceArrows (commas (mappingLine w rest)))
    = String.concat " " (w :: (snd <$> rest)).
Proof.
  induction rest as [|[sep w'] rest IH]; intros w b Hw Hrest.
  - simpl. pose proof Hw as [_ Hchars]%andb_true_iff.
    rewrite <- (append_empty_r w) at 1. rewrite clean_word by (assumption || exact I).
    rewrite collapse_after_run by assumption. simpl. apply append_empty_r.
  - apply Forall_cons in Hrest as [[Hsep Hw'] Hrest]. simpl in Hsep, Hw'.
    pose proof Hw as [_ Hchars]%andb_true_iff.
    pose proof (separator_head sep (mappingLine w' rest) Hsep) as Hhead.
    apply andb_true_iff in Hsep as [Hne Hsep]. apply negb_true_iff in Hne.
    destruct (clean_separator (S (String.length sep)) sep ltac:(lia) Hsep)
      as (sp & Hsp & Hempty & Hclean).
    simpl mappingLine. rewrite clean_word by assumption.
    rewrite Hclean, collapse_after_run by assumption.
    rewrite collapse_separator by congruence.
    rewrite (IH w' true Hw' Hrest). reflexivity.
Qed.

Lemma rev_app_rev_app (w acc acc' : string) :
  String.rev_app (String.rev_app w acc) acc' = String.rev_app acc (w +:+ acc').
Proof.
  revert acc acc'. induction w as [|c w IH]; intros acc acc'; [reflexivity|].
  simpl. now rewrite IH.
Qed.

Lemma rev_rev_app (w : string) : String.rev (String.rev_app w "") = w.
Proof. unfold String.rev. rewrite rev_app_rev_app. simpl. apply append_empty_r. Qed.

Lemma split_word (w u cur : string) :
  allChars isWordChar w = true ->
  splitSpacesGo cur (w +:+ u) = splitSpacesGo (String.rev_app w cur) u.
Proof.
  revert cur. induction w as [|c w IH]; intros cur Hw; [reflexivity|].
  simpl in Hw. apply andb_true_iff in Hw as [Hc Hw].
  rewrite append_cons. simpl.
  assert (Hblank : charEq c " " = false).
  { destruct (charEq c " ") eqn:E; [|reflexivity].
    apply charEq_true in E. subst c. discriminate. }
  now rewrite Hblank, IH.
Qed.

Lemma split_words (ws : list string) :
  forall w,
    Forall (fun x => isWord x = true) (w :: ws) ->
    splitSpaces (String.concat " " (w :: ws)) = w :: ws.
Proof.
  unfold splitSpaces.
  induction ws as [|w' ws IH]; intros w Hws.
  - apply Forall_cons in Hws as [[_ Hw]%andb_true_iff _]. simpl.
    rewrite <- (append_empty_r w) at 1. rewrite split_word by assumption. simpl.
    now rewrite rev_rev_app.
  - apply Forall_cons in Hws as [[_ Hw]%andb_true_iff Hws].
    change (String.concat " " (w :: w' :: ws))
      with (w +:+ String " " (String.concat " " (w' :: ws))).
    rewrite split_word by assumption. cbn [splitSpacesGo].
    rewrite charEq_refl, (IH w' Hws). now rewrite rev_rev_app.
Qed.

(** The words of a line of the grammar. *)
Lemma mapping_line_parts (w : string) (rest : list (string * string)) :
  isWord w = true ->
  Forall (fun p => isSeparator p.1 = true /\ isWord p.2 = true) rest ->
  filter (fun x => isEmpty x = false)
    (splitSpaces (collapseSpaces (replaceArrows (commas (mappingLine w rest)))))
  = w :: (snd <$> rest).
Proof.
  intros Hw Hrest. unfold collapseSpaces. rewrite clean_line by assumption.
  assert (Hwords : Forall (fun x => isWord x = true) (w :: (snd <$> rest))).
  { constructor; [assumption|]. apply Forall_fmap.
    eapply Forall_impl; [exact Hrest|]. now intros p [_ ?]. }
  rewrite split_words by assumption.
  induction Hwords as [|x l Hx Hl IHl]; [reflexivity|].
  rewrite filter_cons. case_decide as Hd.
  - f_equal. exact IHl.
  - exfalso. apply Hd. apply andb_true_iff in Hx as [Hne _].
    now apply negb_true_iff in Hne.
Qed.
End MappingLineFacts.

(** X21. The flexible format of a mapping line.  In a line made of words
    and separators, where a separator is any run of white space, commas
    and arrows [->] and a word is made of printable characters other than
    the comma and [>], the first word is the page and the second the frame, whatever the separators are:
    [0x123 -> 0x45], [0x123 0x45] and [0x123,0x45] are read alike.  The
    words after the second are the flags: they are joined and put in upper
    case, so [R W X] and [rwx] give the flags [RWX], and a dash is kept,
    as in [R--].  A line of one word is skipped. *)
Theorem mapping_line_format
    (m : gmap Z Vm.entry) (w1 sep1 w2 : string) (rest : list (string * string)) :
  Spec.isWord w1 = true -> Spec.isSeparator sep1 = true -> Spec.isWord w2 = true ->
  Forall (fun p => Spec.isSeparator p.1 = true /\ Spec.isWord p.2 = true) rest ->
  Vm.parseMappingLine m (Spec.mappingLine w1 ((sep1, w2) :: rest))
  = (vpn ← Vm.parseNumToBigInt w1 "VPN";
     ppn ← Vm.parseNumToBigInt w2 "PPN";
     Normal (<[vpn := Vm.Entry ppn (Js.toUpperCase (String.concat "" (snd <$> rest)))]> m)) /\
  Vm.parseMappingLine m w1 = Normal m.
Proof.
  intros Hw1 Hsep1 Hw2 Hrest. split.
  - unfold Vm.parseMappingLine.
    rewrite (mapping_line_parts w1 ((sep1, w2) :: rest) Hw1); [reflexivity|].
    constructor; [split; assumption|assumption].
  - unfold Vm.parseMappingLine.
    change w1 with (Spec.mappingLine w1 []) at 1.
    rewrite (mapping_line_parts w1 [] Hw1); [reflexivity|constructor].
Qed.

Lemma mapping_line_format_witness :
  Vm.parseMappingLine ∅ "0x123,->  0x45 r w" = Normal {[ 0x123 := Vm.Entry 0x45 "RW" ]}.
Proof.
  refine (eq_trans (proj1 (mapping_line_format ∅ "0x123" ",->  " "0x45"
                             [(" ", "r"); (" ", "w")] _ _ _ _)) _).
  - reflexivity.
  - reflexivity.
  - reflexivity.
  - repeat constructor.
  - vm_compute. reflexivity.
Defined.

(** ** The reader of the configuration numbers *)

Section IntFacts.
Import Js Bit Spec.

Lemma digit_not_space c : isDigit c = true -> isSpace c = false.
Proof.
  destruct c as [[] [] [] [] [] [] [] []]; vm_compute;
    let H := fresh in intros H; first [reflexivity | discriminate H].
Qed.

Lemma digit_not_sign c :
  isDigit c = true -> charEq c "-" = false /\ charEq c "+" = false.
Proof.
  destruct c as [[] [] [] [] [] [] [] []]; vm_compute;
    let H := fresh in intros H; first [discriminate H | split; reflexivity].
Qed.

Lemma trimStart_run (ws u : string) :
  allChars isSpace ws = true -> trimStart (ws +:+ u) = trimStart u.
Proof.
  induction ws as [|c ws IH]; intros Hws; [reflexivity|].
  simpl in Hws. apply andb_true_iff in Hws as [Hc Hws].
  rewrite append_cons. simpl. now rewrite Hc, IH.
Qed.

Lemma trimEnd_digits (d u : string) :
  allChars isDigit d = true -> trimEnd (d +:+ u) = d +:+ trimEnd u.
Proof.
  induction d as [|c d IH]; intros Hd; [reflexivity|].
  simpl in Hd. apply andb_true_iff in Hd as [Hc Hd].
  rewrite !append_cons. simpl. now rewrite (digit_not_space c Hc), IH.
Qed.

Lemma takeDigits_app (d u : string) :
  allChars isDigit d = true ->
  (u = "" \/ exists c r, u = String c r /\ isDigit c = false) ->
  takeDigits (d +:+ u) = d.
Proof.
  intros Hd Hu. induction d as [|c d IH].
  - destruct Hu as [->|(c & r & -> & Hc)]; [reflexivity|]. simpl. now rewrite Hc.
  - simpl in Hd. apply andb_true_iff in Hd as [Hc Hd].
    rewrite append_cons. simpl. now rewrite Hc, IH.
Qed.

(** The end of the text after the digits, once trimmed, is still empty or
    starts with the same character. *)
Lemma trimEnd_rest (u : string) :
  (u = "" \/ exists c r, u = String c r /\ isDigit c = false) ->
  trimEnd u = "" \/ exists c r, trimEnd u = String c r /\ isDigit c = false.
Proof.
  intros [->|(c & r & -> & Hc)]; [now left|]. simpl.
  destruct (isSpace c && isEmpty (trimEnd r)); [now left|right; eauto].
Qed.

Lemma parseInt10_unsigned (d u : string) :
  isDecimalLiteral d = true ->
  (u = "" \/ exists c r, u = String c r /\ isDigit c = false) ->
  parseInt10 (d +:+ u) = Some (decValue d).
Proof.
  intros [Hne Hd]%andb_true_iff Hu. unfold parseInt10.
  destruct d as [|c d]; [discriminate|].
  pose proof Hd as [Hc Hd']%andb_true_iff.
  destruct (digit_not_sign c Hc) as [Hminus Hplus].
  rewrite append_cons. simpl trimStart. rewrite (digit_not_space c Hc).
  rewrite Hminus, Hplus. rewrite <- append_cons.
  now rewrite takeDigits_app.
Qed.

Lemma parseInt10_signed (sign : ascii) (d u : string) :
  isDecimalLiteral d = true ->
  (u = "" \/ exists c r, u = String c r /\ isDigit c = false) ->
  sign = "-"%char \/ sign = "+"%char ->
  parseInt10 (String sign (d +:+ u))
  = Some (if charEq sign "-" then - decValue d else decValue d).
Proof.
  intros [Hne Hd]%andb_true_iff Hu Hsign. unfold parseInt10.
  destruct d as [|c d]; [discriminate|].
  destruct Hsign as [-> | ->]; simpl trimStart; cbv iota;
    rewrite ?charEq_refl; change (charEq "+" "-") with false; cbv iota;
    rewrite ?charEq_refl; now rewrite takeDigits_app.
Qed.
End IntFacts.

(** X22. What the reader of the configuration numbers accepts.  After
    leading white space and an optional sign, [parseIntStrict] reads the
    longest run of decimal digits and ignores whatever follows it, so
    [12abc] is 12, [1e3] is 1 and [0x10] is 0; the value is the one of the
    digits in base 10, negated after a minus sign.  The statement is for
    digits that denote a number below 2^53. *)
Theorem parseIntStrict_reads_numeric_prefix (ws d rest name : string) :
  Js.allChars Js.isSpace ws = true ->
  Js.isDecimalLiteral d = true ->
  Js.decValue d < 2 ^ 53 ->
  (rest = "" \/ exists c r, rest = String c r /\ Js.isDigit c = false) ->
  parseIntStrict (ws +:+ d +:+ rest) name = Normal (Js.decValue d) /\
  parseIntStrict (ws +:+ "+" +:+ d +:+ rest) name = Normal (Js.decValue d) /\
  parseIntStrict (ws +:+ "-" +:+ d +:+ rest) name = Normal (- Js.decValue d).
Proof.
  intros Hws Hd _ Hrest. unfold parseIntStrict, Js.trim.
  pose proof Hd as [_ Hdigits]%andb_true_iff.
  pose proof (trimEnd_rest rest Hrest) as Hrest'.
  rewrite (trimStart_run ws (d +:+ rest)), (trimStart_run ws ("+" +:+ d +:+ rest)),
    (trimStart_run ws ("-" +:+ d +:+ rest)) by assumption.
  assert (Hstart : forall u, Js.trimStart (d +:+ u) = d +:+ u).
  { intros u. destruct d as [|c d]; [discriminate|].
    simpl in Hdigits. apply andb_true_iff in Hdigits as [Hc _].
    rewrite append_cons. simpl. now rewrite (digit_not_space c Hc). }
  rewrite Hstart.
  change (Js.trimStart ("+" +:+ d +:+ rest)) with (String "+" (d +:+ rest)).
  change (Js.trimStart ("-" +:+ d +:+ rest)) with (String "-" (d +:+ rest)).
  assert (Hsign : forall c, Js.isSpace c = false ->
            Js.trimEnd (String c (d +:+ rest)) = String c (d +:+ Js.trimEnd rest)).
  { intros c Hc. simpl. now rewrite Hc, trimEnd_digits. }
  rewrite trimEnd_digits, !Hsign by (assumption || reflexivity).
  rewrite parseInt10_unsigned by assumption.
  rewrite !parseInt10_signed by auto.
  repeat split.
Qed.

Lemma parseIntStrict_reads_numeric_prefix_witness :
  parseIntStrict " 0x10" "pageSize" = Normal 0 /\
  parseIntStrict " +0x10" "pageSize" = Normal 0 /\
  parseIntStrict " -0x10" "pageSize" = Normal (- 0).
Proof.
  refine (parseIntStrict_reads_numeric_prefix " " "0" "x10" "pageSize" _ _ _ _).
  - reflexivity.
  - reflexivity.
  - reflexivity.
  - right. exists "x"%char, "10". split; reflexivity.
Defined.

(** X23. The number of rows of the two initial tables is always between
    12 and 16: it is 12 when nothing is stored or the stored text does not
    start with a number, a stored number from 12 to 16 is kept, and any
    other number (below 2^53) is brought to the nearer bound. *)
Theorem initRowsN_range (stored : option string) :
  12 <= Vm.initRowsN stored <= 16 /\
  Vm.initRowsN None = 12 /\
  (forall d, stored = Some d -> Js.parseInt10 d = None -> Vm.initRowsN stored = 12) /\
  (forall d, stored = Some d -> Js.isDecimalLiteral d = true ->
     (12 <= Js.decValue d <= 16 -> Vm.initRowsN stored = Js.decValue d) /\
     (Js.decValue d < 12 -> Vm.initRowsN stored = 12) /\
     (16 < Js.decValue d < 2 ^ 53 -> Vm.initRowsN stored = 16)).
Proof.
  split; [|split; [reflexivity|split]].
  - unfold Vm.initRowsN. destruct (Js.parseInt10 _); lia.
  - intros d -> Hnan. unfold Vm.initRowsN. simpl. now rewrite Hnan.
  - intros d -> Hd. unfold Vm.initRowsN. simpl.
    assert (Hp : Js.parseInt10 d = Some (Js.decValue d)).
    { rewrite <- (append_empty_r d) at 1. apply parseInt10_unsigned; auto. }
    rewrite Hp. repeat split; intros; lia.
Qed.

Lemma initRowsN_range_witness : Vm.initRowsN (Some "14") = 14.
Proof.
  destruct (initRowsN_range (Some "14")) as (_ & _ & _ & Hkept).
  destruct (Hkept "14" eq_refl eq_refl) as (Hin & _).
  apply Hin. vm_compute. split; discriminate.
Defined.

(** ** The search of the navigation *)

Section SearchFacts.
Import Js Spec Utils App.

Lemma isSpace_lowerChar c : isSpace (lowerChar c) = isSpace c.
Proof. destruct c as [[] [] [] [] [] [] [] []]; reflexivity. Qed.

Lemma lowerChar_idem c : lowerChar (lowerChar c) = lowerChar c.
Proof. destruct c as [[] [] [] [] [] [] [] []]; reflexivity. Qed.

Lemma toLowerCase_idem s : toLowerCase (toLowerCase s) = toLowerCase s.
Proof. induction s as [|c s IH]; simpl; [reflexivity|]. now rewrite lowerChar_idem, IH. Qed.

Lemma trimStart_lower s : trimStart (toLowerCase s) = toLowerCase (trimStart s).
Proof.
  induction s as [|c s IH]; simpl; [reflexivity|].
  rewrite isSpace_lowerChar. now destruct (isSpace c).
Qed.

Lemma trimEnd_lower s : trimEnd (toLowerCase s) = toLowerCase (trimEnd s).
Proof.
  induction s as [|c s IH]; simpl; [reflexivity|].
  rewrite isSpace_lowerChar, IH, isEmpty_lower.
  now destruct (isSpace c && isEmpty (trimEnd s)).
Qed.

Lemma trim_lower s : trim (toLowerCase s) = toLowerCase (trim s).
Proof. unfold trim. now rewrite trimStart_lower, trimEnd_lower. Qed.

Lemma trimEnd_run (u ws : string) :
  allChars isSpace ws = true -> trimEnd (u +:+ ws) = trimEnd u.
Proof.
  intros Hws. induction u as [|c u IH].
  - change ("" +:+ ws) with ws. pose proof (trimEnd_blank ws) as Hb. rewrite Hws in Hb.
    destruct (trimEnd ws); [reflexivity|discriminate].
  - rewrite append_cons. simpl. now rewrite IH.
Qed.

Lemma trimStart_app_run (v ws : string) :
  allChars isSpace ws = true ->
  trimEnd (trimStart (v +:+ ws)) = trimEnd (trimStart v).
Proof.
  intros Hws. induction v as [|c v IH].
  - change ("" +:+ ws) with ws. pose proof (trimStart_blank ws) as Hb. rewrite Hws in Hb.
    destruct (trimStart ws); [reflexivity|discriminate].
  - rewrite append_cons. simpl. destruct (isSpace c); [exact IH|].
    rewrite <- append_cons. now apply trimEnd_run.
Qed.

Lemma trim_padded (ws v ws' : string) :
  allChars isSpace ws = true -> allChars isSpace ws' = true ->
  trim (ws +:+ v +:+ ws') = trim v.
Proof.
  intros Hws Hws'. unfold trim. rewrite trimStart_run by assumption.
  now apply trimStart_app_run.
Qed.

Lemma startsWith_app (q b : string) : startsWith q (q +:+ b) = true.
Proof.
  induction q as [|c q IH]; [now destruct b|].
  rewrite append_cons. simpl. now rewrite charEq_refl.
Qed.

Lemma includes_app (a q b : string) : includes (a +:+ q +:+ b) q = true.
Proof.
  induction a as [|c a IH].
  - change ("" +:+ q +:+ b) with (q +:+ b).
    destruct (q +:+ b) eqn:E; simpl; rewrite <- E, startsWith_app; reflexivity.
  - rewrite append_cons. simpl. rewrite IH. apply orb_true_r.
Qed.

Lemma concat_elem (x : string) (l : list string) :
  x ∈ l -> exists a b, String.concat " " l = a +:+ x +:+ b.
Proof.
  induction l as [|y l IH]; intros Hx; [now apply elem_of_nil in Hx|].
  apply elem_of_cons in Hx as [->|Hx].
  - destruct l as [|z l].
    + exists "", "". simpl. now rewrite append_empty_r.
    + exists "", (" " +:+ String.concat " " (z :: l)). reflexivity.
  - destruct (IH Hx) as (a & b & Hab). destruct l as [|z l]; [now apply elem_of_nil in Hx|].
    exists (y +:+ " " +:+ a), b.
    change (String.concat " " (y :: z :: l)) with (y +:+ " " +:+ String.concat " " (z :: l)).
    rewrite Hab. now rewrite !append_assoc_string.
Qed.
End SearchFacts.

(** X24. The search box of the navigation.  [normalize] does not see the
    case of ASCII letters nor the white space around the text, and
    normalizing twice changes nothing.  So a blank search lists every
    module, and a search for the title or for any tag of a module, typed in
    any letter case and with blanks around it, lists the module. *)
Theorem nav_search_finds_title_and_tags
    (modules : list App.navModule) (m : App.navModule) (word typed ws ws' : string) :
  Js.allChars Js.isSpace ws = true -> Js.allChars Js.isSpace ws' = true ->
  Js.toLowerCase typed = Js.toLowerCase word ->
  Utils.normalize (Some (ws +:+ typed +:+ ws')) = Utils.normalize (Some word) /\
  Utils.normalize (Some (Utils.normalize (Some word))) = Utils.normalize (Some word) /\
  App.renderNav modules ws = modules /\
  (m ∈ modules -> word ∈ App.m_title m :: default [] (App.m_tags m) ->
   m ∈ App.renderNav modules (ws +:+ typed +:+ ws')).
Proof.
  intros Hws Hws' Hcase.
  assert (Hnorm : Utils.normalize (Some (ws +:+ typed +:+ ws')) = Utils.normalize (Some word)).
  { unfold Utils.normalize. simpl. rewrite trim_padded by assumption.
    now rewrite <- !trim_lower, Hcase. }
  split; [exact Hnorm|]. split; [|split].
  - unfold Utils.normalize. simpl.
    now rewrite <- trim_lower, toLowerCase_idem, trim_lower, trim_idem.
  - unfold App.renderNav, Utils.normalize. simpl.
    assert (Hblank : Js.toLowerCase (Js.trim ws) = "").
    { pose proof (trim_blank ws) as Hb. rewrite Hws in Hb.
      destruct (Js.trim ws); [reflexivity|discriminate]. }
    rewrite Hblank. induction modules as [|x l IH]; [reflexivity|].
    rewrite filter_cons_True by reflexivity. now rewrite IH.
  - intros Hm Hword. unfold App.renderNav. apply list_elem_of_filter. split; [|exact Hm].
    rewrite Hnorm. unfold App.navMatches.
    destruct (Js.isEmpty (Utils.normalize (Some word))); [reflexivity|].
    destruct (concat_elem (Utils.normalize (Some word))
                ((fun x => Utils.normalize (Some x)) <$> (App.m_title m :: default [] (App.m_tags m))))
      as (a & b & ->).
    + apply list_elem_of_fmap. eauto.
    + apply includes_app.
Qed.

Lemma nav_search_finds_title_and_tags_witness :
  let vm := App.NavModule "Virtual Memory" (Some ["vm"; "page table"; "tlb"]) in
  vm ∈ App.renderNav [App.NavModule "Home" None; vm] "  Page Table ".
Proof.
  intros vm.
  refine (proj2 (proj2 (proj2 (nav_search_finds_title_and_tags
                                 [App.NavModule "Home" None; vm] vm
                                 "page table" "Page Table" "  " " " _ _ _))) _ _).
  - reflexivity.
  - reflexivity.
  - reflexivity.
  - right. left.
  - right. right. left.
Defined.

(** ** The lines of the address list *)

Section LineFacts.
Import Js Bit Spec.

Lemma rev_app_acc (a b : string) : String.rev_app a b = String.rev_app a "" +:+ b.
Proof.
  revert b. induction a as [|c a IH]; intros b; [reflexivity|].
  simpl. rewrite (IH (String c b)), (IH (String c "")).
  now rewrite append_assoc_string.
Qed.

Lemma rev_cons (c : ascii) (cur : string) :
  String.rev (String c cur) = String.rev cur +:+ String c "".
Proof. unfold String.rev. simpl. apply rev_app_acc. Qed.

Lemma line_head (c : ascii) (l : string) :
  isLine (String c l) = true -> charEq c "010" = false /\ isLine l = true.
Proof.
  unfold isLine. simpl. intros [Hc Hl]%andb_true_iff.
  now apply negb_true_iff in Hc.
Qed.

(** A character of a line that does not close it is kept. *)
Lemma split_push (c : ascii) (cur s : string) :
  charEq c "010" = false ->
  (charEq c "013" = true -> exists c2 s', s = String c2 s' /\ charEq c2 "010" = false) ->
  splitLinesGo cur (String c s) = splitLinesGo (String c cur) s.
Proof.
  intros Hlf Hcr. simpl. rewrite Hlf.
  destruct (charEq c "013"); [|reflexivity].
  destruct (Hcr eq_refl) as (c2 & s' & -> & Hc2). now rewrite Hc2.
Qed.

Lemma split_last (l : string) :
  isLine l = true -> forall cur, splitLinesGo cur l = [String.rev cur +:+ l].
Proof.
  induction l as [|c l IH]; intros Hl cur.
  - simpl. now rewrite append_empty_r.
  - apply line_head in Hl as [Hc Hl]. simpl. rewrite Hc.
    assert (Hpush : splitLinesGo (String c cur) l = [String.rev cur +:+ String c l]).
    { rewrite (IH Hl), rev_cons, append_assoc_string. reflexivity. }
    destruct (charEq c "013"); [|exact Hpush].
    destruct l as [|c2 l]; [exact Hpush|].
    apply line_head in Hl as [Hc2 _]. now rewrite Hc2.
Qed.

(** A line and its line end give one piece: the line, or the line without
    a final carriage return. *)
Lemma split_line (l : string) :
  isLine l = true ->
  forall cur eol rest,
    isLineEnd eol ->
    exists piece ws,
      splitLinesGo cur (l +:+ eol +:+ rest) = piece :: splitLinesGo "" rest /\
      allChars isSpace ws = true /\
      piece +:+ ws = String.rev cur +:+ l.
Proof.
  induction l as [|c l IH]; intros Hl cur eol rest Heol.
  - change ("" +:+ eol +:+ rest) with (eol +:+ rest).
    exists (String.rev cur), "". rewrite !append_empty_r.
    split; [|split; reflexivity].
    destruct Heol as [-> | ->]; reflexivity.
  - apply line_head in Hl as [Hc Hl]. rewrite append_cons.
    destruct (charEq c "013") eqn:Hcr.
    + apply charEq_true in Hcr. subst c.
      destruct l as [|c2 l].
      * change ("" +:+ eol +:+ rest) with (eol +:+ rest).
        destruct Heol as [-> | ->].
        -- exists (String.rev cur), (String "013" ""). repeat split.
        -- exists (String.rev cur +:+ String "013" ""), "".
           rewrite append_empty_r. split; [|split; reflexivity].
           change (String "013" newline +:+ rest)
             with (String "013"%char (String "010"%char rest)).
           rewrite split_push; [|reflexivity|].
           ++ simpl. now rewrite rev_cons.
           ++ intros _. exists "013"%char, (String "010"%char rest). split; reflexivity.
      * pose proof Hl as [Hc2 _]%line_head.
        rewrite split_push; [|reflexivity|].
        -- destruct (IH Hl (String "013" cur) eol rest Heol) as (piece & ws & Hsplit & Hws & Hp).
           exists piece, ws. split; [exact Hsplit|]. split; [exact Hws|].
           rewrite Hp, rev_cons, append_assoc_string. reflexivity.
        -- intros _. rewrite append_cons. eauto.
    + rewrite split_push; [|assumption|congruence].
      destruct (IH Hl (String c cur) eol rest Heol) as (piece & ws & Hsplit & Hws & Hp).
      exists piece, ws. split; [exact Hsplit|]. split; [exact Hws|].
      rewrite Hp, rev_cons, append_assoc_string. reflexivity.
Qed.

Lemma trim_piece (piece ws l : string) :
  allChars isSpace ws = true -> piece +:+ ws = l -> trim piece = trim l.
Proof.
  intros Hws <-. unfold trim. symmetry. now apply trimStart_app_run.
Qed.

(** The trimmed lines of a text are the trimmed lines it was written
    from. *)
Lemma trimmedLines_text (rest : list (string * string)) :
  forall first,
    isLine first = true ->
    Forall (fun p => isLineEnd p.1 /\ isLine p.2 = true) rest ->
    trimmedLines (textOfLines first rest) = trim <$> (first :: (snd <$> rest)).
Proof.
  unfold trimmedLines, splitLines.
  induction rest as [|[eol l] rest IH]; intros first Hfirst Hrest.
  - simpl textOfLines. now rewrite split_last.
  - apply Forall_cons in Hrest as [[Heol Hl] Hrest]. simpl in Heol, Hl.
    simpl textOfLines.
    destruct (split_line first Hfirst "" eol (textOfLines l rest) Heol)
      as (piece & ws & -> & Hws & Hp).
    rewrite fmap_cons, (IH l Hl Hrest). simpl.
    f_equal. now apply (trim_piece piece ws).
Qed.
End LineFacts.

(** X25. The format of the address list.  An ASCII text written as lines
    closed by LF or by CR LF, the last line without a line end, is read line by
    line: each line is trimmed, the blank lines are dropped, and the
    others are parsed as hexadecimal addresses, in order, the first
    failure being the one of the run.  The cache and the virtual-memory
    module read the same lines. *)
Theorem address_list_format (first : string) (rest : list (string * string)) :
  Spec.isLine first = true ->
  Forall (fun p => Spec.isLineEnd p.1 /\ Spec.isLine p.2 = true) rest ->
  Spec.asciiText (Spec.textOfLines first rest) = true ->
  let text := Spec.textOfLines first rest in
  let kept := filter (fun l => Js.isEmpty l = false) (Js.trim <$> (first :: (snd <$> rest))) in
  Cache.addrLines text = kept /\
  Vm.addrLines text = kept /\
  Cache.parseAddresses text = mapM Bit.parseHexToBigInt kept.
Proof.
  intros Hfirst Hrest _ text kept.
  assert (Hlines : Cache.addrLines text = kept).
  { unfold Cache.addrLines, text. now rewrite trimmedLines_text. }
  split; [exact Hlines|]. split; [exact Hlines|].
  unfold Cache.parseAddresses. now rewrite Hlines.
Qed.

Lemma address_list_format_witness :
  Cache.parseAddresses
    (" 0x10 " +:+ String "013" Js.newline +:+ "" +:+ Js.newline +:+ "1F")
  = Normal [16; 31].
Proof.
  refine (eq_trans (proj2 (proj2 (address_list_format " 0x10 "
                                    [(String "013" Js.newline, ""); (Js.newline, "1F")] _ _ _))) _).
  - reflexivity.
  - constructor; [split; [now right|reflexivity]|].
    constructor; [split; [now left|reflexivity]|constructor].
  - reflexivity.
  - vm_compute. reflexivity.
Defined.

(** ** The binary lines of the two reports *)

Section BinarySplitFacts.
Import Js Bit.

Local Abbreviation isBit := (fun c => charEq c "0" || charEq c "1").

Lemma sliceTo_slice (n : nat) (s : string) : sliceTo n s +:+ slice n s = s.
Proof.
  revert s. induction n as [|n IH]; intros s; [reflexivity|].
  destruct s as [|c s]; [reflexivity|]. simpl. rewrite append_cons. now rewrite IH.
Qed.

Lemma sliceTo_length (n : nat) (s : string) :
  (n <= String.length s)%nat -> String.length (sliceTo n s) = n.
Proof.
  revert s. induction n as [|n IH]; intros s Hn; [reflexivity|].
  destruct s as [|c s]; simpl in *; [lia|]. rewrite IH; lia.
Qed.

Lemma slice_length (n : nat) (s : string) :
  String.length (slice n s) = (String.length s - n)%nat.
Proof.
  revert s. induction n as [|n IH]; intros s; [simpl; lia|].
  destruct s as [|c s]; simpl; [reflexivity|]. apply IH.
Qed.

Lemma digitsValue_acc (s : string) (acc : Z) :
  digitsValue 2 acc s = acc * 2 ^ Z.of_nat (String.length s) + digitsValue 2 0 s.
Proof.
  revert acc. induction s as [|c s IH]; intros acc; [simpl; lia|].
  cbn [digitsValue String.length]. rewrite (IH (acc * 2 + digitVal c)), (IH (0 * 2 + digitVal c)).
  rewrite Nat2Z.inj_succ, Z.pow_succ_r by lia. lia.
Qed.

Lemma bits_value_range (s : string) :
  allChars isBit s = true -> 0 <= digitsValue 2 0 s < 2 ^ Z.of_nat (String.length s).
Proof.
  induction s as [|c s IH]; intros Hs; [simpl; lia|].
  simpl in Hs. apply andb_true_iff in Hs as [Hc Hs]. specialize (IH Hs).
  cbn [digitsValue String.length]. rewrite digitsValue_acc.
  rewrite Nat2Z.inj_succ, Z.pow_succ_r by lia.
  assert (Hd : 0 <= digitVal c <= 1).
  { apply orb_true_iff in Hc as [Hc|Hc]; apply charEq_true in Hc; subst c; vm_compute;
      split; discriminate. }
  nia.
Qed.

(** The two slices of a binary text at [k]: the quotient and the remainder
    of its value by the weight of the part that is cut off. *)
Lemma bits_split (s : string) (k : nat) :
  allChars isBit s = true -> (k <= String.length s)%nat ->
  let low := Z.of_nat (String.length s - k) in
  String.length (sliceTo k s) = k /\
  String.length (slice k s) = (String.length s - k)%nat /\
  allChars isBit (sliceTo k s) = true /\ allChars isBit (slice k s) = true /\
  digitsValue 2 0 (sliceTo k s) = digitsValue 2 0 s / 2 ^ low /\
  digitsValue 2 0 (slice k s) = digitsValue 2 0 s mod 2 ^ low.
Proof.
  intros Hs Hk low.
  pose proof (sliceTo_slice k s) as Hcat.
  pose proof (sliceTo_length k s Hk) as Hl1. pose proof (slice_length k s) as Hl2.
  assert (Hbits : allChars isBit (sliceTo k s) = true /\ allChars isBit (slice k s) = true).
  { rewrite <- Hcat, allChars_app in Hs. now apply andb_true_iff in Hs. }
  destruct Hbits as [Hb1 Hb2].
  pose proof (bits_value_range _ Hb2) as Hr2. rewrite Hl2 in Hr2. fold low in Hr2.
  assert (Hval : digitsValue 2 0 s
                 = digitsValue 2 0 (sliceTo k s) * 2 ^ low + digitsValue 2 0 (slice k s)).
  { rewrite <- Hcat at 1. rewrite digitsValue_app, digitsValue_acc, Hl2. reflexivity. }
  repeat split; try assumption.
  - rewrite Hval. symmetry. rewrite Z.add_comm, Z.div_add by lia.
    rewrite Z.div_small by lia. lia.
  - rewrite Hval. rewrite Z.add_comm, Z.mod_add by lia. now rewrite Z.mod_small.
Qed.
End BinarySplitFacts.

Section BinaryLineFacts.
Import Js Bit.

Local Abbreviation isBit := (fun c => charEq c "0" || charEq c "1").

(** The binary text of a value that fits its width. *)
Lemma toBin_padded (x bits : Z) :
  0 < bits -> 0 <= x < 2 ^ bits ->
  String.length (toBin x (Some bits)) = Z.to_nat bits /\
  allChars isBit (toBin x (Some bits)) = true /\
  digitsValue 2 0 (toBin x (Some bits)) = x.
Proof.
  intros Hb Hx. unfold toBin, padStart0.
  destruct (toStringBase2_facts x (Z.to_nat bits)) as (Hlen & _ & Hbin & Hval);
    [rewrite Z2Nat.id by lia; exact Hx|lia|].
  set (s := toStringBase2 x) in *.
  destruct (zeros_padding (Z.to_nat (bits - Z.of_nat (String.length s))) s)
    as (z & -> & Hzlen & _ & Hzdig & Hzval).
  split; [|split].
  - rewrite length_app_string, Hzlen. lia.
  - rewrite allChars_app, Hbin, andb_true_r.
    revert Hzdig. apply allChars_impl. intros c Hc.
    apply charEq_true in Hc. subst c. reflexivity.
  - now rewrite Hzval.
Qed.

Lemma length_zero_string (s : string) : String.length s = 0%nat -> s = "".
Proof. destruct s; [reflexivity|discriminate]. Qed.

Lemma slice_slice (i j : nat) (s : string) : slice (i + j) s = slice j (slice i s).
Proof.
  revert s. induction i as [|i IH]; intros s; [reflexivity|].
  destruct s as [|c s]; simpl; [now destruct j|]. apply IH.
Qed.

(** A binary text of [hi + lo] digits cut after [hi] digits. *)
Lemma bits_cut (s : string) (v hi lo : Z) :
  0 <= hi -> 0 <= lo ->
  String.length s = Z.to_nat (hi + lo) ->
  allChars isBit s = true -> digitsValue 2 0 s = v ->
  String.length (sliceTo (Z.to_nat hi) s) = Z.to_nat hi /\
  String.length (slice (Z.to_nat hi) s) = Z.to_nat lo /\
  allChars isBit (slice (Z.to_nat hi) s) = true /\
  digitsValue 2 0 (sliceTo (Z.to_nat hi) s) = v / 2 ^ lo /\
  digitsValue 2 0 (slice (Z.to_nat hi) s) = v mod 2 ^ lo.
Proof.
  intros Hhi Hlo Hlen Hbits Hval.
  destruct (bits_split s (Z.to_nat hi) Hbits ltac:(lia)) as (H1 & H2 & _ & H4 & H5 & H6).
  replace (Z.of_nat (String.length s - Z.to_nat hi)) with lo in H5, H6 by lia.
  rewrite Hval in H5, H6. repeat split; try assumption. lia.
Qed.

Lemma div_of_mod (a lo mid : Z) :
  0 <= lo -> 0 <= mid ->
  (a mod 2 ^ (mid + lo)) / 2 ^ lo = (a / 2 ^ lo) mod 2 ^ mid /\
  (a mod 2 ^ (mid + lo)) mod 2 ^ lo = a mod 2 ^ lo.
Proof.
  intros Hlo Hmid.
  assert (Hl : 0 < 2 ^ lo) by (apply Z.pow_pos_nonneg; lia).
  assert (Hm : 0 < 2 ^ mid) by (apply Z.pow_pos_nonneg; lia).
  rewrite Z.add_comm, Z.pow_add_r by lia.
  rewrite Z.rem_mul_r by lia.
  set (q := (a / 2 ^ lo) mod 2 ^ mid). set (r := a mod 2 ^ lo).
  assert (Hr : 0 <= r < 2 ^ lo) by (apply Z.mod_pos_bound; lia).
  replace (r + 2 ^ lo * q) with (r + q * 2 ^ lo) by lia. split.
  - rewrite Z.div_add by lia. rewrite Z.div_small by assumption. lia.
  - rewrite Z.mod_add by lia. now apply Z.mod_small.
Qed.
End BinaryLineFacts.

(** X26. The binary line of the cache report agrees with the fields.  For
    a split into non-negative widths [tagBits + indexBits + offsetBits =
    addrBits] and an address clamped to [addrBits], the three parts of the
    line [bin: tag | index | offset] put together are the [addrBits] binary
    digits of the address; they have [tagBits], [indexBits] and
    [offsetBits] digits, and read in base 2 they are the tag, the index and
    the offset that the loop extracts with shifts and masks. *)
Theorem cache_binary_line_agrees
    (addrBits tagBits indexBits offsetBits x : Z) (t ix off : string) :
  0 <= tagBits -> 0 <= indexBits -> 0 <= offsetBits ->
  tagBits + indexBits + offsetBits = addrBits -> 0 < addrBits ->
  let a := Bit.clampBigIntToBits x addrBits in
  Cache.binFields addrBits tagBits indexBits offsetBits a = (t, ix, off) ->
  t +:+ ix +:+ off = Bit.toBin a (Some addrBits) /\
  String.length t = Z.to_nat tagBits /\
  String.length ix = Z.to_nat indexBits /\
  String.length off = Z.to_nat offsetBits /\
  Js.digitsValue 2 0 t = Cache.tagOf offsetBits indexBits a /\
  Js.digitsValue 2 0 ix = Cache.indexOf offsetBits indexBits a /\
  Js.digitsValue 2 0 off = Cache.offsetOf offsetBits a.
Proof.
  intros Ht Hi Ho Hsum Hpos a Hfields.
  assert (Ha : 0 <= a < 2 ^ addrBits).
  { unfold a. rewrite clamp_mod by lia. apply Z.mod_pos_bound. apply Z.pow_pos_nonneg; lia. }
  destruct (toBin_padded a addrBits Hpos Ha) as (Hlen & Hbits & Hval).
  set (s := Bit.toBin a (Some addrBits)) in *.
  unfold Cache.binFields in Hfields. fold s in Hfields.
  assert (Et : t = Js.sliceTo (Z.to_nat tagBits) s).
  { injection Hfields as <- _ _. unfold Js.sliceRange. rewrite Nat.sub_0_r. simpl.
    destruct (Z.ltb_spec 0 tagBits); [reflexivity|].
    now replace tagBits with 0 by lia. }
  assert (Ei : ix = Js.sliceTo (Z.to_nat indexBits) (Js.slice (Z.to_nat tagBits) s)).
  { injection Hfields as _ <- _. unfold Js.sliceRange.
    replace (Z.to_nat (tagBits + indexBits) - Z.to_nat tagBits)%nat
      with (Z.to_nat indexBits) by lia.
    destruct (Z.ltb_spec 0 indexBits); [reflexivity|].
    now replace indexBits with 0 by lia. }
  assert (Eo : off = Js.slice (Z.to_nat indexBits) (Js.slice (Z.to_nat tagBits) s)).
  { injection Hfields as _ _ <-. rewrite <- slice_slice.
    replace (Z.to_nat tagBits + Z.to_nat indexBits)%nat
      with (Z.to_nat (tagBits + indexBits)) by lia.
    destruct (Z.ltb_spec 0 offsetBits); [reflexivity|].
    symmetry. apply length_zero_string. rewrite slice_length. lia. }
  destruct (bits_cut s a tagBits (indexBits + offsetBits) Ht ltac:(lia)
              ltac:(rewrite Hlen; f_equal; lia) Hbits Hval)
    as (Hl1 & Hl2 & Hb2 & Hv1 & Hv2).
  destruct (bits_cut (Js.slice (Z.to_nat tagBits) s) (a mod 2 ^ (indexBits + offsetBits))
              indexBits offsetBits Hi Ho Hl2 Hb2 Hv2)
    as (Hl3 & Hl4 & _ & Hv3 & Hv4).
  destruct (div_of_mod a offsetBits indexBits Ho Hi) as [Hdiv Hmod].
  rewrite Hdiv in Hv3. rewrite Hmod in Hv4.
  subst t ix off. split; [|repeat split; try assumption].
  - now rewrite !sliceTo_slice.
  - rewrite Hv1. unfold Cache.tagOf. rewrite Z.shiftr_div_pow2 by lia.
    f_equal. f_equal. lia.
  - rewrite Hv3. unfold Cache.indexOf.
    destruct (Z.eqb_spec indexBits 0) as [->|Hnz]; [now rewrite Z.mod_1_r|].
    now rewrite maskBits_ones, Z.land_ones, Z.shiftr_div_pow2 by lia.
  - rewrite Hv4. unfold Cache.offsetOf. now rewrite maskBits_ones, Z.land_ones by lia.
Qed.

Lemma cache_binary_line_agrees_witness :
  Js.digitsValue 2 0 "010" = Cache.indexOf 4 3 (Bit.clampBigIntToBits 0x1A5 8).
Proof.
  refine (proj1 (proj2 (proj2 (proj2 (proj2 (proj2
            (cache_binary_line_agrees 8 1 3 4 0x1A5 "1" "010" "0101" _ _ _ _ _ _)))))));
    first [reflexivity | discriminate].
Defined.

(** X27. The binary lines of the translation report agree with the
    fields.  For [vpnBits + offsetBits = vaBits] and an address clamped to
    [vaBits], the two parts of the line [VA bin: vpn | offset] put together
    are the [vaBits] binary digits of the address, and read in base 2 they
    are the page number and the offset of the loop.  For [tlbTagBits +
    tlbIndexBits = vpnBits], the two parts of the line [VPN bin: tag |
    index] are the binary digits of the page number, and read in base 2
    they are the TLB tag and the TLB index. *)
Theorem vm_binary_lines_agree
    (vaBits vpnBits offsetBits tlbTagBits tlbIndexBits x : Z)
    (vpnBin offBin tagBin idxBin : string) :
  0 < vpnBits -> 0 <= offsetBits -> vpnBits + offsetBits = vaBits ->
  0 <= tlbTagBits -> 0 < tlbIndexBits -> tlbTagBits + tlbIndexBits = vpnBits ->
  let va := Bit.clampBigIntToBits x vaBits in
  let vpn := Z.shiftr va offsetBits in
  Vm.binFields vaBits vpnBits va = (vpnBin, offBin) ->
  Vm.binTlbFields vpnBits tlbTagBits vpn = (tagBin, idxBin) ->
  vpnBin +:+ offBin = Bit.toBin va (Some vaBits) /\
  String.length vpnBin = Z.to_nat vpnBits /\
  String.length offBin = Z.to_nat offsetBits /\
  Js.digitsValue 2 0 vpnBin = vpn /\
  Js.digitsValue 2 0 offBin = Z.land va (Bit.maskBits offsetBits) /\
  tagBin +:+ idxBin = Bit.toBin vpn (Some vpnBits) /\
  String.length tagBin = Z.to_nat tlbTagBits /\
  String.length idxBin = Z.to_nat tlbIndexBits /\
  Js.digitsValue 2 0 tagBin = Z.shiftr vpn tlbIndexBits /\
  Js.digitsValue 2 0 idxBin = Z.land vpn (Bit.maskBits tlbIndexBits).
Proof.
  intros Hv Ho Hsum Ht Hi Hsum' va vpn Hva Htlb.
  assert (Ha : 0 <= va < 2 ^ vaBits).
  { unfold va. rewrite clamp_mod by lia. apply Z.mod_pos_bound. apply Z.pow_pos_nonneg; lia. }
  destruct (va_fields va offsetBits vaBits Ho ltac:(lia) Ha) as (_ & Hvpn & _).
  fold vpn in Hvpn. replace (vaBits - offsetBits) with vpnBits in Hvpn by lia.
  destruct (toBin_padded va vaBits ltac:(lia) Ha) as (Hlen & Hbits & Hval).
  destruct (toBin_padded vpn vpnBits Hv Hvpn) as (Hlen' & Hbits' & Hval').
  unfold Vm.binFields in Hva. unfold Vm.binTlbFields in Htlb.
  unfold Js.sliceRange in Hva, Htlb. rewrite Nat.sub_0_r in Hva, Htlb.
  cbn [Js.slice] in Hva, Htlb.
  injection Hva as <- <-. injection Htlb as <- <-.
  destruct (bits_cut _ va vpnBits offsetBits ltac:(lia) Ho
              ltac:(rewrite Hlen; f_equal; lia) Hbits Hval)
    as (Hl1 & Hl2 & _ & Hv1 & Hv2).
  destruct (bits_cut _ vpn tlbTagBits tlbIndexBits Ht ltac:(lia)
              ltac:(rewrite Hlen'; f_equal; lia) Hbits' Hval')
    as (Hl3 & Hl4 & _ & Hv3 & Hv4).
  change (Js.padStart0 vaBits (Bit.toStringBase2 va)) with (Bit.toBin va (Some vaBits)).
  change (Js.padStart0 vpnBits (Bit.toStringBase2 vpn)) with (Bit.toBin vpn (Some vpnBits)).
  rewrite !sliceTo_slice.
  split; [reflexivity|]. split; [exact Hl1|]. split; [exact Hl2|].
  split; [rewrite Hv1; unfold vpn; now rewrite Z.shiftr_div_pow2|].
  split; [rewrite Hv2; now rewrite maskBits_ones, Z.land_ones|].
  split; [reflexivity|]. split; [exact Hl3|]. split; [exact Hl4|].
  split; [rewrite Hv3; now rewrite Z.shiftr_div_pow2 by lia|].
  rewrite Hv4. now rewrite maskBits_ones, Z.land_ones by lia.
Qed.

Lemma vm_binary_lines_agree_witness :
  Js.digitsValue 2 0 "101" = Z.shiftr (Bit.clampBigIntToBits 0x1A5 8) 5.
Proof.
  refine (proj1 (proj2 (proj2 (proj2
            (vm_binary_lines_agree 8 3 5 2 1 0x1A5 "101" "00101" "10" "1"
               _ _ _ _ _ _ _ _)))));
    first [reflexivity | discriminate].
Defined.

(** ** The values that the power-of-two test accepts *)

Section LowWordFacts.
Import Bit.

Lemma ToInt32_range (a : Z) : - 2 ^ 31 <= ToInt32 a < 2 ^ 31.
Proof. unfold ToInt32. pose proof (Z.mod_pos_bound (a + 2 ^ 31) (2 ^ 32)). lia. Qed.

Lemma ToInt32_mod (a : Z) : ToInt32 a mod 2 ^ 32 = a mod 2 ^ 32.
Proof.
  unfold ToInt32. rewrite Zminus_mod_idemp_l. f_equal. lia.
Qed.

Lemma ToInt32_low_bits (a k : Z) :
  0 <= k < 32 -> Z.testbit (ToInt32 a) k = Z.testbit (a mod 2 ^ 32) k.
Proof.
  intros Hk. rewrite <- ToInt32_mod. now rewrite Z.mod_pow2_bits_low.
Qed.

(** The bits of a 32-bit signed value from 31 up are copies of its sign. *)
Lemma int32_high_bits (x k : Z) :
  - 2 ^ 31 <= x < 2 ^ 31 -> 31 <= k -> Z.testbit x k = (x <? 0).
Proof.
  intros Hx Hk. destruct (Z.ltb_spec x 0) as [Hneg|Hpos].
  - apply Z.bits_above_log2_neg; [assumption|].
    destruct (Z.eq_dec (Z.pred (- x)) 0) as [->|Hnz]; [simpl; lia|].
    apply Z.lt_le_trans with 31; [|assumption]. apply Z.log2_lt_pow2; lia.
  - destruct (Z.eq_dec x 0) as [->|Hnz]; [apply Z.bits_0|].
    apply Z.bits_above_log2; [assumption|].
    apply Z.lt_le_trans with 31; [|assumption]. apply Z.log2_lt_pow2; lia.
Qed.

(** The [&] of two [Number]s is zero exactly when their low words share
    no bit. *)
Lemma land_ToInt32_zero (a b : Z) :
  Z.land (ToInt32 a) (ToInt32 b) = 0 <-> Z.land (a mod 2 ^ 32) (b mod 2 ^ 32) = 0.
Proof.
  split; intros H; apply Z.bits_inj'; intros k Hk; rewrite Z.bits_0, Z.land_spec.
  - destruct (Z.lt_ge_cases k 32) as [Hlow|Hhigh].
    + rewrite <- !ToInt32_low_bits by lia. rewrite <- Z.land_spec, H. apply Z.bits_0.
    + rewrite Z.mod_pow2_bits_high by lia. reflexivity.
  - destruct (Z.lt_ge_cases k 32) as [Hlow|Hhigh].
    + rewrite !ToInt32_low_bits by lia. rewrite <- Z.land_spec, H. apply Z.bits_0.
    + rewrite !int32_high_bits by (apply ToInt32_range || lia).
      rewrite <- (int32_high_bits (ToInt32 a) 31), <- (int32_high_bits (ToInt32 b) 31)
        by (apply ToInt32_range || lia).
      rewrite !ToInt32_low_bits by lia. rewrite <- Z.land_spec, H. apply Z.bits_0.
Qed.
End LowWordFacts.

(** X28. The values that [isPowerOfTwo] accepts.  The test looks at the
    low 32 bits only: a positive integer below 2^53 is accepted exactly
    when its low 32-bit word is zero or a power of two.  So the test is
    exact up to 2^32, where a value is accepted exactly when it is a power
    of two; above 2^32 the values wrongly accepted are the non-powers of
    two with such a low word. *)
Theorem isPowerOfTwo_low_word (n : Z) :
  0 < n < 2 ^ 53 ->
  (Bit.isPowerOfTwo n = true <->
   n mod 2 ^ 32 = 0 \/ exists k, 0 <= k < 32 /\ n mod 2 ^ 32 = 2 ^ k) /\
  (n <= 2 ^ 32 -> (Bit.isPowerOfTwo n = true <-> exists k, 0 <= k /\ n = 2 ^ k)).
Proof.
  intros [Hpos Hbig].
  assert (Hm : 0 <= n mod 2 ^ 32 < 2 ^ 32) by (apply Z.mod_pos_bound; lia).
  assert (Hcore : Bit.isPowerOfTwo n = true <->
                  n mod 2 ^ 32 = 0 \/ exists k, 0 <= k < 32 /\ n mod 2 ^ 32 = 2 ^ k).
  { unfold Bit.isPowerOfTwo. rewrite andb_true_iff, Z.ltb_lt, Z.eqb_eq, land_ToInt32_zero.
    destruct (Z.eq_dec (n mod 2 ^ 32) 0) as [Hz|Hnz].
    - rewrite Hz, Z.land_0_l. split; [now left|]. intros _. split; [assumption|reflexivity].
    - assert (Hpred : (n - 1) mod 2 ^ 32 = n mod 2 ^ 32 - 1).
      { rewrite Zminus_mod. rewrite (Z.mod_small 1) by lia. apply Z.mod_small. lia. }
      rewrite Hpred, land_pred_zero_iff_pow2 by lia. split.
      + intros [_ (k & Hk & Heq)]. right. exists k. split; [|assumption].
        split; [assumption|]. apply (Z.pow_lt_mono_r_iff 2); lia.
      + intros [Hz|(k & Hk & Heq)]; [contradiction|].
        split; [assumption|]. exists k. split; [lia|assumption]. }
  split; [exact Hcore|].
  intros Hsmall. destruct (Z.eq_dec n (2 ^ 32)) as [->|Hne].
  - split; [intros _; exists 32; lia|intros _]. apply isPowerOfTwo_pow2. lia.
  - rewrite Hcore, (Z.mod_small n) by lia. split.
    + intros [Hz|(k & Hk & Heq)]; [lia|]. exists k. split; [lia|assumption].
    + intros (k & Hk & Heq). right. exists k. split; [|assumption].
      split; [assumption|]. apply (Z.pow_lt_mono_r_iff 2); lia.
Qed.

Lemma isPowerOfTwo_low_word_witness :
  Bit.isPowerOfTwo (2 ^ 32 + 1) = true <->
  (2 ^ 32 + 1) mod 2 ^ 32 = 0 \/ exists k, 0 <= k < 32 /\ (2 ^ 32 + 1) mod 2 ^ 32 = 2 ^ k.
Proof. apply (isPowerOfTwo_low_word (2 ^ 32 + 1)). lia. Defined.
